(** * Image stylization engine: SLIC superpixels and the local-data filter

    A shallow embedding of the core of the stippler sources:

    - [Img]  : [ImageData] index arithmetic and neighbour queries
               (imagedata.cpp);
    - [Seg]  : [Superpixellation], [Superpixellation::Superpixel]
               (superpixellation.cpp);
    - [Alg]  : the [Algorithm] base class (algorithm.cpp);
    - [Slic] : the [SLIC] generator (slic.cpp);
    - [Ldf]  : [SuperpixelFilter] and [LocalDataFilter]
               (superpixelfilter.cpp, localdatafilter.cpp).

    Conventions.  [pxind] (a [qint32]) is modelled by [Z]; signed overflow,
    which is undefined in C++, is outside the model.  A C++ array is a
    [list]; a pointer to an array or to an object is an [option] ([None] is
    the null pointer).  Every function that can index out of bounds,
    dereference null or trip a [Q_ASSERT] returns an [option], [None]
    standing for the abort / undefined behaviour.  [qreal] is a binary64
    [float] in [Seg] and [Slic], evaluated with the IEEE operations of
    [PrimFloat]; in the histogram thresholding of [Ldf] it is idealised by
    exact rationals, see there.  [delete] is modelled by a log of the
    objects destroyed. *)

From Stdlib Require Import ZArith List Bool Lia QArith Lqa Sorted.
From Stdlib Require Import PrimFloat FloatOps SpecFloat Uint63.
From stdpp Require Import base option list.
From coqutil Require Import Datatypes.RecordSetters.
Import DoubleBraceUpdate.

#[local] Open Scope Z_scope.

(** ** Arrays and loops *)

(** [pxind] is [qint32]. *)
Abbreviation pxind := Z (only parsing).

(** [a[i]] as an rvalue. *)
Definition rd {A : Type} (a : list A) (i : pxind) : option A :=
  if 0 <=? i then a !! Z.to_nat i else None.

(** [a[i] = v]. *)
Definition wr {A : Type} (a : list A) (i : pxind) (v : A) : option (list A) :=
  if (0 <=? i) && (i <? Z.of_nat (length a))
  then Some (<[Z.to_nat i := v]> a) else None.

(** [new T[n]]: the contents are unspecified in C++; the model fills the
    block with [d].  [std::fill] is the same function. *)
Definition new_array {A : Type} (n : pxind) (d : A) : list A :=
  replicate (Z.to_nat n) d.

(** [n] iterations of a loop body over consecutive indices starting at [i]. *)
Fixpoint for_loop {S : Type} (n : nat) (i : pxind)
  (body : pxind -> S -> option S) (s : S) : option S :=
  match n with
  | O => Some s
  | S n' => s' ← body i s; for_loop n' (i + 1) body s'
  end.

(** [for (i = lo; i < hi; i += 1) body]. *)
Definition for_upto {S : Type} (lo hi : pxind)
  (body : pxind -> S -> option S) (s : S) : option S :=
  for_loop (Z.to_nat (hi - lo)) lo body s.

(** A loop over the elements of a list. *)
Fixpoint foldM {A S : Type} (f : A -> S -> option S) (l : list A) (s : S)
  : option S :=
  match l with
  | [] => Some s
  | x :: rest => s' ← f x s; foldM f rest s'
  end.

(** [std::fill(a, a + n, v)]. *)
Definition fill_array {A : Type} (a : option (list A)) (n : pxind) (v : A)
  : option (list A) :=
  l ← a;
  if (0 <=? n) && (n <=? Z.of_nat (length l))
  then Some (replicate (Z.to_nat n) v ++ drop (Z.to_nat n) l) else None.

(** Reads and writes through a pointer to an array. *)
Definition rdp {A : Type} (a : option (list A)) (i : pxind) : option A :=
  l ← a; rd l i.

Definition wrp {A : Type} (a : option (list A)) (i : pxind) (v : A)
  : option (list A) :=
  l ← a; wr l i v.

(** [n] iterations of a descending loop, from index [i]. *)
Fixpoint for_down {S : Type} (n : nat) (i : pxind)
  (body : pxind -> S -> option S) (s : S) : option S :=
  match n with
  | O => Some s
  | S n' => s' ← body i s; for_down n' (i - 1) body s'
  end.

(** The integers [lo, lo+1, ..., lo+n-1]. *)
Definition zseq (lo : Z) (n : nat) : list Z :=
  map (fun i => lo + Z.of_nat i) (seq 0 n).

(** ** Floating point: conversions and <math.h> *)

Module Flt.

Inductive rounding := Floor | Ceil | Round | Trunc.

(** [m * 2^e = q + r / d] with [0 <= r < d]. *)
Definition sf_parts (m : positive) (e : Z) : Z * Z * Z :=
  if 0 <=? e then (Zpos m * 2 ^ e, 0, 1)
  else let d := 2 ^ (- e) in (Zpos m / d, Zpos m mod d, d).

(** The integer nearest to a finite double in the given direction
    ([Round] is C's [round]: halfway cases away from zero). *)
Definition float_to_Z (mode : rounding) (x : float) : option Z :=
  match Prim2SF x with
  | S754_zero _ => Some 0
  | S754_finite s m e =>
      let '(q, r, d) := sf_parts m e in
      let frac := negb (r =? 0) in
      Some (match mode with
            | Floor => if s then (if frac then - q - 1 else - q) else q
            | Ceil => if s then - q else (if frac then q + 1 else q)
            | Round => let q' := if d <=? 2 * r then q + 1 else q in
                       if s then - q' else q'
            | Trunc => if s then - q else q
            end)
  | _ => None
  end.

(** [static_cast<qreal>(i)] for an integer [i]. *)
Definition of_pxind (z : Z) : float :=
  if z <? 0 then PrimFloat.opp (PrimFloat.of_uint63 (Uint63.of_Z (- z)))
  else PrimFloat.of_uint63 (Uint63.of_Z z).

Definition to_integral (mode : rounding) (x : float) : float :=
  match float_to_Z mode x with
  | Some z =>
      if Z.abs z <? 2 ^ 53
      then (if (z =? 0) && PrimFloat.ltb x 0 then PrimFloat.neg_zero
            else of_pxind z)
      else x
  | None => x
  end.

Definition c_floor : float -> float := to_integral Floor.
Definition c_ceil : float -> float := to_integral Ceil.
Definition c_round : float -> float := to_integral Round.

Definition INT_MIN : Z := - 2 ^ 31.

(** Conversion of a double to [pxind].  C++ leaves the conversion of a NaN
    or of an unrepresentable value undefined; the model returns the x86
    result. *)
Definition to_pxind (x : float) : Z :=
  match float_to_Z Trunc x with
  | Some z => if (INT_MIN <=? z) && (z <? 2 ^ 31) then z else INT_MIN
  | None => INT_MIN
  end.

(** Conversion of a double to single precision, kept as the double that
    has the same value. *)
Definition narrow (x : float) : float :=
  match Prim2SF x with
  | S754_finite s m e => SF2Prim (binary_round 24 128 s m e)
  | _ => x
  end.

End Flt.

(** ** Qt value types

    [QPoint], [QVector2D], [QVector3D] and [qRgb] belong to Qt; they are
    modelled from Qt's documentation: the vectors hold single precision
    components and compute in single precision. *)

Module Qt.

Record QPoint := mkQPoint { px : Z; py : Z }.

Record QVector2D := mkV2 { v2x : float; v2y : float }.
Record QVector3D := mkV3 { v3x : float; v3y : float; v3z : float }.

(** The default constructors give null vectors. *)
Definition V2zero : QVector2D := mkV2 0 0.
Definition V3zero : QVector3D := mkV3 0 0 0.

(** [QVector2D(x, y)] and [QVector3D(x, y, z)] take [float] arguments. *)
Definition V2 (x y : float) : QVector2D := mkV2 (Flt.narrow x) (Flt.narrow y).
Definition V3 (x y z : float) : QVector3D :=
  mkV3 (Flt.narrow x) (Flt.narrow y) (Flt.narrow z).

Definition f32 (op : float -> float -> float) (a b : float) : float :=
  Flt.narrow (op a b).

Definition V2add (a b : QVector2D) : QVector2D :=
  mkV2 (f32 PrimFloat.add (v2x a) (v2x b)) (f32 PrimFloat.add (v2y a) (v2y b)).
Definition V2sub (a b : QVector2D) : QVector2D :=
  mkV2 (f32 PrimFloat.sub (v2x a) (v2x b)) (f32 PrimFloat.sub (v2y a) (v2y b)).
Definition V2div (a : QVector2D) (d : float) : QVector2D :=
  let d := Flt.narrow d in
  mkV2 (f32 PrimFloat.div (v2x a) d) (f32 PrimFloat.div (v2y a) d).
Definition V2lengthSquared (a : QVector2D) : float :=
  f32 PrimFloat.add (f32 PrimFloat.mul (v2x a) (v2x a))
                    (f32 PrimFloat.mul (v2y a) (v2y a)).

Definition V3add (a b : QVector3D) : QVector3D :=
  mkV3 (f32 PrimFloat.add (v3x a) (v3x b)) (f32 PrimFloat.add (v3y a) (v3y b))
       (f32 PrimFloat.add (v3z a) (v3z b)).
Definition V3sub (a b : QVector3D) : QVector3D :=
  mkV3 (f32 PrimFloat.sub (v3x a) (v3x b)) (f32 PrimFloat.sub (v3y a) (v3y b))
       (f32 PrimFloat.sub (v3z a) (v3z b)).
Definition V3div (a : QVector3D) (d : float) : QVector3D :=
  let d := Flt.narrow d in
  mkV3 (f32 PrimFloat.div (v3x a) d) (f32 PrimFloat.div (v3y a) d)
       (f32 PrimFloat.div (v3z a) d).
Definition V3lengthSquared (a : QVector3D) : float :=
  f32 PrimFloat.add
    (f32 PrimFloat.add (f32 PrimFloat.mul (v3x a) (v3x a))
                       (f32 PrimFloat.mul (v3y a) (v3y a)))
    (f32 PrimFloat.mul (v3z a) (v3z a)).

(** [qRgb(r, g, b)]: an opaque ARGB quadruplet. *)
Definition qRgb (r g b : Z) : Z :=
  Z.lor (Z.shiftl 255 24)
    (Z.lor (Z.shiftl (Z.land r 255) 16)
       (Z.lor (Z.shiftl (Z.land g 255) 8) (Z.land b 255))).

End Qt.

(** ** imagedata.cpp *)

Module Img.

(** An image whose RGB and CIE L*a*b* channels are both available (the
    conversions between them are outside the core). *)
Record ImageData := mkImage {
  w : pxind;
  h : pxind;
  red : list Z;
  green : list Z;
  blue : list Z;
  lStar : list float;
  aStar : list float;
  bStar : list float
}.

Definition pixelCount (img : ImageData) : pxind := w img * h img.
Definition width (img : ImageData) : pxind := w img.
Definition height (img : ImageData) : pxind := h img.

Definition checkXY (img : ImageData) (x y : pxind) : bool :=
  (0 <=? x) && (x <? w img) && (0 <=? y) && (y <? h img).

Definition checkK (img : ImageData) (k : pxind) : bool :=
  (0 <=? k) && (k <? pixelCount img).

Definition xyToK (img : ImageData) (x y : pxind) : option pxind :=
  if checkXY img x y then Some (w img * y + x) else None.

Definition kToXY (img : ImageData) (k : pxind) : option (pxind * pxind) :=
  if checkK img k then Some (Z.rem k (w img), Z.quot k (w img)) else None.

(** The in-image 4-neighbours of [k], in the order right, up, left, bottom;
    [nNeighbours] is the length of the result. *)
Definition fourNeighbours (img : ImageData) (k : pxind) : option (list pxind) :=
  '(x, y) ← kToXY img k;
  r ← (if x + 1 <? w img then v ← xyToK img (x + 1) y; Some [v] else Some []);
  u ← (if 0 <=? y - 1 then v ← xyToK img x (y - 1); Some [v] else Some []);
  l ← (if 0 <=? x - 1 then v ← xyToK img (x - 1) y; Some [v] else Some []);
  b ← (if y + 1 <? h img then v ← xyToK img x (y + 1); Some [v] else Some []);
  Some (r ++ u ++ l ++ b).

(** The windowed neighbourhood [ImageData::neighbours], column by column. *)
Definition neighbours (img : ImageData) (centerX centerY dx dy : pxind)
  : option (list pxind) :=
  let startX := if centerX - dx <? 0 then 0 else centerX - dx in
  let startY := if centerY - dy <? 0 then 0 else centerY - dy in
  let endX := if w img <=? centerX + dx then w img - 1 else centerX + dx in
  let endY := if h img <=? centerY + dy then h img - 1 else centerY + dy in
  mapM (fun xy : Z * Z => xyToK img (fst xy) (snd xy))
    (xi ← zseq startX (Z.to_nat (endX - startX + 1));
     yi ← zseq startY (Z.to_nat (endY - startY + 1));
     [(xi, yi)]).

(** [eightNeighbours]: the in-image 8-neighbours, anticlockwise from the
    right. *)
Definition eightNeighbours (img : ImageData) (k : pxind)
  : option (list pxind) :=
  '(x, y) ← kToXY img k;
  let at_ (c : bool) (x' y' : pxind) : option (list pxind) :=
    if c then v ← xyToK img x' y'; Some [v] else Some [] in
  n0 ← at_ (x + 1 <? w img) (x + 1) y;
  n1 ← at_ ((0 <=? y - 1) && (x + 1 <? w img)) (x + 1) (y - 1);
  n2 ← at_ (0 <=? y - 1) x (y - 1);
  n3 ← at_ ((0 <=? x - 1) && (0 <=? y - 1)) (x - 1) (y - 1);
  n4 ← at_ (0 <=? x - 1) (x - 1) y;
  n5 ← at_ ((0 <=? x - 1) && (y + 1 <? h img)) (x - 1) (y + 1);
  n6 ← at_ (y + 1 <? h img) x (y + 1);
  n7 ← at_ ((x + 1 <? w img) && (y + 1 <? h img)) (x + 1) (y + 1);
  Some (n0 ++ n1 ++ n2 ++ n3 ++ n4 ++ n5 ++ n6 ++ n7).

(** [eightNeighboursReplicate]: always eight entries, border pixels
    standing in for the missing ones. *)
Definition eightNeighboursReplicate (img : ImageData) (k : pxind)
  : option (list pxind) :=
  '(x, y) ← kToXY img k;
  let xr := if w img <=? x + 1 then x else x + 1 in
  let yu := if 0 <? y then y - 1 else y in
  let xl := if x - 1 <? 0 then x else x - 1 in
  let yb := if h img <=? y + 1 then y else y + 1 in
  mapM (fun xy : Z * Z => xyToK img (fst xy) (snd xy))
    [(xr, y); (xr, yu); (x, yu); (xl, yu); (xl, y); (xl, yb); (x, yb); (xr, yb)].

(** One channel of [sobelLabAt(k, gl, ga, gb)]. *)
Definition sobelChannel (c : list float) (nb : list pxind)
  : option Qt.QVector2D :=
  c0 ← (i ← rd nb 0; rd c i);
  c1 ← (i ← rd nb 1; rd c i);
  c2 ← (i ← rd nb 2; rd c i);
  c3 ← (i ← rd nb 3; rd c i);
  c4 ← (i ← rd nb 4; rd c i);
  c5 ← (i ← rd nb 5; rd c i);
  c6 ← (i ← rd nb 6; rd c i);
  c7 ← (i ← rd nb 7; rd c i);
  Some (Qt.V2 (c0 * -2 + c1 * -1 + c3 * 1 + c4 * 2 + c5 * 1 + c7 * -1)%float
              (c1 * 1 + c2 * 2 + c3 * 1 + c5 * -1 + c6 * -2 + c7 * -1)%float).

(** [sobelLabAt(k, g)]: the sum of the three channel gradients. *)
Definition sobelLabAt (img : ImageData) (k : pxind) : option Qt.QVector2D :=
  nb ← eightNeighboursReplicate img k;
  gl ← sobelChannel (lStar img) nb;
  ga ← sobelChannel (aStar img) nb;
  gb ← sobelChannel (bStar img) nb;
  Some (Qt.mkV2
          (Qt.f32 PrimFloat.add (Qt.f32 PrimFloat.add (Qt.v2x gl) (Qt.v2x ga))
                  (Qt.v2x gb))
          (Qt.f32 PrimFloat.add (Qt.f32 PrimFloat.add (Qt.v2y gl) (Qt.v2y ga))
                  (Qt.v2y gb))).

End Img.

(** ** superpixellation.cpp *)

Module Seg.
Import Img Qt.

Definition SUPERPIXELLATION_NONE_LABEL : pxind := -1.
Definition IMAGEDATA_MAX_RGB : Z := 255.

Record Center (P : Type) := mkCenter { position : P; color : QVector3D }.
Arguments mkCenter {P} _ _.
Arguments position {P} _.
Arguments color {P} _.

Record Superpixel := mkSuperpixel {
  id : pxind;
  center : Center QPoint;
  centerRGB : Z;
  allPx : list pxind;
  nInteriorPixels : pxind;
  nBoundaryPixels : pxind;
  nPixels : pxind;
  stdDevColor : float;
  stdDevColorChannels : QVector3D
}.

(** The accumulators of the first loop of the constructor. *)
Record Sums := mkSums {
  xc : pxind; yc : pxind;
  lc : float; ac : float; bc : float;
  redC : float; greenC : float; blueC : float;
  isBoundary : list bool;
  nBoundary : pxind
}.

(** [for (j = 0; j < 4; j += 1) if (label != labels[neighbours[j]]) { ...; break; }] *)
Fixpoint anyDiffers (labels : list pxind) (label : pxind) (nbs : list pxind)
  : option bool :=
  match nbs with
  | [] => Some false
  | nb :: rest =>
      l' ← rd labels nb;
      if negb (label =? l') then Some true else anyDiffers labels label rest
  end.

(** Whether the constructor classifies pixel [p] as a boundary pixel. *)
Definition boundaryTest (labels : list pxind) (img : ImageData) (p : pxind)
  : option bool :=
  nbs ← fourNeighbours img p;
  if Z.of_nat (length nbs) <? 4 then Some true
  else label ← rd labels p; anyDiffers labels label nbs.

Definition sumsBody (allPixels labels : list pxind) (img : ImageData)
  (i : pxind) (s : Sums) : option Sums :=
  p ← rd allPixels i;
  '(xi, yi) ← kToXY img p;
  l ← rd (lStar img) p;
  a ← rd (aStar img) p;
  b ← rd (bStar img) p;
  r ← rd (red img) p;
  g ← rd (green img) p;
  bl ← rd (blue img) p;
  mark ← boundaryTest labels img p;
  flags ← (if (mark : bool) then wr (isBoundary s) i true
           else Some (isBoundary s));
  Some {| xc := xc s + xi; yc := yc s + yi;
          lc := (lc s + l)%float; ac := (ac s + a)%float; bc := (bc s + b)%float;
          redC := (redC s + Flt.of_pxind r)%float;
          greenC := (greenC s + Flt.of_pxind g)%float;
          blueC := (blueC s + Flt.of_pxind bl)%float;
          isBoundary := flags;
          nBoundary := if (mark : bool) then nBoundary s + 1 else nBoundary s |}.

(** The second loop: boundary pixels go to the front of [orderedPixels],
    interior pixels behind them.  The state is the array and the two write
    cursors. *)
Definition arrangeBody (allPixels : list pxind) (flags : list bool)
  (i : pxind) (s : list pxind * pxind * pxind)
  : option (list pxind * pxind * pxind) :=
  let '(ordered, boundaryPointer, interiorPointer) := s in
  flag ← rd flags i;
  p ← rd allPixels i;
  if (flag : bool)
  then ordered' ← wr ordered boundaryPointer p;
       Some (ordered', boundaryPointer + 1, interiorPointer)
  else ordered' ← wr ordered interiorPointer p;
       Some (ordered', boundaryPointer, interiorPointer + 1).

(** The guard [nPixels > 1] of the standard deviation block together with
    the divisor [nPixels - 1] used inside it. *)
Definition stdDevDivisor (nPx : pxind) : option pxind :=
  if 1 <? nPx then Some (nPx - 1) else None.

Definition devBody (ordered : list pxind) (img : ImageData)
  (lc ac bc : float) (i : pxind) (s : float * float * float * float)
  : option (float * float * float * float) :=
  let '(dlSum, daSum, dbSum, dev) := s in
  p ← rd ordered i;
  l ← rd (lStar img) p;
  a ← rd (aStar img) p;
  b ← rd (bStar img) p;
  let dli := ((lc - l) * (lc - l))%float in
  let dai := ((ac - a) * (ac - a))%float in
  let dbi := ((bc - b) * (bc - b))%float in
  Some ((dlSum + dli)%float, (daSum + dai)%float, (dbSum + dbi)%float,
        (dev + (dli + dai + dbi))%float).

Definition colourDeviation (ordered : list pxind) (nPx : pxind)
  (img : ImageData) (lc ac bc : float) : option (float * QVector3D) :=
  match stdDevDivisor nPx with
  | Some d =>
      '(dlSum, daSum, dbSum, dev) ←
        for_upto 0 nPx (devBody ordered img lc ac bc) (0, 0, 0, 0)%float;
      let d := Flt.of_pxind d in
      Some (PrimFloat.sqrt (dev / d)%float,
            V3 (PrimFloat.sqrt (dlSum / d)%float)
               (PrimFloat.sqrt (daSum / d)%float)
               (PrimFloat.sqrt (dbSum / d)%float))
  | None => Some (0%float, V3zero)
  end.

Definition clampCoordinate (v bound : pxind) : pxind :=
  let v := if v <? 0 then 0 else v in
  if bound <=? v then bound else v.

Definition meanChannel (sum : float) (nPx : pxind) : Z :=
  let c := (sum / Flt.of_pxind nPx)%float in
  Flt.to_pxind (if PrimFloat.ltb (Flt.of_pxind IMAGEDATA_MAX_RGB) c
                then Flt.of_pxind IMAGEDATA_MAX_RGB else Flt.c_floor c).

(** [Superpixel::Superpixel(l, allPixels, nPx, labels, img)]. *)
Definition Superpixel_ctor (l : pxind) (allPixels : list pxind) (nPx : pxind)
  (labels : list pxind) (img : ImageData) : option Superpixel :=
  s ← for_upto 0 nPx (sumsBody allPixels labels img)
        {| xc := 0; yc := 0; lc := 0; ac := 0; bc := 0;
           redC := 0; greenC := 0; blueC := 0;
           isBoundary := new_array nPx false; nBoundary := 0 |};
  let n := Flt.of_pxind nPx in
  let cx := clampCoordinate
              (Flt.to_pxind (Flt.c_round (Flt.of_pxind (xc s) / n)%float))
              (width img) in
  let cy := clampCoordinate
              (Flt.to_pxind (Flt.c_round (Flt.of_pxind (yc s) / n)%float))
              (height img) in
  let lc' := (lc s / n)%float in
  let ac' := (ac s / n)%float in
  let bc' := (bc s / n)%float in
  let rgb := qRgb (meanChannel (redC s) nPx) (meanChannel (greenC s) nPx)
                  (meanChannel (blueC s) nPx) in
  let nInterior := nPx - nBoundary s in
  '(ordered, _, _) ← for_upto 0 nPx (arrangeBody allPixels (isBoundary s))
                        (new_array nPx 0, 0, nBoundary s);
  '(dev, devChannels) ← colourDeviation ordered nPx img lc' ac' bc';
  Some {| id := l;
          center := mkCenter (mkQPoint cx cy) (V3 lc' ac' bc');
          centerRGB := rgb;
          allPx := ordered;
          nInteriorPixels := nInterior;
          nBoundaryPixels := nBoundary s;
          nPixels := nPx;
          stdDevColor := dev;
          stdDevColorChannels := devChannels |}.

Definition label (s : Superpixel) : pxind := id s.
Definition size (s : Superpixel) : float := Flt.of_pxind (nPixels s).

(** The accessors return a pointer into [allPx] and a count. *)
Definition slice (a : list pxind) (start n : pxind) : list pxind :=
  take (Z.to_nat n) (drop (Z.to_nat start) a).

Definition interiorPixels (s : Superpixel) : list pxind :=
  slice (allPx s) (nBoundaryPixels s) (nInteriorPixels s).
Definition boundaryPixels (s : Superpixel) : list pxind :=
  slice (allPx s) 0 (nBoundaryPixels s).
Definition allPixels (s : Superpixel) : list pxind :=
  slice (allPx s) 0 (nPixels s).

Definition standardColorDeviation (s : Superpixel) : float := stdDevColor s.
Definition standardColorDeviationChannels (s : Superpixel) : QVector3D :=
  stdDevColorChannels s.

(** *** Superpixellation *)

Record Superpixellation := mkSuperpixellation {
  superpixels : option (list (option Superpixel));
  img : option ImageData;
  superpixelLabels : option (list pxind);
  nSuperpixels : pxind;
  shareImage : bool;
  shareAll : bool
}.

(** What a destructor releases. *)
Inductive Freed :=
| FreeSuperpixels (s : list (option Superpixel))
| FreeImage (i : ImageData)
| FreeLabels (l : list pxind).

(** [Superpixellation(i, sLabels, s, n, sI)]: the new object, and the
    caller's three pointers after the call. *)
Definition Superpixellation_ctor (i : option ImageData)
  (sLabels : option (list pxind)) (s : option (list (option Superpixel)))
  (n : pxind) (sI : bool)
  : Superpixellation * (option ImageData * option (list pxind)
                        * option (list (option Superpixel))) :=
  ({| superpixels := s; img := i; superpixelLabels := sLabels;
      nSuperpixels := n; shareImage := sI; shareAll := false |},
   (if sI then i else None, None, None)).

(** [Superpixellation(Superpixellation& other)]: the new object and [other]
    after the call. *)
Definition Superpixellation_shallow (other : Superpixellation)
  : Superpixellation * Superpixellation :=
  ({| superpixels := superpixels other; img := img other;
      superpixelLabels := superpixelLabels other;
      nSuperpixels := nSuperpixels other;
      shareImage := shareImage other; shareAll := shareAll other |},
   {| superpixels := superpixels other; img := img other;
      superpixelLabels := superpixelLabels other;
      nSuperpixels := nSuperpixels other;
      shareImage := shareImage other; shareAll := true |}).

(** [~Superpixellation()]: the objects it deletes. *)
Definition Superpixellation_dtor (s : Superpixellation) : list Freed :=
  if shareAll s then []
  else match superpixels s with Some a => [FreeSuperpixels a] | None => [] end
       ++ match img s with
          | Some i => if shareImage s then [] else [FreeImage i]
          | None => []
          end
       ++ match superpixelLabels s with Some l => [FreeLabels l] | None => [] end.

(** [transferImageOwnership]: the image handed out and the object after. *)
Definition transferImageOwnership (s : Superpixellation)
  : option ImageData * Superpixellation :=
  (img s,
   {| superpixels := superpixels s; img := img s;
      superpixelLabels := superpixelLabels s;
      nSuperpixels := nSuperpixels s;
      shareImage := true; shareAll := shareAll s |}).

(** *** The properties of a segmentation, as the specification words them *)

(** An empty shell holds no reference to a superpixel array, to a label
    array or to an image. *)
Definition emptyShell (s : Superpixellation) : Prop :=
  superpixels s = None /\ img s = None /\ superpixelLabels s = None.

(** The four positions around [(x, y)]: right, up, left, bottom. *)
Definition around (x y : pxind) : list (pxind * pxind) :=
  [(x + 1, y); (x, y - 1); (x - 1, y); (x, y + 1)].

(** A pixel is a boundary pixel when one of its 4-neighbours lies off the
    image or carries a different label. *)
Definition isBoundaryPixel (labels : list pxind) (img : ImageData) (p : pxind)
  : bool :=
  existsb (fun q : pxind * pxind =>
             negb (checkXY img (fst q) (snd q))
             || negb (bool_decide (rd labels (w img * snd q + fst q)
                                   = rd labels p)))
          (around (Z.rem p (w img)) (Z.quot p (w img))).

(** The boundary and the interior pixels among [pxs], in their order. *)
Definition boundaryPart (labels : list pxind) (img : ImageData)
  (pxs : list pxind) : list pxind :=
  filter (fun p => isBoundaryPixel labels img p = true) pxs.

Definition interiorPart (labels : list pxind) (img : ImageData)
  (pxs : list pxind) : list pxind :=
  filter (fun p => isBoundaryPixel labels img p = false) pxs.

(** Every channel of the image has one entry per pixel. *)
Definition wfImage (img : ImageData) : Prop :=
  0 <= w img /\ 0 <= h img /\
  Z.of_nat (length (red img)) = pixelCount img /\
  Z.of_nat (length (green img)) = pixelCount img /\
  Z.of_nat (length (blue img)) = pixelCount img /\
  Z.of_nat (length (lStar img)) = pixelCount img /\
  Z.of_nat (length (aStar img)) = pixelCount img /\
  Z.of_nat (length (bStar img)) = pixelCount img.

(** The pixel lists of the superpixels agree with the label array: entry
    [j] lists exactly the pixels labelled [j]. *)
Definition pixelListsMatchLabels (sps : list (option Superpixel))
  (labels : list pxind) : Prop :=
  forall j, 0 <= j < Z.of_nat (length sps) ->
    exists sp, rd sps j = Some (Some sp)
               /\ forall p, p ∈ allPixels sp <-> rd labels p = Some j.

(** The pixels that carry label [c], in ascending order: what a scan of
    the image pixel by pixel collects for cluster [c]. *)
Definition naiveBucket (labels : list pxind) (c : pxind) : list pxind :=
  filter (fun p => rd labels p = Some c) (zseq 0 (length labels)).

End Seg.

(** ** algorithm.cpp *)

Module Alg.
Import Img Seg.

(** [QImage], from Qt's documentation: an image of a non-positive size is
    null, and [setPixel] ignores coordinates outside the image. *)
Record QImage := mkQImage { qw : Z; qh : Z; qpixels : list Z }.

Definition QImage_new (wd ht : Z) : QImage :=
  mkQImage wd ht (new_array (wd * ht) 0).
Definition isNull (i : QImage) : bool := (qw i <=? 0) || (qh i <=? 0).
Definition fill (c : Z) (i : QImage) : QImage :=
  mkQImage (qw i) (qh i) (replicate (length (qpixels i)) c).
Definition setPixel (x y c : Z) (i : QImage) : QImage :=
  if (0 <=? x) && (x <? qw i) && (0 <=? y) && (y <? qh i)
  then mkQImage (qw i) (qh i) (<[Z.to_nat (qw i * y + x) := c]> (qpixels i))
  else i.

(** The data members of [Algorithm]; the SVG helpers are opaque tokens and
    the timer is not modelled. *)
#[projections(primitive)]
Record Algorithm := mkAlgorithm {
  input : option ImageData;
  outputIsEnabled : bool;
  outputImage : option QImage;
  outputSVG : option (list Z);
  outputSVGPainter : option unit;
  svgGenerator : option unit;
  svgFileIOWrapper : option unit;
  failed : bool;
  finished : bool
}.

Definition Algorithm_ctor : Algorithm :=
  {| input := None; outputIsEnabled := true; outputImage := None;
     outputSVG := None; outputSVGPainter := None; svgGenerator := None;
     svgFileIOWrapper := None; failed := false; finished := false |}.

Definition disableOutput (a : Algorithm) : Algorithm :=
  a {{ outputIsEnabled := false }}.

(** [Algorithm::output]: the result, the two out-parameters and the object
    afterwards. *)
Definition output (a : Algorithm)
  : bool * option QImage * option (list Z) * Algorithm :=
  if negb (finished a) || failed a || negb (outputIsEnabled a)
  then (false, None, None, a)
  else (true, outputImage a, outputSVG a,
        a {{ outputImage := None; outputSVG := None }}).

Definition isFinished (a : Algorithm) : bool := finished a.

Definition finalizeOutput (a : Algorithm) : Algorithm :=
  a {{ outputSVGPainter := None; svgGenerator := None;
       svgFileIOWrapper := None }}.

(** [Algorithm::cleanup], with the objects it deletes. *)
Definition cleanup (a : Algorithm) : Algorithm * list Freed :=
  let a := finalizeOutput a in
  (a {{ input := None; failed := false; finished := false }},
   match input a with Some i => [FreeImage i] | None => [] end).

(** [Algorithm::initializeOutput].  The vector branch calls into the image
    manager, which is outside the core: it leaves the SVG helpers and an
    empty buffer allocated. *)
Definition initializeOutput (fillColor : Z) (vectorOutput : bool)
  (a : Algorithm) : option (bool * Algorithm) :=
  if negb (outputIsEnabled a) then Some (false, a)
  else
    i ← input a;
    let image := fill fillColor (QImage_new (width i) (height i)) in
    let a := a {{ outputImage := Some image }} in
    let a := if vectorOutput
             then a {{ outputSVGPainter := Some tt; svgGenerator := Some tt;
                       svgFileIOWrapper := Some tt; outputSVG := Some [] }}
             else a in
    Some (negb (isNull image), a).

(** The virtual members that [Algorithm]'s own code calls on [this]. *)
Class AlgorithmBase (T : Type) := {
  base : T -> Algorithm;
  with_base : Algorithm -> T -> T;
  v_cleanup : T -> T * list Freed
}.

(** [Algorithm::initialize(ImageData *&image)]: result, object, deleted
    objects.  The caller's pointer is null afterwards. *)
Definition initialize {T : Type} `{AlgorithmBase T} (t : T)
  (image : option ImageData) : bool * T * list Freed :=
  let '(t, freed) := v_cleanup t in
  (true, with_base ((base t) {{ input := image }}) t, freed).

(** [Algorithm::initialize(QVector<ImageData *> *&images)], given the
    override of [initialize(ImageData *&)] to forward to. *)
Definition initialize_images {T : Type}
  (v_initialize : T -> option ImageData -> option (bool * T * list Freed))
  (t : T) (images : list (option ImageData))
  : option (bool * T * list Freed) :=
  match images with
  | [] => None
  | firstImage :: rest =>
      let freed := omap (fun i : option ImageData => FreeImage <$> i) rest in
      '(ok, t, freed') ← v_initialize t firstImage;
      Some (ok, t, freed ++ freed')
  end.

End Alg.

(** ** ods/BinaryHeap.h, instantiated at [SLIC::SizeLabelsPair] *)

Module Heap.

Record SizeLabelsPair := mkPair {
  size : pxind;
  cluster : pxind;
  component : pxind
}.

(** [SizeLabelsPair(void)]. *)
Definition pair_default : SizeLabelsPair := mkPair 0 (-1) (-1).

(** [SizeLabelsPair::operator<]: smaller cluster labels have priority,
    then larger sizes. *)
Definition pair_lt (l r : SizeLabelsPair) : bool :=
  if cluster l <? cluster r then false
  else if cluster r <? cluster l then true
  else size l <? size r.

Definition compare (x y : SizeLabelsPair) : Z :=
  if pair_lt x y then -1 else if pair_lt y x then 1 else 0.

Definition BINARYHEAP_INVALID_INDEX : pxind := -1.

#[projections(primitive)]
Record BinaryHeap := mkHeap {
  a : list SizeLabelsPair;
  indexToA : list pxind;
  aToIndex : list pxind;
  n : pxind;
  nIndex : pxind
}.

Definition BinaryHeap_ctor : BinaryHeap :=
  mkHeap (new_array 1 pair_default) (new_array 1 0) (new_array 1 0) 0 0.

Definition swap {A : Type} (l : list A) (i j : pxind) : option (list A) :=
  x ← rd l i; y ← rd l j; l ← wr l i y; wr l j x.

(** [std::copy(src + 0, src + cnt, dst + 0)]. *)
Definition copy_into {A : Type} (src : list A) (cnt : pxind) (dst : list A)
  : option (list A) :=
  if (0 <=? cnt) && (cnt <=? Z.of_nat (length src))
     && (cnt <=? Z.of_nat (length dst))
  then Some (take (Z.to_nat cnt) src ++ drop (Z.to_nat cnt) dst) else None.

Definition resize (grow : bool) (h : BinaryHeap) : option BinaryHeap :=
  a' ← copy_into (a h) (n h) (new_array (Z.max (2 * n h) 1) pair_default);
  aToIndex' ← copy_into (aToIndex h) (n h) (new_array (Z.max (2 * n h) 1) 0);
  let h := h {{ a := a'; aToIndex := aToIndex' }} in
  if grow
  then indexToA' ← copy_into (indexToA h) (nIndex h)
                     (new_array (Z.max (2 * nIndex h) 1) 0);
       Some (h {{ indexToA := indexToA' }})
  else Some h.

Definition parent (i : pxind) : pxind := Z.quot (i - 1) 2.
Definition left (i : pxind) : pxind := 2 * i + 1.
Definition right (i : pxind) : pxind := 2 * i + 2.

(** The three swaps that exchange heap positions [i] and [j]. *)
Definition swapPositions (h : BinaryHeap) (i j : pxind) : option BinaryHeap :=
  a' ← swap (a h) i j;
  hi ← rd (aToIndex h) i;
  hj ← rd (aToIndex h) j;
  indexToA' ← swap (indexToA h) hi hj;
  aToIndex' ← swap (aToIndex h) i j;
  Some (h {{ a := a'; indexToA := indexToA'; aToIndex := aToIndex' }}).

Fixpoint bubbleUpLoop (fuel : nat) (h : BinaryHeap) (i : pxind)
  : option BinaryHeap :=
  match fuel with
  | O => Some h
  | S fuel =>
      let p := parent i in
      if 0 <? i
      then ai ← rd (a h) i;
           ap ← rd (a h) p;
           if 0 <? compare ai ap
           then h ← swapPositions h i p; bubbleUpLoop fuel h p
           else Some h
      else Some h
  end.

(** [i] strictly decreases while it is positive. *)
Definition bubbleUp (h : BinaryHeap) (i : pxind) : option BinaryHeap :=
  bubbleUpLoop (S (Z.to_nat i)) h i.

Definition trickleChoice (h : BinaryHeap) (i : pxind) : option pxind :=
  let r := right i in
  let l := left i in
  ai ← rd (a h) i;
  rbig ← (if r <? n h then ar ← rd (a h) r; Some (0 <? compare ar ai)
          else Some false);
  if (rbig : bool)
  then al ← rd (a h) l; ar ← rd (a h) r;
       Some (if 0 <? compare al ar then l else r)
  else if l <? n h
       then al ← rd (a h) l; Some (if 0 <? compare al ai then l else -1)
       else Some (-1).

Fixpoint trickleDownLoop (fuel : nat) (h : BinaryHeap) (i : pxind)
  : option BinaryHeap :=
  match fuel with
  | O => Some h
  | S fuel =>
      j ← trickleChoice h i;
      if 0 <=? j
      then h ← swapPositions h i j; trickleDownLoop fuel h j
      else Some h
  end.

(** [i] strictly increases and stays below [n]. *)
Definition trickleDown (h : BinaryHeap) (i : pxind) : option BinaryHeap :=
  trickleDownLoop (S (Z.to_nat (n h))) h i.

(** [add(x)]: the heap afterwards and the handle returned. *)
Definition add (x : SizeLabelsPair) (h : BinaryHeap)
  : option (BinaryHeap * pxind) :=
  h ← (if Z.of_nat (length (a h)) <? n h + 1 then resize true h else Some h);
  a' ← wr (a h) (n h) x;
  let h := h {{ a := a'; n := n h + 1 }} in
  indexToA' ← wr (indexToA h) (nIndex h) (n h - 1);
  aToIndex' ← wr (aToIndex h) (n h - 1) (nIndex h);
  h ← bubbleUp (h {{ indexToA := indexToA'; aToIndex := aToIndex' }}) (n h - 1);
  Some (h {{ nIndex := nIndex h + 1 }}, nIndex h).

(** [remove()]: the element extracted and the heap afterwards. *)
Definition remove (h : BinaryHeap) : option (SizeLabelsPair * BinaryHeap) :=
  x ← rd (a h) 0;
  let h := h {{ n := n h - 1 }} in
  lastElement ← rd (a h) (n h);
  a' ← wr (a h) 0 lastElement;
  lastIndex ← rd (aToIndex h) (n h);
  indexToA' ← wr (indexToA h) lastIndex 0;
  firstIndex ← rd (aToIndex h) 0;
  indexToA' ← wr indexToA' firstIndex BINARYHEAP_INVALID_INDEX;
  aToIndex' ← wr (aToIndex h) 0 lastIndex;
  aToIndex' ← wr aToIndex' (n h) BINARYHEAP_INVALID_INDEX;
  h ← trickleDown (h {{ a := a'; indexToA := indexToA';
                        aToIndex := aToIndex' }}) 0;
  h ← (if 3 * n h <? Z.of_nat (length (a h)) then resize false h else Some h);
  Some (x, h).

(** The position in [a] of the element with handle [i]. *)
Definition heapIndex (h : BinaryHeap) (i : pxind) : option pxind :=
  p ← rd (indexToA h) i;
  if p =? BINARYHEAP_INVALID_INDEX then None else Some p.

(** [h[i].size += 1; h.increase(i)]. *)
Definition growAndIncrease (h : BinaryHeap) (i : pxind) : option BinaryHeap :=
  p ← heapIndex h i;
  x ← rd (a h) p;
  a' ← wr (a h) p (mkPair (size x + 1) (cluster x) (component x));
  let h := h {{ a := a' }} in
  p ← heapIndex h i;
  bubbleUp h p.

End Heap.

(** ** slic.cpp *)

Module Slic.
Import Img Qt Seg Alg.

Inductive Progress :=
| START
| RGB2LAB
| SEED_CENTERS
| K_MEANS_LABEL_PIXELS
| K_MEANS_UPDATE_CENTERS
| K_MEANS_ASSESS_ITERATION
| FIND_CONNECTED_COMPONENTS
| CLASSIFY_CONNECTED_COMPONENTS
| REASSIGN_CONNECTED_COMPONENTS
| SORT_PIXELS_AS_SUPERPIXELS
| CREATE_SUPERPIXEL_OBJECTS
| INITIALIZE_OUTPUT
| FILL_OUTPUT
| FINALIZE_OUTPUT
| END.

Definition Progress_eqb (p q : Progress) : bool :=
  match p, q with
  | START, START | RGB2LAB, RGB2LAB | SEED_CENTERS, SEED_CENTERS
  | K_MEANS_LABEL_PIXELS, K_MEANS_LABEL_PIXELS
  | K_MEANS_UPDATE_CENTERS, K_MEANS_UPDATE_CENTERS
  | K_MEANS_ASSESS_ITERATION, K_MEANS_ASSESS_ITERATION
  | FIND_CONNECTED_COMPONENTS, FIND_CONNECTED_COMPONENTS
  | CLASSIFY_CONNECTED_COMPONENTS, CLASSIFY_CONNECTED_COMPONENTS
  | REASSIGN_CONNECTED_COMPONENTS, REASSIGN_CONNECTED_COMPONENTS
  | SORT_PIXELS_AS_SUPERPIXELS, SORT_PIXELS_AS_SUPERPIXELS
  | CREATE_SUPERPIXEL_OBJECTS, CREATE_SUPERPIXEL_OBJECTS
  | INITIALIZE_OUTPUT, INITIALIZE_OUTPUT | FILL_OUTPUT, FILL_OUTPUT
  | FINALIZE_OUTPUT, FINALIZE_OUTPUT | END, END => true
  | _, _ => false
  end.

Definition SLIC_DEFAULT_K : pxind := 500.
Definition SLIC_DEFAULT_M : float := 10.
Definition SLIC_MIN_SEARCH_WINDOW_SIZE : pxind := 2.
Definition SLIC_ERROR_THRESHOLD : float := 0.05.
Definition SLIC_MAX_KMEANS_ITERATIONS : pxind := 15.
Definition SLIC_PIXEL_GRANULARITY : pxind := 1000.
Definition SLIC_CLUSTER_GRANULARITY : pxind := 10.
Definition SLIC_BORDER_COLOR : Z := qRgb 0 0 0.
Definition SLIC_DEFAULT_OUTPUT_IMAGE_BACKGROUND : Z := qRgb 255 255 0.

(** [Superpixellation::Center<QVector2D>]. *)
Definition Center2 : Type := Center QVector2D.
Definition blankCenter : Center2 := mkCenter V2zero V3zero.

(** The data members that [SLIC] adds to [Algorithm]. *)
#[projections(primitive)]
Record SlicState := mkSlicState {
  kParam : pxind;
  m : float;
  mSquared : float;
  S : pxind;
  sSquared : float;
  searchHalfWidth : pxind;
  searchHalfHeight : pxind;
  lStarOrigin : option (list float);
  aStarOrigin : option (list float);
  bStarOrigin : option (list float);
  previousCenters : option (list Center2);
  currentCenters : option (list Center2);
  clusterSearchWindow : option (list pxind);
  previousResidualError : float;
  residualError : float;
  distancesToCenters : option (list float);
  clusterLabels : option (list pxind);
  nPixelsPerCluster : option (list pxind);
  connectedComponentLabels : option (list pxind);
  nConnectedComponents : pxind;
  connectedComponentHeap : option Heap.BinaryHeap;
  connectedComponentClassifications : option (list bool);
  visited : option (list bool);
  unvisitedPixels : option (list pxind);
  lastVisitedPixel : pxind;
  visitedPx : option (list pxind);
  pixelSortingOffsets : option (list pxind);
  sortedPixels : option (list pxind);
  superpixels : option (list (option Superpixel));
  progress : Progress;
  k : pxind;
  iterationCount : pxind
}.

#[projections(primitive)]
Record SLIC := mkSLIC {
  alg : Algorithm;
  st : SlicState
}.

(** [SLIC::SLIC()]. *)
Definition SLIC_ctor : SLIC :=
  {| alg := Algorithm_ctor;
     st := {| kParam := SLIC_DEFAULT_K; m := SLIC_DEFAULT_M; mSquared := 0;
              S := 0; sSquared := 0; searchHalfWidth := 0;
              searchHalfHeight := 0; lStarOrigin := None; aStarOrigin := None;
              bStarOrigin := None; previousCenters := None;
              currentCenters := None; clusterSearchWindow := None;
              previousResidualError := 0; residualError := 0;
              distancesToCenters := None; clusterLabels := None;
              nPixelsPerCluster := None; connectedComponentLabels := None;
              nConnectedComponents := 0; connectedComponentHeap := None;
              connectedComponentClassifications := None; visited := None;
              unvisitedPixels := None; lastVisitedPixel := 0;
              visitedPx := None; pixelSortingOffsets := None;
              sortedPixels := None; superpixels := None; progress := START;
              k := 0; iterationCount := 0 |} |}.

(** [SLIC::finalizeOutput] forwards to the base class. *)
Definition finalizeOutput (s : SLIC) : SLIC :=
  s {{ alg := Alg.finalizeOutput (alg s) }}.

(** [SLIC::cleanup]: every buffer is released and its pointer nulled, then
    [Algorithm::cleanup] runs.  The log names the objects that outlive a
    run when ownership is not transferred. *)
Definition cleanup (s : SLIC) : SLIC * list Freed :=
  let s := finalizeOutput s in
  let freedOwn :=
    match clusterLabels (st s) with Some l => [FreeLabels l] | None => [] end
    ++ match superpixels (st s) with
       | Some a => [FreeSuperpixels a]
       | None => []
       end in
  let st' := (st s) {{ previousCenters := None; currentCenters := None;
                       clusterSearchWindow := None;
                       distancesToCenters := None; clusterLabels := None;
                       nPixelsPerCluster := None;
                       connectedComponentLabels := None;
                       connectedComponentHeap := None;
                       connectedComponentClassifications := None;
                       visited := None; unvisitedPixels := None;
                       visitedPx := None; pixelSortingOffsets := None;
                       sortedPixels := None; superpixels := None }} in
  let '(a, freedBase) := Alg.cleanup (alg s) in
  ({| alg := a; st := st' |}, freedOwn ++ freedBase).

#[global] Instance SLIC_AlgorithmBase : AlgorithmBase SLIC := {
  base := alg;
  with_base := fun a s => s {{ alg := a }};
  v_cleanup := cleanup
}.

(** [SLIC::initialize(ImageData *&image)]. *)
Definition initialize (s : SLIC) (image : option ImageData)
  : option (bool * SLIC * list Freed) :=
  let '(ok, s, freed) := Alg.initialize s image in
  let s := s {{ alg := (alg s) {{ failed := negb ok }} }} in
  if failed (alg s) then Some (false, s, freed)
  else
    i ← input (alg s);
    let n := pixelCount i in
    let kP := kParam (st s) in
    let S' := Flt.to_pxind
                (Flt.c_round (PrimFloat.sqrt (Flt.of_pxind n / Flt.of_pxind kP))) in
    let st' := (st s) {{
      mSquared := (m (st s) * m (st s))%float;
      S := S';
      sSquared := Flt.of_pxind (S' * S');
      searchHalfWidth := 0;
      searchHalfHeight := 0;
      previousCenters := Some (new_array kP blankCenter);
      currentCenters := Some (new_array kP blankCenter);
      clusterSearchWindow := None;
      previousResidualError := 0%float;
      residualError := 0%float;
      distancesToCenters := Some (new_array n 0%float);
      clusterLabels := Some (new_array n 0);
      nPixelsPerCluster := Some (new_array kP 0);
      connectedComponentLabels := Some (new_array n 0);
      nConnectedComponents := 0;
      connectedComponentHeap := Some Heap.BinaryHeap_ctor;
      visited := Some (new_array n false);
      unvisitedPixels := Some [];
      lastVisitedPixel := 0;
      visitedPx := Some (new_array n 0);
      pixelSortingOffsets := Some (new_array kP 0);
      sortedPixels := Some (new_array n 0);
      progress := START;
      k := 0;
      iterationCount := 0 }} in
    Some (true, s {{ st := st' }}, freed).

(** [input->pixelCount()]. *)
Definition inputPixelCount (input : option ImageData) : option pxind :=
  pixelCount <$> input.

(** [SLIC::getLoopLimit]. *)
Definition getLoopLimit (input : option ImageData) (s : SlicState)
  : option pxind :=
  match progress s with
  | START | RGB2LAB => Some 0
  | SEED_CENTERS | K_MEANS_LABEL_PIXELS => Some (kParam s)
  | K_MEANS_UPDATE_CENTERS => inputPixelCount input
  | K_MEANS_ASSESS_ITERATION => Some (kParam s)
  | FIND_CONNECTED_COMPONENTS => inputPixelCount input
  | CLASSIFY_CONNECTED_COMPONENTS => Some (kParam s)
  | REASSIGN_CONNECTED_COMPONENTS => inputPixelCount input
  | SORT_PIXELS_AS_SUPERPIXELS => Some 0
  | CREATE_SUPERPIXEL_OBJECTS => Some (kParam s)
  | INITIALIZE_OUTPUT => Some 0
  | FILL_OUTPUT => Some (kParam s)
  | FINALIZE_OUTPUT | END => Some 0
  end.

(** The quantity compared with [SLIC_ERROR_THRESHOLD]. *)
Definition errorChange (s : SlicState) : float :=
  PrimFloat.abs
    ((PrimFloat.sqrt (residualError s)
      - PrimFloat.sqrt (previousResidualError s))
     / PrimFloat.sqrt (previousResidualError s))%float.

(** The test that ends K-means iteration. *)
Definition kmeansStops (s : SlicState) : bool :=
  (iterationCount s =? SLIC_MAX_KMEANS_ITERATIONS - 1)
  || ((1 <? iterationCount s)
      && PrimFloat.leb (errorChange s) SLIC_ERROR_THRESHOLD).

(** [std::copy(currentCenters, currentCenters + kParam, previousCenters)]. *)
Definition copyCenters (s : SlicState) : option (list Center2) :=
  cur ← currentCenters s;
  prev ← previousCenters s;
  Heap.copy_into cur (kParam s) prev.

(** The stage switch of [updateKAndProgress], entered with [k] reset to 0. *)
Definition nextStage (input : option ImageData) (enabled : bool)
  (s : SlicState) : option SlicState :=
  match progress s with
  | START => Some (s {{ progress := RGB2LAB }})
  | RGB2LAB => Some (s {{ progress := SEED_CENTERS }})
  | SEED_CENTERS => Some (s {{ progress := K_MEANS_LABEL_PIXELS }})
  | K_MEANS_LABEL_PIXELS => Some (s {{ progress := K_MEANS_UPDATE_CENTERS }})
  | K_MEANS_UPDATE_CENTERS =>
      Some (s {{ progress := K_MEANS_ASSESS_ITERATION }})
  | K_MEANS_ASSESS_ITERATION =>
      if kmeansStops s
      then Some (s {{ progress := FIND_CONNECTED_COMPONENTS }})
      else prev ← copyCenters s;
           Some (s {{ progress := K_MEANS_LABEL_PIXELS;
                      iterationCount := iterationCount s + 1;
                      previousCenters := Some prev;
                      previousResidualError := residualError s;
                      residualError := 0%float }})
  | FIND_CONNECTED_COMPONENTS =>
      Some (s {{ progress := CLASSIFY_CONNECTED_COMPONENTS }})
  | CLASSIFY_CONNECTED_COMPONENTS =>
      Some (s {{ progress := REASSIGN_CONNECTED_COMPONENTS }})
  | REASSIGN_CONNECTED_COMPONENTS =>
      nPx ← inputPixelCount input;
      Some (s {{ k := nPx - 1; progress := SORT_PIXELS_AS_SUPERPIXELS }})
  | SORT_PIXELS_AS_SUPERPIXELS =>
      Some (s {{ progress := CREATE_SUPERPIXEL_OBJECTS }})
  | CREATE_SUPERPIXEL_OBJECTS =>
      Some (s {{ progress := if enabled then INITIALIZE_OUTPUT else END }})
  | INITIALIZE_OUTPUT => Some (s {{ progress := FILL_OUTPUT }})
  | FILL_OUTPUT => Some (s {{ progress := FINALIZE_OUTPUT }})
  | FINALIZE_OUTPUT => Some (s {{ progress := END }})
  | END => Some s
  end.

(** The increment size and direction of each stage. *)
Definition stageIncrement (p : Progress) : pxind :=
  match p with
  | START | RGB2LAB => 0
  | SEED_CENTERS | K_MEANS_LABEL_PIXELS => SLIC_CLUSTER_GRANULARITY
  | K_MEANS_UPDATE_CENTERS => SLIC_PIXEL_GRANULARITY
  | K_MEANS_ASSESS_ITERATION => SLIC_CLUSTER_GRANULARITY
  | FIND_CONNECTED_COMPONENTS => SLIC_PIXEL_GRANULARITY
  | CLASSIFY_CONNECTED_COMPONENTS => SLIC_CLUSTER_GRANULARITY
  | REASSIGN_CONNECTED_COMPONENTS => SLIC_PIXEL_GRANULARITY
  | SORT_PIXELS_AS_SUPERPIXELS => - SLIC_PIXEL_GRANULARITY
  | CREATE_SUPERPIXEL_OBJECTS => SLIC_CLUSTER_GRANULARITY
  | INITIALIZE_OUTPUT => 0
  | FILL_OUTPUT => SLIC_CLUSTER_GRANULARITY
  | FINALIZE_OUTPUT | END => 0
  end.

Definition isSort (p : Progress) : bool :=
  Progress_eqb p SORT_PIXELS_AS_SUPERPIXELS.

(** [SLIC::updateKAndProgress], given the members [input] and
    [outputIsEnabled] of the base class: the end of the increment and the
    state. *)
Definition updateKAndProgress (input : option ImageData) (enabled : bool)
  (s : SlicState) : option (pxind * SlicState) :=
  loopLimit ← getLoopLimit input s;
  s ← (if ((k s =? loopLimit) && negb (isSort (progress s)))
          || (isSort (progress s) && (k s <? loopLimit))
       then nextStage input enabled (s {{ k := 0 }})
       else Some s);
  loopLimit ← getLoopLimit input s;
  let incEnd := k s + stageIncrement (progress s) in
  let incEnd :=
    if (loopLimit <? incEnd) && negb (isSort (progress s)) then loopLimit
    else if isSort (progress s) && (incEnd <? loopLimit) then loopLimit
    else incEnd in
  Some (incEnd, s).

(** A [for (; k < end; k += 1)] loop over the member [k]: the body receives
    the current value of [k]. *)
Definition stageLoop (endK : pxind)
  (body : pxind -> SlicState -> option SlicState) (s : SlicState)
  : option SlicState :=
  s' ← for_upto (k s) endK body s;
  Some (s' {{ k := Z.max (k s) endK }}).

(** *** Seeding *)

Record SeedGrid := mkSeedGrid {
  widthInS : pxind;
  widthConversion : float;
  sDiv2Width : pxind;
  heightInS : pxind;
  heightConversion : float;
  sDiv2Height : pxind;
  kConversion : float
}.

Definition seedGrid (img : ImageData) (s : SlicState) : SeedGrid :=
  let S_ := Flt.of_pxind (S s) in
  let widthInS := Flt.to_pxind (Flt.c_ceil (Flt.of_pxind (width img) / S_)) in
  let width_ := widthInS * S s in
  let widthConversion :=
    (S_ * Flt.of_pxind (width img) / Flt.of_pxind width_)%float in
  let heightInS := Flt.to_pxind (Flt.c_ceil (Flt.of_pxind (height img) / S_)) in
  let height_ := heightInS * S s in
  let heightConversion :=
    (S_ * Flt.of_pxind (height img) / Flt.of_pxind height_)%float in
  {| widthInS := widthInS;
     widthConversion := widthConversion;
     sDiv2Width := Z.quot (Flt.to_pxind widthConversion) 2;
     heightInS := heightInS;
     heightConversion := heightConversion;
     sDiv2Height := Z.quot (Flt.to_pxind heightConversion) 2;
     kConversion :=
       (Flt.of_pxind (widthInS * heightInS) / Flt.of_pxind (kParam s))%float |}.

(** The block guarded by [clusterSearchWindow == 0]. *)
Definition allocateSearchWindow (g : SeedGrid) (s : SlicState) : SlicState :=
  match clusterSearchWindow s with
  | Some _ => s
  | None =>
      let half (conversion : float) : pxind :=
        let v := Flt.to_pxind
                   (Flt.c_ceil ((Flt.c_ceil (kConversion g) - 0.5) * conversion))
                 + 4 in
        if v <? SLIC_MIN_SEARCH_WINDOW_SIZE * S s
        then SLIC_MIN_SEARCH_WINDOW_SIZE * S s else v in
      let shw := half (widthConversion g) in
      let shh := half (heightConversion g) in
      s {{ searchHalfWidth := shw; searchHalfHeight := shh;
           clusterSearchWindow :=
             Some (new_array ((2 * shw + 1) * (2 * shh + 1)) 0) }}
  end.

(** The neighbour of [sampleK] (or [sampleK] itself) with the smallest
    Sobel gradient magnitude. *)
Definition lowestGradient (img : ImageData) (sampleK : pxind) : option pxind :=
  g ← sobelLabAt img sampleK;
  nbs ← eightNeighbours img sampleK;
  r ← foldM (fun nb (acc : float * pxind) =>
               g ← sobelLabAt img nb;
               Some (if PrimFloat.ltb (V2lengthSquared g) (fst acc)
                     then (V2lengthSquared g, nb) else acc))
            nbs (V2lengthSquared g, sampleK);
  Some (snd r).

Definition seedBody (img : ImageData) (g : SeedGrid) (i : pxind)
  (s : SlicState) : option SlicState :=
  let adjustedK := Flt.to_pxind (Flt.c_round (Flt.of_pxind i * kConversion g)) in
  if widthInS g =? 0 then None
  else
    let sampleX :=
      Flt.to_pxind (Flt.c_floor (Flt.of_pxind (Z.rem adjustedK (widthInS g))
                                 * widthConversion g)
                    + Flt.of_pxind (sDiv2Width g))%float in
    let sampleY :=
      Flt.to_pxind (Flt.c_floor (Flt.of_pxind (Z.quot adjustedK (widthInS g))
                                 * heightConversion g)
                    + Flt.of_pxind (sDiv2Height g))%float in
    sampleK ← xyToK img sampleX sampleY;
    sampleK ← lowestGradient img sampleK;
    '(x, y) ← kToXY img sampleK;
    l ← rdp (lStarOrigin s) sampleK;
    a ← rdp (aStarOrigin s) sampleK;
    b ← rdp (bStarOrigin s) sampleK;
    centers ← wrp (currentCenters s) i
      (mkCenter (V2 (Flt.of_pxind x) (Flt.of_pxind y)) (V3 l a b));
    Some (s {{ currentCenters := Some centers }}).

Definition initializeCenters (img : ImageData) (endCluster : pxind)
  (s : SlicState) : option SlicState :=
  let g := seedGrid img s in
  stageLoop endCluster (seedBody img g) (allocateSearchWindow g s).

(** *** K-means *)

Definition distanceToCenter (img : ImageData) (s : SlicState) (p : pxind)
  (c : Center2) : option float :=
  '(x, y) ← kToXY img p;
  l ← rdp (lStarOrigin s) p;
  a ← rdp (aStarOrigin s) p;
  b ← rdp (bStarOrigin s) p;
  let dsSq :=
    V2lengthSquared (V2sub (position c) (V2 (Flt.of_pxind x) (Flt.of_pxind y))) in
  let dcSq := V3lengthSquared (V3sub (color c) (V3 l a b)) in
  Some (PrimFloat.sqrt (dcSq + dsSq * mSquared s / sSquared s)%float).

Definition labelPixel (img : ImageData) (c : Center2) (i : pxind)
  (ki : pxind) (s : SlicState) : option SlicState :=
  distance ← distanceToCenter img s ki c;
  old ← rdp (distancesToCenters s) ki;
  if PrimFloat.ltb distance old
  then distances ← wrp (distancesToCenters s) ki distance;
       labels ← wrp (clusterLabels s) ki i;
       Some (s {{ distancesToCenters := Some distances;
                  clusterLabels := Some labels }})
  else Some s.

Definition labelBody (img : ImageData) (i : pxind) (s : SlicState)
  : option SlicState :=
  c ← rdp (currentCenters s) i;
  buffer ← clusterSearchWindow s;
  window ← neighbours img (Flt.to_pxind (Flt.c_floor (v2x (position c))))
              (Flt.to_pxind (Flt.c_floor (v2y (position c))))
              (searchHalfWidth s) (searchHalfHeight s);
  if (length buffer <? length window)%nat then None
  else foldM (labelPixel img c i) window s.

Definition kmeansLabelPixels (img : ImageData) (endCluster : pxind)
  (s : SlicState) : option SlicState :=
  stageLoop endCluster (labelBody img) s.

Definition updateBody (img : ImageData) (i : pxind) (s : SlicState)
  : option SlicState :=
  label ← rdp (clusterLabels s) i;
  if label =? SUPERPIXELLATION_NONE_LABEL then None
  else
    '(x, y) ← kToXY img i;
    l ← rdp (lStarOrigin s) i;
    a ← rdp (aStarOrigin s) i;
    b ← rdp (bStarOrigin s) i;
    c ← rdp (currentCenters s) label;
    centers ← wrp (currentCenters s) label
      (mkCenter (V2add (position c) (V2 (Flt.of_pxind x) (Flt.of_pxind y)))
                (V3add (color c) (V3 l a b)));
    count ← rdp (nPixelsPerCluster s) label;
    counts ← wrp (nPixelsPerCluster s) label (count + 1);
    Some (s {{ currentCenters := Some centers;
               nPixelsPerCluster := Some counts }}).

Definition kmeansUpdateCenters (img : ImageData) (endPx : pxind)
  (s : SlicState) : option SlicState :=
  stageLoop endPx (updateBody img) s.

(** The body of [kmeansResidualError]: the center is normalized; except
    in the first iteration its squared displacement is added to
    [residualError]. *)
Definition residualBody (firstIteration : bool) (i : pxind) (s : SlicState)
  : option SlicState :=
  c ← rdp (currentCenters s) i;
  count ← rdp (nPixelsPerCluster s) i;
  let c' := mkCenter (V2div (position c) (Flt.of_pxind count))
                     (V3div (color c) (Flt.of_pxind count)) in
  centers ← wrp (currentCenters s) i c';
  if firstIteration
  then Some (s {{ currentCenters := Some centers }})
  else
    prev ← rdp (previousCenters s) i;
    Some (s {{ currentCenters := Some centers;
               residualError :=
                 (residualError s
                  + V2lengthSquared (V2sub (position c') (position prev)))%float }}).

Definition kmeansResidualError (endCluster : pxind) (firstIteration : bool)
  (s : SlicState) : option SlicState :=
  stageLoop endCluster (residualBody firstIteration) s.

(** *** Connected components *)

(** [do { px = first(); removeFirst(); } while (visited[px] && !isEmpty())],
    guarded by [!isEmpty()]: the pixel reached and the rest of the queue. *)
Fixpoint popUnvisited (visited : list bool) (queue : list pxind) (p : pxind)
  : option (pxind * list pxind) :=
  match queue with
  | [] => Some (p, [])
  | q :: rest =>
      v ← rd visited q;
      if (v : bool) && negb (match rest with [] => true | _ => false end)
      then popUnvisited visited rest q
      else Some (q, rest)
  end.

(** [for (; lastVisitedPixel < n; lastVisitedPixel += 1)] with its [break]:
    the cursor afterwards and the pixel found, if any. *)
Fixpoint scanUnvisited (fuel : nat) (visited : list bool) (last n : pxind)
  : option (pxind * option pxind) :=
  match fuel with
  | O => Some (last, None)
  | Datatypes.S fuel =>
      if last <? n
      then v ← rd visited last;
           if (v : bool) then scanUnvisited fuel visited (last + 1) n
           else Some (last, Some last)
      else Some (last, None)
  end.

(** The locals of [labelConnectedComponents] that survive an iteration. *)
Record LabelLocals := mkLabelLocals { l_px : pxind; l_component : pxind }.

Definition visitNeighbour (clusterLabel : pxind) (nb : pxind)
  (acc : pxind * SlicState) : option (pxind * SlicState) :=
  let '(componentLabel, s) := acc in
  l ← rdp (clusterLabels s) nb;
  if clusterLabel =? l
  then v ← rdp (visited s) nb;
       if (v : bool)
       then c ← rdp (connectedComponentLabels s) nb; Some (c, s)
       else q ← unvisitedPixels s;
            Some (componentLabel, s {{ unvisitedPixels := Some (q ++ [nb]) }})
  else Some acc.

Definition componentBody (img : ImageData) (i : pxind)
  (acc : LabelLocals * SlicState) : option (LabelLocals * SlicState) :=
  let '(loc, s) := acc in
  vis ← visited s;
  queue ← unvisitedPixels s;
  '(p, queue) ← popUnvisited vis queue (l_px loc);
  let s := s {{ unvisitedPixels := Some queue }} in
  fresh ← (if p =? SUPERPIXELLATION_NONE_LABEL then Some true else rd vis p);
  '(p, componentLabel, s) ←
    (if (fresh : bool)
     then
       let componentLabel := nConnectedComponents s in
       '(last, found) ← scanUnvisited (Z.to_nat (pixelCount img - lastVisitedPixel s))
                          vis (lastVisitedPixel s) (pixelCount img);
       let p := match found with Some p' => p' | None => p end in
       l ← rdp (clusterLabels s) p;
       heap ← connectedComponentHeap s;
       '(heap, _) ← Heap.add (Heap.mkPair 0 l componentLabel) heap;
       Some (p, componentLabel,
             s {{ nConnectedComponents := nConnectedComponents s + 1;
                  lastVisitedPixel := last;
                  connectedComponentHeap := Some heap }})
     else Some (p, l_component loc, s));
  clusterLabel ← rdp (clusterLabels s) p;
  nbs ← fourNeighbours img p;
  '(componentLabel, s) ← foldM (visitNeighbour clusterLabel) nbs (componentLabel, s);
  vis ← wrp (visited s) p true;
  if componentLabel =? SUPERPIXELLATION_NONE_LABEL then None
  else
    labels ← wrp (connectedComponentLabels s) p componentLabel;
    heap ← connectedComponentHeap s;
    heap ← Heap.growAndIncrease heap componentLabel;
    Some (mkLabelLocals p componentLabel,
          s {{ visited := Some vis; connectedComponentLabels := Some labels;
               connectedComponentHeap := Some heap }}).

Definition labelConnectedComponents (img : ImageData) (endPx : pxind)
  (s : SlicState) : option SlicState :=
  '(_, s') ← for_upto (k s) endPx (componentBody img)
               (mkLabelLocals SUPERPIXELLATION_NONE_LABEL
                              SUPERPIXELLATION_NONE_LABEL, s);
  Some (s' {{ k := Z.max (k s) endPx }}).

(** [while (item.cluster < k && heap->size() > 0) item = heap->remove();] *)
Fixpoint removeUpTo (fuel : nat) (i : pxind) (item : Heap.SizeLabelsPair)
  (heap : Heap.BinaryHeap) : option (Heap.SizeLabelsPair * Heap.BinaryHeap) :=
  match fuel with
  | O => Some (item, heap)
  | Datatypes.S fuel =>
      if (Heap.cluster item <? i) && (0 <? Heap.n heap)
      then '(item, heap) ← Heap.remove heap; removeUpTo fuel i item heap
      else Some (item, heap)
  end.

(** [classifyConnectedComponents], compiled with
    [SLIC_SELECT_LARGEST_COMPONENTS]. *)
Definition classifyBody (i : pxind) (acc : Heap.SizeLabelsPair * SlicState)
  : option (Heap.SizeLabelsPair * SlicState) :=
  let '(item, s) := acc in
  heap ← connectedComponentHeap s;
  '(item, heap) ← removeUpTo (Z.to_nat (Heap.n heap)) i item heap;
  let s := s {{ connectedComponentHeap := Some heap }} in
  if Heap.cluster item =? i
  then flags ← wrp (connectedComponentClassifications s)
                 (Heap.component item) true;
       Some (item, s {{ connectedComponentClassifications := Some flags }})
  else Some (item, s).

Definition classifyConnectedComponents (endCluster : pxind) (s : SlicState)
  : option SlicState :=
  '(_, s') ← for_upto (k s) endCluster classifyBody (Heap.pair_default, s);
  Some (s' {{ k := Z.max (k s) endCluster }}).

(** Whether the connected component of pixel [p] is kept. *)
Definition isKept (s : SlicState) (p : pxind) : option bool :=
  c ← rdp (connectedComponentLabels s) p;
  rdp (connectedComponentClassifications s) c.

(** The scan of the neighbours of the pixel being visited, with its
    [break]: [true] when pixel [i] has been reassigned. *)
Fixpoint searchNeighbours (i : pxind) (nbs : list pxind) (s : SlicState)
  : option (bool * SlicState) :=
  match nbs with
  | [] => Some (false, s)
  | nb :: rest =>
      v ← rdp (visited s) nb;
      if (v : bool) then searchNeighbours i rest s
      else
        kept ← isKept s nb;
        if (kept : bool)
        then
          old ← rdp (clusterLabels s) i;
          cOld ← rdp (nPixelsPerCluster s) old;
          counts ← wrp (nPixelsPerCluster s) old (cOld - 1);
          new ← rdp (clusterLabels s) nb;
          labels ← wrp (clusterLabels s) i new;
          cNew ← rd counts new;
          counts ← wr counts new (cNew + 1);
          Some (true, s {{ nPixelsPerCluster := Some counts;
                           clusterLabels := Some labels }})
        else q ← unvisitedPixels s;
             searchNeighbours i rest (s {{ unvisitedPixels := Some (q ++ [nb]) }})
  end.

(** The locals of [reassignConnectedComponents]. *)
Record ReassignLocals := mkReassignLocals { r_px : pxind; r_nVisited : pxind }.

(** [while (!done) { ... }]: every round writes one more entry of
    [visitedPx], so the loop ends or leaves the array within
    [pixelCount + 1] rounds. *)
Fixpoint searchLoop (fuel : nat) (img : ImageData) (i : pxind)
  (loc : ReassignLocals) (s : SlicState)
  : option (ReassignLocals * SlicState) :=
  match fuel with
  | O => None
  | Datatypes.S fuel =>
      vis ← visited s;
      queue ← unvisitedPixels s;
      '(p, queue) ← popUnvisited vis queue (r_px loc);
      let s := s {{ unvisitedPixels := Some queue }} in
      nbs ← fourNeighbours img p;
      '(done, s) ← searchNeighbours i nbs s;
      vis ← wrp (visited s) p true;
      let nVisited := r_nVisited loc + 1 in
      vpx ← wrp (visitedPx s) nVisited p;
      let s := s {{ visited := Some vis; visitedPx := Some vpx }} in
      let loc := mkReassignLocals p nVisited in
      if (done : bool) then Some (loc, s) else searchLoop fuel img i loc s
  end.

(** [for (; nVisited >= 0; nVisited -= 1) visited[visitedPx[nVisited]] = false;] *)
Fixpoint unvisit (fuel : nat) (nVisited : pxind) (s : SlicState)
  : option (pxind * SlicState) :=
  match fuel with
  | O => Some (nVisited, s)
  | Datatypes.S fuel =>
      if 0 <=? nVisited
      then p ← rdp (visitedPx s) nVisited;
           vis ← wrp (visited s) p false;
           unvisit fuel (nVisited - 1) (s {{ visited := Some vis }})
      else Some (nVisited, s)
  end.

Definition reassignBody (img : ImageData) (i : pxind)
  (acc : ReassignLocals * SlicState) : option (ReassignLocals * SlicState) :=
  let '(loc, s) := acc in
  kept ← isKept s i;
  if (kept : bool) then Some acc
  else
    _ ← unvisitedPixels s;
    let s := s {{ unvisitedPixels := Some [i] }} in
    '(loc, s) ← searchLoop (Datatypes.S (Z.to_nat (pixelCount img))) img i loc s;
    '(nVisited, s) ← unvisit (Z.to_nat (r_nVisited loc + 1)) (r_nVisited loc) s;
    Some (mkReassignLocals (r_px loc) nVisited, s).

Definition reassignConnectedComponents (img : ImageData) (endPx : pxind)
  (s : SlicState) : option SlicState :=
  '(_, s') ← for_upto (k s) endPx (reassignBody img)
               (mkReassignLocals SUPERPIXELLATION_NONE_LABEL
                                 SUPERPIXELLATION_NONE_LABEL, s);
  Some (s' {{ k := Z.max (k s) endPx }}).

(** *** Finalization *)

(** The prefix sums computed when the sorting stage starts:
    [offsets[i] = n[0] + ... + n[i]]. *)
Definition offsetsBody (i : pxind) (acc : list pxind * list pxind)
  : option (list pxind * list pxind) :=
  let '(counts, offsets) := acc in
  c ← rd counts i;
  prev ← rd offsets (i - 1);
  offsets ← wr offsets i (c + prev);
  Some (counts, offsets).

Definition prefixOffsets (s : SlicState) : option SlicState :=
  counts ← nPixelsPerCluster s;
  offsets ← pixelSortingOffsets s;
  c0 ← rd counts 0;
  offsets ← wr offsets 0 c0;
  '(_, offsets) ← for_upto 1 (kParam s) offsetsBody (counts, offsets);
  Some (s {{ pixelSortingOffsets := Some offsets }}).

Definition sortBody (i : pxind) (s : SlicState) : option SlicState :=
  label ← rdp (clusterLabels s) i;
  if label =? SUPERPIXELLATION_NONE_LABEL then None
  else
    o ← rdp (pixelSortingOffsets s) label;
    offsets ← wrp (pixelSortingOffsets s) label (o - 1);
    sorted ← wrp (sortedPixels s) (o - 1) i;
    Some (s {{ pixelSortingOffsets := Some offsets;
               sortedPixels := Some sorted }}).

(** [for (; k >= endPx; k -= 1)]. *)
Definition sortPixelsIntoSuperpixels (endPx : pxind) (s : SlicState)
  : option SlicState :=
  s' ← for_down (Z.to_nat (k s - endPx + 1)) (k s) sortBody s;
  Some (s' {{ k := Z.min (k s) (endPx - 1) }}).

(** [std::copy(sortedPixels + startPx, sortedPixels + endPx, superpixelPx)]. *)
Definition copyRange (a : list pxind) (startPx nPx : pxind)
  : option (list pxind) :=
  if (0 <=? startPx) && (0 <=? nPx) && (startPx + nPx <=? Z.of_nat (length a))
  then Some (slice a startPx nPx) else None.

Definition createBody (img : ImageData) (i : pxind) (s : SlicState)
  : option SlicState :=
  nPx ← rdp (nPixelsPerCluster s) i;
  startPx ← rdp (pixelSortingOffsets s) i;
  sorted ← sortedPixels s;
  superpixelPx ← copyRange sorted startPx nPx;
  labels ← clusterLabels s;
  sp ← Superpixel_ctor i superpixelPx nPx labels img;
  sps ← wrp (superpixels s) i (Some sp);
  Some (s {{ superpixels := Some sps }}).

Definition createSuperpixels (img : ImageData) (endCluster : pxind)
  (s : SlicState) : option SlicState :=
  stageLoop endCluster (createBody img) s.

(** *** Output image *)

Definition paint (img : ImageData) (c : Z) (p : pxind) (o : QImage)
  : option QImage :=
  '(x, y) ← kToXY img p; Some (setPixel x y c o).

Definition fillBody (img : ImageData) (sps : option (list (option Superpixel)))
  (i : pxind) (o : QImage) : option QImage :=
  sp ← (e ← rdp sps i; e);
  o ← foldM (paint img (centerRGB sp)) (interiorPixels sp) o;
  foldM (paint img SLIC_BORDER_COLOR) (boundaryPixels sp) o.

(** [fillOutputImage], compiled without the debugging visualizations. *)
Definition fillOutputImage (endCluster : pxind) (s : SLIC) : option SLIC :=
  img ← input (alg s);
  o ← outputImage (alg s);
  o ← for_upto (k (st s)) endCluster (fillBody img (superpixels (st s))) o;
  Some {| alg := (alg s) {{ outputImage := Some o }};
          st := (st s) {{ k := Z.max (k (st s)) endCluster }} |}.

(** [SLIC::initializeOutput]. *)
Definition initializeOutput (s : SLIC) : option (bool * SLIC) :=
  '(ok, a) ← Alg.initializeOutput SLIC_DEFAULT_OUTPUT_IMAGE_BACKGROUND false
               (alg s);
  Some (ok, s {{ alg := a }}).

(** *** increment *)

(** The status texts, with the numbers substituted into them. *)
Inductive Status :=
| CannotIncrementFailed
| CannotIncrementFinished
| ConvertedToLab
| InitializingCenters (k kParam : pxind)
| LabellingPixels (iteration k kParam : pxind)
| RecomputingCenters (iteration k nPx : pxind)
| CalculatingResidual (iteration k kParam : pxind)
| NormalizingCenters (iteration k kParam : pxind)
| FindingComponents (k nPx : pxind)
| ClassifyingComponents (k kParam : pxind)
| ReassigningComponents (k nPx : pxind)
| SortingPixels (k nPx : pxind)
| CreatingSuperpixels (k kParam : pxind)
| OutputInitializationFailed
| OutputInitialized
| FillingOutput (k kParam : pxind)
| OutputFinalized
| Finished.

(** The stages that only touch the members of [SLIC]: the [switch] of
    [increment] for them, run on the input image. *)
Definition ownStage (input : option ImageData) (incEnd : pxind)
  (s : SlicState) : option (Status * SlicState) :=
  match progress s with
  | RGB2LAB =>
      img ← input;
      Some (ConvertedToLab,
            s {{ lStarOrigin := Some (lStar img);
                 aStarOrigin := Some (aStar img);
                 bStarOrigin := Some (bStar img) }})
  | SEED_CENTERS =>
      img ← input;
      s ← initializeCenters img incEnd s;
      Some (InitializingCenters (k s) (kParam s), s)
  | K_MEANS_LABEL_PIXELS =>
      img ← input;
      s ← (if k s =? 0
           then distances ← fill_array (distancesToCenters s) (pixelCount img)
                              PrimFloat.infinity;
                labels ← fill_array (clusterLabels s) (pixelCount img)
                           SUPERPIXELLATION_NONE_LABEL;
                Some (s {{ distancesToCenters := Some distances;
                           clusterLabels := Some labels }})
           else Some s);
      s ← kmeansLabelPixels img incEnd s;
      Some (LabellingPixels (iterationCount s) (k s) (kParam s), s)
  | K_MEANS_UPDATE_CENTERS =>
      img ← input;
      s ← (if k s =? 0
           then counts ← fill_array (nPixelsPerCluster s) (kParam s) 0;
                centers ← fill_array (currentCenters s) (kParam s) blankCenter;
                Some (s {{ nPixelsPerCluster := Some counts;
                           currentCenters := Some centers }})
           else Some s);
      s ← kmeansUpdateCenters img incEnd s;
      Some (RecomputingCenters (iterationCount s) (k s) (pixelCount img), s)
  | K_MEANS_ASSESS_ITERATION =>
      if 0 <? iterationCount s
      then s ← kmeansResidualError incEnd false s;
           Some (CalculatingResidual (iterationCount s) (k s) (kParam s), s)
      else s ← kmeansResidualError incEnd true s;
           Some (NormalizingCenters (iterationCount s) (k s) (kParam s), s)
  | FIND_CONNECTED_COMPONENTS =>
      img ← input;
      s ← (if k s =? 0
           then vis ← fill_array (visited s) (pixelCount img) false;
                labels ← fill_array (connectedComponentLabels s)
                           (pixelCount img) SUPERPIXELLATION_NONE_LABEL;
                Some (s {{ visited := Some vis;
                           connectedComponentLabels := Some labels }})
           else Some s);
      s ← labelConnectedComponents img incEnd s;
      Some (FindingComponents (k s) (pixelCount img), s)
  | CLASSIFY_CONNECTED_COMPONENTS =>
      let s := if k s =? 0
               then s {{ connectedComponentClassifications :=
                           Some (new_array (nConnectedComponents s) false) }}
               else s in
      s ← classifyConnectedComponents incEnd s;
      Some (ClassifyingComponents (k s) (kParam s), s)
  | REASSIGN_CONNECTED_COMPONENTS =>
      img ← input;
      s ← (if k s =? 0
           then vis ← fill_array (visited s) (pixelCount img) false;
                Some (s {{ visited := Some vis }})
           else Some s);
      s ← reassignConnectedComponents img incEnd s;
      Some (ReassigningComponents (k s) (pixelCount img), s)
  | SORT_PIXELS_AS_SUPERPIXELS =>
      img ← input;
      s ← (if k s =? pixelCount img - 1 then prefixOffsets s else Some s);
      s ← sortPixelsIntoSuperpixels incEnd s;
      Some (SortingPixels (k s) (pixelCount img), s)
  | CREATE_SUPERPIXEL_OBJECTS =>
      img ← input;
      let s := if k s =? 0
               then s {{ superpixels := Some (new_array (kParam s) None) }}
               else s in
      s ← createSuperpixels img incEnd s;
      Some (CreatingSuperpixels (k s) (kParam s), s)
  | _ => None
  end.

(** Whether the stage is handled by [ownStage]. *)
Definition isOwnStage (p : Progress) : bool :=
  match p with
  | START | INITIALIZE_OUTPUT | FILL_OUTPUT | FINALIZE_OUTPUT | END => false
  | _ => true
  end.

(** The [switch] of [increment]. *)
Definition runStage (incEnd : pxind) (s : SLIC) : option (Status * SLIC) :=
  match progress (st s) with
  | START =>
      (* the [default] label: [failed = true; Q_ASSERT(false)] *)
      None
  | INITIALIZE_OUTPUT =>
      '(ok, s) ← initializeOutput s;
      let s := s {{ alg := (alg s) {{ failed := negb ok }} }} in
      Some (if failed (alg s) then OutputInitializationFailed
            else OutputInitialized, s)
  | FILL_OUTPUT =>
      s ← fillOutputImage incEnd s;
      Some (FillingOutput (k (st s)) (kParam (st s)), s)
  | FINALIZE_OUTPUT => Some (OutputFinalized, finalizeOutput s)
  | END => Some (Finished, s {{ alg := (alg s) {{ finished := true }} }})
  | _ =>
      '(status, st') ← ownStage (input (alg s)) incEnd (st s);
      Some (status, s {{ st := st' }})
  end.

(** [SLIC::increment]: the return value, the value written to the
    out-parameter [f] (if any), the status and the object afterwards. *)
Definition increment (s : SLIC)
  : option (bool * option bool * Status * SLIC) :=
  if failed (alg s) then Some (false, None, CannotIncrementFailed, s)
  else if finished (alg s)
  then Some (false, Some (finished (alg s)), CannotIncrementFinished, s)
  else
    '(incEnd, st') ← updateKAndProgress (input (alg s))
                       (outputIsEnabled (alg s)) (st s);
    '(status, s) ← runStage incEnd (s {{ st := st' }});
    Some (negb (failed (alg s)), Some (finished (alg s)), status, s).


(** [n] calls of [increment], keeping what each call reported. *)
Fixpoint run (n : nat) (s : SLIC)
  : option (list (bool * option bool * Status) * SLIC) :=
  match n with
  | O => Some ([], s)
  | Datatypes.S n' =>
      '(r, f, status, s) ← increment s;
      '(log, s) ← run n' s;
      Some ((r, f, status) :: log, s)
  end.

End Slic.

(** ** superpixelfilter.cpp and localdatafilter.cpp

    The generator owned by the filter is a [SLIC] object.  The
    between-class variances of Otsu's method are idealised: the class means
    and the variance are computed over exact rationals, where the source
    rounds them to [qreal]; every other [qreal] is a binary64 [float]. *)

Module Ldf.
Import Img Qt Seg Alg.

Inductive ScoreBasis := SIZE | STDDEV_LSTAR | EXTERNAL.

Definition ScoreBasis_eqb (a b : ScoreBasis) : bool :=
  match a, b with
  | SIZE, SIZE | STDDEV_LSTAR, STDDEV_LSTAR | EXTERNAL, EXTERNAL => true
  | _, _ => false
  end.

Inductive Progress :=
| START
| GENERATE_SUPERPIXELS
| RGB2LAB
| COLLECT_STATISTICS
| NORMALIZE_STATISTICS
| CONSTRUCT_HISTOGRAM
| CHOOSE_OTSU_THRESHOLD
| FILTER_SUPERPIXELS
| INITIALIZE_OUTPUT
| FILL_OUTPUT
| FINALIZE_OUTPUT
| END.

(** The data members that [SuperpixelFilter] adds to [Algorithm]. *)
#[projections(primitive)]
Record FilterState := mkFilterState {
  superpixelGenerator : option Slic.SLIC;
  superpixellation : option Superpixellation;
  selectedSuperpixels : option (list bool);
  selectedPixels : option (list bool);
  isSuperpixelGenerationFinished : bool;
  canDeleteInput : bool
}.

(** The data members that [LocalDataFilter] adds; the two strategy
    pointers are determined by [basis]. *)
#[projections(primitive)]
Record LocalState := mkLocalState {
  basis : ScoreBasis;
  selectionMap : option ImageData;
  lStarSelectionMap : option (list float);
  superpixelScores : option (list float);
  maxScore : float;
  minScore : float;
  inverseBinWidth : float;
  histogram : option (list pxind);
  nHistogramBins : pxind;
  otsuThreshold : float;
  selectBelowThreshold : bool;
  outputInRow : bool;
  progress : Progress;
  k : pxind
}.

#[projections(primitive)]
Record LocalDataFilter := mkLocalDataFilter {
  alg : Algorithm;
  sf : FilterState;
  ld : LocalState
}.

(** [LocalDataFilter::LocalDataFilter(generator, b)], after
    [SuperpixelFilter::SuperpixelFilter(generator)], which disables the
    output of the generator. *)
Definition LocalDataFilter_ctor (generator : Slic.SLIC) (b : ScoreBasis)
  : LocalDataFilter :=
  {| alg := Algorithm_ctor;
     sf := {| superpixelGenerator :=
                Some {| Slic.alg := disableOutput (Slic.alg generator);
                        Slic.st := Slic.st generator |};
              superpixellation := None; selectedSuperpixels := None;
              selectedPixels := None;
              isSuperpixelGenerationFinished := false;
              canDeleteInput := true |};
     ld := {| basis := b; selectionMap := None; lStarSelectionMap := None;
              superpixelScores := None; maxScore := 0; minScore := 0;
              inverseBinWidth := 0; histogram := None; nHistogramBins := 0;
              otsuThreshold := 0;
              selectBelowThreshold :=
                match b with SIZE => false | _ => true end;
              outputInRow := false; progress := START; k := 0 |} |}.

(** [SuperpixelFilter::cleanup]. *)
Definition SuperpixelFilter_cleanup (f : LocalDataFilter)
  : LocalDataFilter * list Freed :=
  let a := if canDeleteInput (sf f) then alg f
           else (alg f) {{ input := None }} in
  let freed :=
    match superpixellation (sf f) with
    | Some s => Superpixellation_dtor s
    | None => []
    end in
  let sf' := (sf f) {{ superpixellation := None; selectedSuperpixels := None;
                       selectedPixels := None }} in
  let '(a, freedBase) := Alg.cleanup a in
  ({| alg := a; sf := sf'; ld := ld f |}, freed ++ freedBase).

(** [LocalDataFilter::cleanup]. *)
Definition cleanup (f : LocalDataFilter) : LocalDataFilter * list Freed :=
  let freed :=
    match selectionMap (ld f) with Some i => [FreeImage i] | None => [] end in
  let ld' := (ld f) {{ selectionMap := None; lStarSelectionMap := None;
                       superpixelScores := None; histogram := None }} in
  let '(f, freed') := SuperpixelFilter_cleanup (f {{ ld := ld' }}) in
  (f, freed ++ freed').

#[global] Instance LocalDataFilter_AlgorithmBase
  : AlgorithmBase LocalDataFilter := {
  base := alg;
  with_base := fun a f => f {{ alg := a }};
  v_cleanup := cleanup
}.

(** [SuperpixelFilter::initialize(ImageData *&image)]. *)
Definition SuperpixelFilter_initialize (f : LocalDataFilter)
  (image : option ImageData) : bool * LocalDataFilter * list Freed :=
  let f := f {{ sf := (sf f) {{ isSuperpixelGenerationFinished := false }} }} in
  let '(ok, f, freed) := Alg.initialize f image in
  (ok, f {{ alg := (alg f) {{ failed := negb ok }} }}, freed).

(** [LocalDataFilter::initialize(ImageData *&image)]. *)
Definition initialize (f : LocalDataFilter) (image : option ImageData)
  : option (bool * LocalDataFilter * list Freed) :=
  let '(ok, f, freed) := SuperpixelFilter_initialize f image in
  let f := f {{ alg := (alg f) {{ failed := negb ok }} }} in
  if failed (alg f) then Some (false, f, freed)
  else
    Some (true,
          f {{ ld := (ld f) {{ maxScore := PrimFloat.neg_infinity;
                               minScore := PrimFloat.infinity;
                               inverseBinWidth := 0%float;
                               nHistogramBins := 0;
                               otsuThreshold := 0%float;
                               outputInRow := false;
                               progress := START;
                               k := 0 }} }},
          freed).

(** [SuperpixelFilter::initialize(QVector<ImageData *> *&images)]: the
    generator is initialized through [Algorithm]'s proxy, then the filter
    itself through the virtual [initialize(ImageData *&)]. *)
Definition SuperpixelFilter_initialize_images (f : LocalDataFilter)
  (images : list (option ImageData))
  : option (bool * LocalDataFilter * list Freed) :=
  temp ← images !! 0%nat;
  generator ← superpixelGenerator (sf f);
  '(ok, generator, freed) ← Alg.initialize_images Slic.initialize generator images;
  let f := {| alg := (alg f) {{ failed := negb ok }};
              sf := (sf f) {{ superpixelGenerator := Some generator;
                              canDeleteInput := false }};
              ld := ld f |} in
  if failed (alg f) then Some (false, f, freed)
  else '(ok, f, freed') ← initialize f temp; Some (ok, f, freed ++ freed').

(** [LocalDataFilter::initialize(QVector<ImageData *> *&images)]. *)
Definition initialize_images (f : LocalDataFilter)
  (images : list (option ImageData))
  : option (bool * LocalDataFilter * list Freed) :=
  let size := length images in
  if negb (((size =? 2)%nat && ScoreBasis_eqb (basis (ld f)) EXTERNAL)
           || ((size =? 1)%nat && negb (ScoreBasis_eqb (basis (ld f)) EXTERNAL)))
  then None
  else
    firstImage ← images !! 0%nat;
    '(secondImage, images, f) ←
      (if ScoreBasis_eqb (basis (ld f)) EXTERNAL
       then
         secondImage ← images !! 1%nat;
         first ← firstImage;
         second ← secondImage;
         Some (secondImage, delete 1%nat images,
               if negb (width first =? width second)
                  || negb (height first =? height second)
               then f {{ alg := (alg f) {{ failed := true }} }}
               else f)
       else Some (None, images, f));
    '(f, freed) ←
      (if negb (failed (alg f))
       then '(ok, f, freed) ← SuperpixelFilter_initialize_images f images;
            Some (f {{ alg := (alg f) {{ failed := negb ok }} }}, freed)
       else Some (f, []));
    if negb (failed (alg f))
    then Some (true, f {{ ld := (ld f) {{ selectionMap := secondImage }} }},
               freed)
    else
      Some (false, f,
            freed
            ++ match firstImage with Some i => [FreeImage i] | None => [] end
            ++ match secondImage with Some i => [FreeImage i] | None => [] end).

(** *** Otsu's method *)

(** A division of [qreal]s, refused when the divisor is zero. *)
Definition qdiv (a b : Q) : option Q :=
  if Qeq_bool b 0 then None else Some (a / b)%Q.

Definition sumAllBody (hist : list pxind) (bin : pxind) (sumAll : pxind)
  : option pxind :=
  h ← rd hist bin; Some (sumAll + bin * h).

(** The running values of the search loop. *)
Record Otsu := mkOtsu {
  sumDark : pxind;
  weightDark : pxind;
  maxBetweenClassVariance : Q;
  threshold : pxind
}.

(** The loop [for (bin = 1; bin < nHistogramBins; bin += 1)], with its
    [continue] and [break]. *)
Fixpoint otsuLoop (fuel : nat) (hist : list pxind) (nSuperpixels sumAll : pxind)
  (bin : pxind) (o : Otsu) : option Otsu :=
  match fuel with
  | O => Some o
  | S fuel =>
      h ← rd hist (bin - 1);
      let weightDark := weightDark o + h in
      if weightDark =? 0
      then otsuLoop fuel hist nSuperpixels sumAll (bin + 1)
             (mkOtsu (sumDark o) weightDark (maxBetweenClassVariance o)
                     (threshold o))
      else
        let weightLight := nSuperpixels - weightDark in
        if weightLight =? 0
        then Some (mkOtsu (sumDark o) weightDark (maxBetweenClassVariance o)
                          (threshold o))
        else
          let sumDark := sumDark o + (bin - 1) * h in
          meanDark ← qdiv (inject_Z sumDark) (inject_Z weightDark);
          meanLight ← qdiv (inject_Z (sumAll - sumDark)) (inject_Z weightLight);
          let diffMean := (meanLight - meanDark)%Q in
          let betweenClassVariance :=
            (inject_Z (weightDark * weightLight) * diffMean * diffMean)%Q in
          otsuLoop fuel hist nSuperpixels sumAll (bin + 1)
            (if Qlt_le_dec (maxBetweenClassVariance o) betweenClassVariance
             then mkOtsu sumDark weightDark betweenClassVariance bin
             else mkOtsu sumDark weightDark (maxBetweenClassVariance o)
                         (threshold o))
  end.

(** The bin that [chooseOtsuThreshold] selects. *)
Definition otsuBin (hist : list pxind) (nHistogramBins nSuperpixels : pxind)
  : option pxind :=
  sumAll ← for_upto 0 nHistogramBins (sumAllBody hist) 0;
  o ← otsuLoop (Z.to_nat (nHistogramBins - 1)) hist nSuperpixels sumAll 1
        (mkOtsu 0 0 0%Q 0);
  Some (threshold o).



(** *** Classification *)

(** The choice made for a score. *)
Definition choose (below : bool) (score threshold : float) : bool :=
  if below then PrimFloat.ltb score threshold
  else PrimFloat.leb threshold score.

Definition markPixel (choice : bool) (p : pxind) (flags : list bool)
  : option (list bool) :=
  wr flags p choice.

Definition filterBody (i : pxind) (f : LocalDataFilter)
  : option LocalDataFilter :=
  score ← rdp (superpixelScores (ld f)) i;
  let choice := choose (selectBelowThreshold (ld f)) score
                  (otsuThreshold (ld f)) in
  selSp ← wrp (selectedSuperpixels (sf f)) i choice;
  seg ← superpixellation (sf f);
  sp ← (e ← rdp (superpixels seg) i; e);
  flags ← selectedPixels (sf f);
  selPx ← foldM (markPixel choice) (allPixels sp) flags;
  Some (f {{ sf := (sf f) {{ selectedSuperpixels := Some selSp;
                             selectedPixels := Some selPx }} }}).

(** [LocalDataFilter::filterSuperpixels]. *)
Definition filterSuperpixels (endSuperpixel : pxind) (f : LocalDataFilter)
  : option LocalDataFilter :=
  f' ← for_upto (k (ld f)) endSuperpixel filterBody f;
  Some (f' {{ ld := (ld f') {{ k := Z.max (k (ld f)) endSuperpixel }} }}).

End Ldf.

(** * Example objects *)

Module Examples.
Import Qt Img Seg Alg Slic.

(** A uniformly grey image of the given size. *)
Definition grey (wd ht : pxind) : ImageData :=
  let n := Z.to_nat (wd * ht) in
  mkImage wd ht (replicate n 128) (replicate n 128) (replicate n 128)
          (replicate n 50%float) (replicate n 0%float) (replicate n 0%float).

Definition img11 : ImageData := grey 1 1.
Definition img44 : ImageData := grey 4 4.

(** A segmentation of the one-pixel image into one superpixel, built the
    way [SLIC::createSuperpixels] builds it. *)
Definition seg11 : Superpixellation :=
  fst (Superpixellation_ctor (Some img11) (Some [0])
         (Some [Superpixel_ctor 0 [0] 1 [0] img11]) 1 false).

(** A segmentation of a 2 by 1 image into its two pixels, and a filter on
    the size basis about to classify them; the second score equals the
    threshold. *)
Definition img21 : ImageData := grey 2 1.
Definition labels21 : list pxind := [0; 1].
Definition seg21 : Superpixellation :=
  fst (Superpixellation_ctor (Some img21) (Some labels21)
         (Some [Superpixel_ctor 0 [0] 1 labels21 img21;
                Superpixel_ctor 1 [1] 1 labels21 img21]) 2 false).

Definition filter21 (b : Ldf.ScoreBasis) : Ldf.LocalDataFilter :=
  let f := Ldf.LocalDataFilter_ctor SLIC_ctor b in
  {| Ldf.alg := (Ldf.alg f) {{ input := Some img21 }};
     Ldf.sf := (Ldf.sf f) {{ Ldf.superpixellation := Some seg21;
                             Ldf.selectedSuperpixels := Some [false; false];
                             Ldf.selectedPixels := Some [false; false] }};
     Ldf.ld := (Ldf.ld f) {{ Ldf.superpixelScores := Some [0.25; 0.75]%float;
                             Ldf.minScore := 0.25%float;
                             Ldf.maxScore := 0.75%float;
                             Ldf.otsuThreshold := 0.75%float;
                             Ldf.progress := Ldf.FILTER_SUPERPIXELS }} |}.

(** A histogram of four bins counting six superpixels, and one with all
    its mass in one bin. *)
Definition hist4 : list pxind := [2; 0; 1; 3].
Definition histSingle : list pxind := [0; 6; 0; 0].

(** A filter on the external basis, fresh and after a call to
    [initialize] with a 2 by 1 image and a 1 by 1 selection map. *)
Definition ldfExternal : Ldf.LocalDataFilter :=
  Ldf.LocalDataFilter_ctor SLIC_ctor Ldf.EXTERNAL.

Definition ldfAfterMismatch : Ldf.LocalDataFilter :=
  match Ldf.initialize_images ldfExternal [Some img21; Some img11] with
  | Some (_, f, _) => f
  | None => ldfExternal
  end.

(** A generator built with [SLIC_DEFAULT_K] set to 4, initialized on the
    4 by 4 grey image and run to the end (56 increments). *)
Definition slic4 : SLIC :=
  {| alg := alg SLIC_ctor; st := (st SLIC_ctor) {{ kParam := 4 }} |}.

Definition initialized (s : SLIC) (i : ImageData) : SLIC :=
  match Slic.initialize s (Some i) with
  | Some (_, s', _) => s'
  | None => s
  end.

Definition after (n : nat) (s : SLIC) : SLIC :=
  match run n s with
  | Some (_, s') => s'
  | None => s
  end.

Definition init44 : SLIC := initialized slic4 img44.
Definition done44 : SLIC := after 56 init44.

(** The labels that the run assigns to the 16 pixels, and the state in
    which its 51st increment enters the sorting stage. *)
Definition labels44 : list pxind :=
  [0; 0; 0; 1; 0; 0; 0; 1; 0; 0; 0; 1; 2; 2; 2; 3].

Definition beforeSort44 : SlicState :=
  let s := after 50 init44 in
  match updateKAndProgress (input (alg s)) (outputIsEnabled (alg s)) (st s)
  with
  | Some (_, s') => s'
  | None => st s
  end.


(** The run on the 4 by 4 image after its third increment: the first
    labelling of pixels is done. *)
Definition labelled44 : SLIC := after 3 init44.

(** The end of the assessment of the third iteration, with a summed
    squared displacement of 10816 after one of 10000. *)
Definition assess3 : SlicState :=
  (st SLIC_ctor) {{ progress := K_MEANS_ASSESS_ITERATION;
                    iterationCount := 2;
                    k := kParam (st SLIC_ctor);
                    residualError := 10816%float;
                    previousResidualError := 10000%float }}.

End Examples.

(** * The buckets of the counting sort, as the specification words them *)

Module Sorting.
Import Seg.

(** The buckets of the labels below [c], concatenated in label order. *)
Definition bucketsUpTo (labels : list pxind) (c : nat) : list pxind :=
  concat (map (fun j => naiveBucket labels (Z.of_nat j)) (seq 0 c)).

(** Where the bucket of label [c] starts, and how many pixels it holds. *)
Definition startOf (labels : list pxind) (c : nat) : nat :=
  length (bucketsUpTo labels c).

Definition countOf (labels : list pxind) (c : nat) : nat :=
  length (naiveBucket labels (Z.of_nat c)).

(** The pixels up to [i] that carry label [c]: what the descending scan has
    still to place when it stands at [i]. *)
Definition pending (labels : list pxind) (c : nat) (i : Z) : nat :=
  length (filter (fun p => rd labels p = Some (Z.of_nat c))
                 (zseq 0 (Z.to_nat (i + 1)))).

(** The pixel carries a label below [c]. *)
Definition labelledBelow (labels : list pxind) (c : nat) (p : pxind) : bool :=
  match rd labels p with
  | Some l => (0 <=? l) && (l <? Z.of_nat c)
  | None => false
  end.

(** Every label names one of [K] clusters. *)
Definition validLabels (labels : list pxind) (K : nat) : Prop :=
  Forall (fun l => 0 <= l < Z.of_nat K) labels.

(** The recorded cluster sizes are the per-label pixel counts. *)
Definition countsMatch (labels counts : list pxind) (K : nat) : Prop :=
  length counts = K
  /\ forall c, (c < K)%nat ->
        counts !! c = Some (Z.of_nat (countOf labels c)).

(** What the descending scan has established when it stands at pixel [i]:
    every offset points at the first placed pixel of its bucket, and the
    placed part of every bucket is in its final position. *)
Definition scanned (s : Slic.SlicState) (labels : list pxind) (K : nat)
  (i : Z) (s' : Slic.SlicState) : Prop :=
  exists offs sorted,
    s' = s {{ Slic.pixelSortingOffsets := Some offs;
              Slic.sortedPixels := Some sorted }}
    /\ length offs = K /\ length sorted = length labels
    /\ (forall c, (c < K)%nat ->
          offs !! c
          = Some (Z.of_nat (startOf labels c + pending labels c i)))
    /\ (forall c j, (c < K)%nat ->
          (pending labels c i <= j < countOf labels c)%nat ->
          sorted !! (startOf labels c + j)%nat
          = naiveBucket labels (Z.of_nat c) !! j).

End Sorting.

(** * The superpixel objects built from the buckets *)

Module Finalization.
Import Seg Sorting.





End Finalization.

(** * The control state of the generator *)

Module Control.
Import Slic.

(** The members that drive [updateKAndProgress]: no stage body writes
    them. *)
Definition control (s : SlicState) : Progress * pxind * pxind :=
  (progress s, kParam s, iterationCount s).

(** The three stages of a K-means iteration, with the position of each in
    the iteration counted from its end. *)
Definition isKmeans (p : Progress) : bool :=
  match p with
  | K_MEANS_LABEL_PIXELS | K_MEANS_UPDATE_CENTERS
  | K_MEANS_ASSESS_ITERATION => true
  | _ => false
  end.

Definition rank (p : Progress) : Z :=
  match p with
  | K_MEANS_LABEL_PIXELS => 2
  | K_MEANS_UPDATE_CENTERS => 1
  | _ => 0
  end.

(** The loop limit of a K-means stage on an image of [nPx] pixels. *)
Definition limitOf (nPx : pxind) (s : SlicState) : pxind :=
  match progress s with
  | K_MEANS_UPDATE_CENTERS => nPx
  | _ => kParam s
  end.

(** A bound on the increments that K-means iteration still takes. *)
Definition kmeansMeasure (nPx : pxind) (s : SlicState) : Z :=
  ((SLIC_MAX_KMEANS_ITERATIONS - 1 - iterationCount s) * 3
   + rank (progress s)) * (Z.max (kParam s) nPx + 1)
  + (limitOf nPx s - k s).

(** A generator in the K-means phase. *)
Definition inKmeans (img : Img.ImageData) (s : SLIC) : Prop :=
  Alg.failed (alg s) = false /\ Alg.finished (alg s) = false
  /\ Alg.input (alg s) = Some img /\ 0 <= Img.pixelCount img
  /\ isKmeans (progress (st s)) = true
  /\ 0 <= kParam (st s)
  /\ 0 <= iterationCount (st s) <= SLIC_MAX_KMEANS_ITERATIONS - 1
  /\ 0 <= k (st s) <= limitOf (Img.pixelCount img) (st s).

(** Two states whose cluster centers agree in position, whatever their
    colours, and which agree in the cluster sizes and in the residual
    accumulated so far. *)
Definition samePositions (s t : SlicState) : Prop :=
  ((fun l : list Center2 => Seg.position <$> l) <$> currentCenters s)
  = ((fun l : list Center2 => Seg.position <$> l) <$> currentCenters t)
  /\ ((fun l : list Center2 => Seg.position <$> l) <$> previousCenters s)
     = ((fun l : list Center2 => Seg.position <$> l) <$> previousCenters t)
  /\ nPixelsPerCluster s = nPixelsPerCluster t
  /\ residualError s = residualError t
  /\ k s = k t.

End Control.

(** * Classification by the filter *)

Module Classification.
Import Qt Img Seg Alg Ldf.

(** What the classification loop has established after superpixels
    [0 .. i-1]. *)
Definition classifiedUpTo (f : LocalDataFilter) (seg : Superpixellation)
  (sps : list (option Superpixel)) (labels : list pxind)
  (scores : list float) (i : pxind) (f' : LocalDataFilter) : Prop :=
  alg f' = alg f /\ ld f' = ld f
  /\ superpixellation (sf f') = Some seg
  /\ exists a b,
      selectedSuperpixels (sf f') = Some a
      /\ selectedPixels (sf f') = Some b
      /\ length a = length sps /\ length b = length labels
      /\ (forall j score, 0 <= j < i -> rd scores j = Some score ->
            rd a j = Some (choose (selectBelowThreshold (ld f)) score
                             (otsuThreshold (ld f))))
      /\ (forall p j, rd labels p = Some j -> 0 <= j < i ->
            rd b p = rd a j).

End Classification.

(** * Re-initialization *)

Module Reinit.
Import Alg Slic.

(** A freshly constructed generator with the configuration of [s]: its
    parameters, and its output disabled if that of [s] is. *)
Definition fresh (s : SLIC) : SLIC :=
  {| alg := Algorithm_ctor {{ outputIsEnabled := outputIsEnabled (alg s) }};
     st := (st SLIC_ctor) {{ kParam := kParam (st s); m := m (st s) }} |}.

(** The stages before the output image is created. *)
Definition isPre (p : Progress) : bool :=
  match p with
  | INITIALIZE_OUTPUT | FILL_OUTPUT | FINALIZE_OUTPUT | END => false
  | _ => true
  end.






End Reinit.

(** * Histograms and the between-class variance, as the specification
       words them *)

Module Histogram.

(** The weight of the dark class of the split at [b]: the mass of the bins
    below [b]. *)
Fixpoint weightBelow (hist : list pxind) (b : nat) : Z :=
  match b with
  | O => 0
  | S b' => weightBelow hist b' + nth b' hist 0
  end.

(** The sum of the bin indices of the dark class of the split at [b]. *)
Fixpoint sumBelow (hist : list pxind) (b : nat) : Z :=
  match b with
  | O => 0
  | S b' => sumBelow hist b' + Z.of_nat b' * nth b' hist 0
  end.

(** Class weights times the squared difference of the class means, for the
    split at [b] of a histogram of [n] bins holding [total] superpixels. *)
Definition betweenClassVariance (hist : list pxind) (n : nat) (total : Z)
  (b : nat) : Q :=
  let wD := weightBelow hist b in
  let wL := total - wD in
  let meanD := (inject_Z (sumBelow hist b) / inject_Z wD)%Q in
  let meanL :=
    (inject_Z (sumBelow hist n - sumBelow hist b) / inject_Z wL)%Q in
  (inject_Z (wD * wL) * (meanL - meanD) * (meanL - meanD))%Q.




End Histogram.

(** * The claims of the specification, where a theorem contradicts them *)

Module Claimed.
Import Qt Img Seg Alg Slic.

(** Failure gates output: after an [increment] that returned failure,
    [output] fails. *)
Definition failureGatesOutput (s : SLIC) : Prop :=
  forall f status s',
    increment s = Some (false, f, status, s') ->
    fst (fst (fst (output (alg s')))) = false.

(** On the size basis a superpixel is selected exactly when its score is
    above the threshold. *)
Definition sizeSelectsAbove (f f' : Ldf.LocalDataFilter) : Prop :=
  forall j score,
    rdp (Ldf.superpixelScores (Ldf.ld f)) j = Some score ->
    rdp (Ldf.selectedSuperpixels (Ldf.sf f')) j
    = Some (PrimFloat.ltb (Ldf.otsuThreshold (Ldf.ld f)) score).

(** K-means iteration stops when the relative change of the summed squared
    displacement of the cluster centers is at most the threshold. *)
Definition relativeChange (current previous : float) : float :=
  PrimFloat.abs ((current - previous) / previous)%float.

Definition claimedStop (s : SlicState) : bool :=
  (iterationCount s =? SLIC_MAX_KMEANS_ITERATIONS - 1)
  || ((1 <? iterationCount s)
      && PrimFloat.leb
           (relativeChange (residualError s) (previousResidualError s))
           SLIC_ERROR_THRESHOLD).

End Claimed.

(** * Properties *)

(** ** Arrays and loops *)

Section ArrayFacts.
Context {A : Type}.
Implicit Types (a : list A) (i : pxind) (v : A).

Lemma rd_Some a i v :
  rd a i = Some v <-> 0 <= i /\ a !! Z.to_nat i = Some v.
Proof.
  unfold rd. destruct (Z.leb_spec 0 i); split; intros; intuition (try lia; try discriminate).
Qed.

Lemma rd_nat a (n : nat) : rd a (Z.of_nat n) = a !! n.
Proof.
  unfold rd. destruct (Z.leb_spec 0 (Z.of_nat n)); [|lia].
  by rewrite Nat2Z.id.
Qed.

Lemma rd_to_nat a i : 0 <= i -> rd a i = a !! Z.to_nat i.
Proof. intros Hi. unfold rd. by destruct (Z.leb_spec 0 i); [|lia]. Qed.

Lemma rd_in_range a i : 0 <= i < Z.of_nat (length a) -> is_Some (rd a i).
Proof.
  intros [H0 H1]. unfold rd. destruct (Z.leb_spec 0 i); [|lia].
  apply lookup_lt_is_Some. lia.
Qed.

Lemma rd_range a i v : rd a i = Some v -> 0 <= i < Z.of_nat (length a).
Proof.
  rewrite rd_Some. intros [H0 H1]. apply lookup_lt_Some in H1. lia.
Qed.

Lemma wr_Some a i v a' :
  wr a i v = Some a' <->
  0 <= i < Z.of_nat (length a) /\ a' = <[Z.to_nat i := v]> a.
Proof.
  unfold wr.
  destruct (Z.leb_spec 0 i), (Z.ltb_spec i (Z.of_nat (length a))); simpl;
    split; intros H'; try (inversion H'; subst); intuition (try lia; try congruence).
Qed.

Lemma wr_in_range a i v :
  0 <= i < Z.of_nat (length a) -> wr a i v = Some (<[Z.to_nat i := v]> a).
Proof. intros. by apply wr_Some. Qed.

Lemma wr_length a i v a' : wr a i v = Some a' -> length a' = length a.
Proof. rewrite wr_Some. intros [_ ->]. apply length_insert. Qed.

Lemma rd_wr_eq a i v a' : wr a i v = Some a' -> rd a' i = Some v.
Proof.
  rewrite wr_Some. intros [Hi ->]. apply rd_Some. split; [lia|].
  apply list_lookup_insert_eq. lia.
Qed.

Lemma rd_wr_ne a i j v a' : wr a i v = Some a' -> i <> j -> rd a' j = rd a j.
Proof.
  rewrite wr_Some. intros [Hi ->] Hne. unfold rd.
  destruct (Z.leb_spec 0 j); [|done].
  apply list_lookup_insert_ne. lia.
Qed.

End ArrayFacts.

Section LoopFacts.
Context {St : Type}.
Implicit Types (body : pxind -> St -> option St) (s : St).

Lemma for_loop_app n1 n2 i body s :
  for_loop (n1 + n2) i body s =
  s' ← for_loop n1 i body s; for_loop n2 (i + Z.of_nat n1) body s'.
Proof.
  revert i s. induction n1 as [|n1 IH]; intros i s; simpl.
  - by rewrite Z.add_0_r.
  - destruct (body i s) as [s1|]; simpl; [|done].
    rewrite IH. destruct (for_loop n1 (i + 1) body s1); simpl; [|done].
    f_equal. lia.
Qed.

(** A loop can be cut at any point of its range. *)
Lemma for_upto_split lo mid hi body s :
  lo <= mid <= hi ->
  for_upto lo hi body s = s' ← for_upto lo mid body s; for_upto mid hi body s'.
Proof.
  intros H. unfold for_upto.
  replace (Z.to_nat (hi - lo)) with (Z.to_nat (mid - lo) + Z.to_nat (hi - mid))%nat by lia.
  rewrite for_loop_app.
  destruct (for_loop _ lo body s); simpl; [|done].
  f_equal. lia.
Qed.

(** Invariant rule for counted loops. *)
Lemma for_loop_inv (P : pxind -> St -> Prop) n i body s :
  P i s ->
  (forall j t, i <= j < i + Z.of_nat n -> P j t ->
               exists t', body j t = Some t' /\ P (j + 1) t') ->
  exists s', for_loop n i body s = Some s' /\ P (i + Z.of_nat n) s'.
Proof.
  revert i s. induction n as [|n IH]; intros i s HP Hstep; simpl.
  - exists s. split; [done|]. by rewrite Z.add_0_r.
  - destruct (Hstep i s) as (t & Ht & HP'); [lia|done|].
    rewrite Ht. simpl.
    destruct (IH (i + 1) t HP') as (s' & Hs' & HP'').
    + intros j u Hj. apply Hstep. lia.
    + exists s'. split; [done|].
      by replace (i + Z.of_nat (S n)) with (i + 1 + Z.of_nat n) by lia.
Qed.

Lemma for_upto_inv (P : pxind -> St -> Prop) lo hi body s :
  lo <= hi -> P lo s ->
  (forall j t, lo <= j < hi -> P j t ->
               exists t', body j t = Some t' /\ P (j + 1) t') ->
  exists s', for_upto lo hi body s = Some s' /\ P hi s'.
Proof.
  intros Hle HP Hstep. unfold for_upto.
  destruct (for_loop_inv P (Z.to_nat (hi - lo)) lo body s HP) as (s' & ? & HP').
  - intros j t Hj. apply Hstep. lia.
  - exists s'. split; [done|].
    by replace (lo + Z.of_nat (Z.to_nat (hi - lo))) with hi in HP' by lia.
Qed.

(** What holds of the result of a loop that ran, from a property that the
    body preserves. *)
Lemma for_loop_preserves (P : St -> Prop) n i body s s' :
  (forall j t t', body j t = Some t' -> P t -> P t') ->
  for_loop n i body s = Some s' -> P s -> P s'.
Proof.
  intros Hbody. revert i s. induction n as [|n IH]; intros i s; simpl.
  - by intros [= ->].
  - destruct (body i s) as [t|] eqn:E; simpl; [|done].
    intros Hrun HP. eapply IH; [exact Hrun|]. by eapply Hbody.
Qed.

Lemma for_down_inv (P : pxind -> St -> Prop) n i body s :
  P i s ->
  (forall j t, i - Z.of_nat n < j <= i -> P j t ->
               exists t', body j t = Some t' /\ P (j - 1) t') ->
  exists s', for_down n i body s = Some s' /\ P (i - Z.of_nat n) s'.
Proof.
  revert i s. induction n as [|n IH]; intros i s HP Hstep; simpl.
  - exists s. split; [done|]. by rewrite Z.sub_0_r.
  - destruct (Hstep i s) as (t & Ht & HP'); [lia|done|].
    rewrite Ht. simpl.
    destruct (IH (i - 1) t HP') as (s' & Hs' & HP'').
    + intros j u Hj. apply Hstep. lia.
    + exists s'. split; [done|].
      by replace (i - Z.of_nat (S n)) with (i - 1 - Z.of_nat n) by lia.
Qed.

Lemma for_down_app n1 n2 i body s :
  for_down (n1 + n2) i body s =
  s' ← for_down n1 i body s; for_down n2 (i - Z.of_nat n1) body s'.
Proof.
  revert i s. induction n1 as [|n1 IH]; intros i s; simpl.
  - by rewrite Z.sub_0_r.
  - destruct (body i s) as [s1|]; simpl; [|done].
    rewrite IH. destruct (for_down n1 (i - 1) body s1); simpl; [|done].
    f_equal. lia.
Qed.

Lemma for_down_preserves (P : St -> Prop) n i body s s' :
  (forall j t t', body j t = Some t' -> P t -> P t') ->
  for_down n i body s = Some s' -> P s -> P s'.
Proof.
  intros Hbody. revert i s. induction n as [|n IH]; intros i s; simpl.
  - by intros [= ->].
  - destruct (body i s) as [t|] eqn:E; simpl; [|done].
    intros Hrun HP. eapply IH; [exact Hrun|]. by eapply Hbody.
Qed.

End LoopFacts.

Lemma foldM_preserves {A St : Type} (P : St -> Prop)
  (f : A -> St -> option St) (l : list A) (s s' : St) :
  (forall x t t', f x t = Some t' -> P t -> P t') ->
  foldM f l s = Some s' -> P s -> P s'.
Proof.
  intros Hf. revert s. induction l as [|x l IH]; intros s; simpl.
  - by intros [= ->].
  - destruct (f x s) as [t|] eqn:E; simpl; [|done].
    intros Hrun HP. eapply IH; [exact Hrun|]. by eapply Hf.
Qed.

(** Boolean comparisons decided by [lia]. *)
Ltac zbool :=
  repeat match goal with
  | |- context [(?a <=? ?b)%Z] =>
      first [ rewrite (proj2 (Z.leb_le a b)) by lia
            | rewrite (proj2 (Z.leb_gt a b)) by lia ]
  | |- context [(?a <? ?b)%Z] =>
      first [ rewrite (proj2 (Z.ltb_lt a b)) by lia
            | rewrite (proj2 (Z.ltb_ge a b)) by lia ]
  | |- context [(?a =? ?b)%Z] =>
      first [ rewrite (proj2 (Z.eqb_eq a b)) by lia
            | rewrite (proj2 (Z.eqb_neq a b)) by lia ]
  end.

(** ** Images *)

Module ImgFacts.
Import Img.

Lemma checkK_range img k :
  checkK img k = true <-> 0 <= k < pixelCount img.
Proof. unfold checkK. rewrite andb_true_iff, Z.leb_le, Z.ltb_lt. tauto. Qed.

Lemma checkXY_range img x y :
  checkXY img x y = true <-> 0 <= x < w img /\ 0 <= y < h img.
Proof.
  unfold checkXY. rewrite !andb_true_iff, !Z.leb_le, !Z.ltb_lt. tauto.
Qed.

(** The coordinates of a valid pixel lie in the image. *)
Lemma coordinates_range img k :
  0 <= w img -> 0 <= k < pixelCount img ->
  0 < w img /\ 0 <= Z.rem k (w img) < w img /\ 0 <= Z.quot k (w img) < h img
  /\ w img * Z.quot k (w img) + Z.rem k (w img) = k.
Proof.
  unfold pixelCount. intros Hw Hk.
  assert (w img <> 0) by (intros E; rewrite E in Hk; lia).
  assert (0 < w img) by lia.
  rewrite Z.rem_mod_nonneg, Z.quot_div_nonneg by lia.
  pose proof (Z.mod_pos_bound k (w img) ltac:(lia)).
  pose proof (Z.div_mod k (w img) ltac:(lia)).
  assert (0 <= k / w img) by (apply Z.div_pos; lia).
  repeat split; try lia.
  apply Z.div_lt_upper_bound; lia.
Qed.

Lemma xyToK_range img x y k :
  xyToK img x y = Some k -> 0 <= k < pixelCount img.
Proof.
  unfold xyToK. destruct (checkXY img x y) eqn:E; [|done].
  apply checkXY_range in E. intros [= <-]. unfold pixelCount. nia.
Qed.

End ImgFacts.
Module SegFacts.
Import Img Qt Seg ImgFacts.

Lemma negb_eqb_decide (a b : Z) :
  negb (a =? b) = negb (bool_decide (Some b = Some a)).
Proof.
  destruct (Z.eqb_spec a b) as [->|Hne]; simpl.
  - by rewrite bool_decide_eq_true_2.
  - rewrite bool_decide_eq_false_2; [done|]. intros [= ->]. done.
Qed.

Lemma boundaryTest_spec labels img p :
  0 <= w img -> 0 <= p < pixelCount img ->
  Z.of_nat (length labels) = pixelCount img ->
  boundaryTest labels img p = Some (isBoundaryPixel labels img p).
Proof.
  intros Hw Hp Hlen.
  destruct (coordinates_range img p Hw Hp) as (Hw0 & Hx & Hy & Hxy).
  unfold boundaryTest, fourNeighbours, kToXY, isBoundaryPixel, around.
  rewrite (proj2 (checkK_range img p) Hp). simpl.
  set (x := Z.rem p (w img)) in *. set (y := Z.quot p (w img)) in *.
  assert (Hrd : forall x' y', 0 <= x' < w img -> 0 <= y' < h img ->
            is_Some (rd labels (w img * y' + x'))).
  { intros x' y' ? ?. apply rd_in_range. rewrite Hlen. unfold pixelCount. nia. }
  assert (Hp' : is_Some (rd labels p)) by (apply rd_in_range; lia).
  destruct Hp' as [l0 Hl0].
  unfold xyToK, checkXY.
  destruct (Z.ltb_spec (x + 1) (w img)), (Z.leb_spec 0 (y - 1)),
    (Z.leb_spec 0 (x - 1)), (Z.ltb_spec (y + 1) (h img));
    zbool; simpl; rewrite ?orb_true_r; try reflexivity.
  destruct (Hrd (x + 1) y) as [l1 E1]; [lia..|].
  destruct (Hrd x (y - 1)) as [l2 E2]; [lia..|].
  destruct (Hrd (x - 1) y) as [l3 E3]; [lia..|].
  destruct (Hrd x (y + 1)) as [l4 E4]; [lia..|].
  rewrite Hl0, E1, E2, E3, E4. simpl.
  rewrite !negb_eqb_decide.
  repeat case_bool_decide; simpl; congruence.
Qed.

Lemma wfImage_reads img p :
  wfImage img -> 0 <= p < pixelCount img ->
  is_Some (rd (red img) p) /\ is_Some (rd (green img) p)
  /\ is_Some (rd (blue img) p) /\ is_Some (rd (lStar img) p)
  /\ is_Some (rd (aStar img) p) /\ is_Some (rd (bStar img) p).
Proof.
  intros (_ & _ & ? & ? & ? & ? & ? & ?) Hp.
  repeat split; apply rd_in_range; lia.
Qed.

Lemma parts_length labels img pxs :
  (length (boundaryPart labels img pxs)
   + length (interiorPart labels img pxs) = length pxs)%nat.
Proof.
  unfold boundaryPart, interiorPart.
  induction pxs as [|p pxs IH]; [done|].
  rewrite !filter_cons.
  destruct (isBoundaryPixel labels img p) eqn:E;
    repeat case_decide; simpl; try congruence; lia.
Qed.

Lemma boundaryPart_snoc labels img pxs p :
  boundaryPart labels img (pxs ++ [p]) =
  boundaryPart labels img pxs
  ++ (if isBoundaryPixel labels img p then [p] else []).
Proof.
  unfold boundaryPart. rewrite filter_app. f_equal.
  rewrite filter_cons, filter_nil.
  destruct (isBoundaryPixel labels img p); by case_decide.
Qed.

Lemma interiorPart_snoc labels img pxs p :
  interiorPart labels img (pxs ++ [p]) =
  interiorPart labels img pxs
  ++ (if isBoundaryPixel labels img p then [] else [p]).
Proof.
  unfold interiorPart. rewrite filter_app. f_equal.
  rewrite filter_cons, filter_nil.
  destruct (isBoundaryPixel labels img p); by case_decide.
Qed.

(** The first loop of the constructor succeeds and classifies every pixel
    of the list. *)
Lemma sums_loop labels img pxs s0 :
  wfImage img -> Z.of_nat (length labels) = pixelCount img ->
  Forall (fun p => 0 <= p < pixelCount img) pxs ->
  isBoundary s0 = replicate (length pxs) false -> nBoundary s0 = 0 ->
  exists s,
    for_upto 0 (Z.of_nat (length pxs)) (sumsBody pxs labels img) s0 = Some s
    /\ isBoundary s = map (isBoundaryPixel labels img) pxs
    /\ nBoundary s = Z.of_nat (length (boundaryPart labels img pxs)).
Proof.
  intros Hwf Hlab Hpxs Hflags HnB.
  set (N := length pxs).
  destruct (for_upto_inv
    (fun j s => exists jn : nat, j = Z.of_nat jn /\
       isBoundary s = map (isBoundaryPixel labels img) (take jn pxs)
                      ++ replicate (N - jn) false /\
       nBoundary s = Z.of_nat (length (boundaryPart labels img (take jn pxs))))
    0 (Z.of_nat N) (sumsBody pxs labels img) s0) as (s & Hrun & jn & Hj & Hfl & Hn).
  - lia.
  - exists 0%nat. rewrite take_0, Nat.sub_0_r. simpl. auto.
  - intros j t Hj (jn & -> & Hfl & Hn).
    assert (Hlt : (jn < N)%nat) by lia.
    destruct (lookup_lt_is_Some_2 pxs jn Hlt) as [p Hp].
    assert (Hpr : 0 <= p < pixelCount img).
    { eapply (proj1 (Forall_lookup _ _) Hpxs); eauto. }
    destruct (wfImage_reads img p Hwf Hpr)
      as ([r Er] & [g Eg] & [b Eb] & [l El] & [a Ea] & [bb Ebb]).
    unfold sumsBody. rewrite rd_nat, Hp. simpl.
    unfold kToXY. rewrite (proj2 (checkK_range img p) Hpr). simpl.
    rewrite El, Ea, Ebb, Er, Eg, Eb. simpl.
    rewrite boundaryTest_spec by (try done; apply Hwf). simpl.
    assert (Hlen : length (isBoundary t) = N).
    { rewrite Hfl, length_app, length_map, length_take, length_replicate. lia. }
    destruct (isBoundaryPixel labels img p) eqn:EB.
    + rewrite wr_in_range by lia. simpl. eexists. split; [reflexivity|].
      exists (S jn). simpl. split; [lia|].
      rewrite (take_S_r _ _ _ Hp), map_app, boundaryPart_snoc, EB. simpl.
      split.
      * rewrite Nat2Z.id, Hfl, insert_app_r_alt
          by (rewrite length_map, length_take; lia).
        rewrite length_map, length_take.
        replace (jn - jn `min` length pxs)%nat with 0%nat by lia.
        replace (N - jn)%nat with (S (N - S jn)) by lia. simpl.
        by rewrite EB, <- app_assoc.
      * rewrite length_app. simpl. lia.
    + simpl. eexists. split; [reflexivity|].
      exists (S jn). simpl. split; [lia|].
      rewrite (take_S_r _ _ _ Hp), map_app, boundaryPart_snoc, EB. simpl.
      split.
      * rewrite Hfl. replace (N - jn)%nat with (S (N - S jn)) by lia. simpl.
        by rewrite EB, <- app_assoc.
      * rewrite app_nil_r. done.
  - exists s. split; [done|].
    apply Nat2Z.inj in Hj. subst jn. subst N.
    rewrite firstn_all in Hfl, Hn. rewrite Nat.sub_diag in Hfl.
    simpl in Hfl. rewrite app_nil_r in Hfl. done.
Qed.

Lemma boundaryPart_take_le labels img pxs (jn : nat) :
  (length (boundaryPart labels img (take jn pxs))
   <= length (boundaryPart labels img pxs))%nat.
Proof.
  rewrite <- (take_drop jn pxs) at 2. unfold boundaryPart.
  rewrite filter_app, length_app. lia.
Qed.

Lemma interiorPart_take_le labels img pxs (jn : nat) :
  (length (interiorPart labels img (take jn pxs))
   <= length (interiorPart labels img pxs))%nat.
Proof.
  rewrite <- (take_drop jn pxs) at 2. unfold interiorPart.
  rewrite filter_app, length_app. lia.
Qed.

(** The second loop of the constructor puts the boundary pixels in front
    of the interior pixels, each group in its original order. *)
Lemma arrange_loop labels img pxs :
  exists ordered bp ip,
    for_upto 0 (Z.of_nat (length pxs))
      (arrangeBody pxs (map (isBoundaryPixel labels img) pxs))
      (new_array (Z.of_nat (length pxs)) 0, 0,
       Z.of_nat (length (boundaryPart labels img pxs)))
    = Some (ordered, bp, ip)
    /\ ordered = boundaryPart labels img pxs ++ interiorPart labels img pxs.
Proof.
  set (N := length pxs).
  set (nB := length (boundaryPart labels img pxs)).
  pose proof (parts_length labels img pxs) as Hparts. fold nB N in Hparts.
  destruct (for_upto_inv
    (fun j (s : list Z * Z * Z) =>
       exists jn : nat, j = Z.of_nat jn /\
         let b := length (boundaryPart labels img (take jn pxs)) in
         let c := length (interiorPart labels img (take jn pxs)) in
         length (fst (fst s)) = N /\
         snd (fst s) = Z.of_nat b /\ snd s = Z.of_nat (nB + c) /\
         take b (fst (fst s)) = boundaryPart labels img (take jn pxs) /\
         take c (drop nB (fst (fst s))) = interiorPart labels img (take jn pxs))
    0 (Z.of_nat N) (arrangeBody pxs (map (isBoundaryPixel labels img) pxs))
    (new_array (Z.of_nat N) 0, 0, Z.of_nat nB))
    as ([[ordered bp] ip] & Hrun & jn & Hj & Hlen & Hbp & Hip & Hb & Hc).
  - lia.
  - exists 0%nat. rewrite take_0. simpl. unfold new_array.
    rewrite length_replicate, Nat2Z.id, Nat.add_0_r. by repeat split.
  - intros j [[ordered bp] ip] Hj (jn & -> & Hlen & Hbp & Hip & Hb & Hc).
    simpl in *.
    assert (Hlt : (jn < N)%nat) by lia.
    destruct (lookup_lt_is_Some_2 pxs jn Hlt) as [p Hp].
    pose proof (boundaryPart_take_le labels img pxs (S jn)) as HleB.
    pose proof (interiorPart_take_le labels img pxs (S jn)) as HleI.
    rewrite (take_S_r _ _ _ Hp) in HleB, HleI.
    rewrite boundaryPart_snoc, length_app in HleB.
    rewrite interiorPart_snoc, length_app in HleI.
    unfold arrangeBody. rewrite !rd_nat, list_lookup_fmap, Hp. simpl.
    destruct (isBoundaryPixel labels img p) eqn:EB; simpl in *.
    + subst bp ip. fold nB in HleB.
      rewrite wr_in_range by lia. simpl. eexists. split; [reflexivity|].
      exists (S jn). split; [lia|]. simpl.
      rewrite (take_S_r _ _ _ Hp), boundaryPart_snoc, interiorPart_snoc, EB.
      rewrite app_nil_r, length_app, Nat2Z.id. simpl.
      rewrite length_insert.
      repeat split; [done|lia|..].
      * rewrite Nat.add_1_r.
        erewrite take_S_r
          by (apply list_lookup_insert_eq; lia).
        by rewrite take_insert_ge, Hb by lia.
      * by rewrite drop_insert_lt by lia.
    + subst bp ip. fold nB in HleB.
      rewrite wr_in_range by lia. simpl. eexists. split; [reflexivity|].
      exists (S jn). split; [lia|]. simpl.
      rewrite (take_S_r _ _ _ Hp), boundaryPart_snoc, interiorPart_snoc, EB.
      rewrite app_nil_r, length_app, Nat2Z.id. simpl.
      rewrite length_insert.
      repeat split; [done|lia|..].
      * by rewrite take_insert_ge, Hb by lia.
      * rewrite drop_insert_ge by lia.
        replace (nB + length (interiorPart labels img (take jn pxs)) - nB)%nat
          with (length (interiorPart labels img (take jn pxs))) by lia.
        rewrite Nat.add_1_r.
        erewrite take_S_r
          by (apply list_lookup_insert_eq; rewrite length_drop; lia).
        by rewrite take_insert_ge, Hc by lia.
  - exists ordered, bp, ip. split; [done|].
    apply Nat2Z.inj in Hj. subst jn. subst N. simpl in *.
    rewrite firstn_all in Hb, Hc. fold nB in Hb.
    rewrite <- (take_drop nB ordered), Hb. f_equal.
    rewrite <- Hc. symmetry. apply take_ge. rewrite length_drop. lia.
Qed.

Lemma parts_valid labels img pxs (P : Z -> Prop) :
  Forall P pxs ->
  Forall P (boundaryPart labels img pxs ++ interiorPart labels img pxs).
Proof.
  intros H. unfold boundaryPart, interiorPart.
  apply Forall_app. split; apply Forall_forall; intros x Hx;
    apply list_elem_of_filter in Hx as [_ Hx];
    eapply (proj1 (Forall_forall _ _) H); eauto.
Qed.

(** The standard deviation block never fails on valid pixels. *)
Lemma colourDeviation_runs ordered img lc ac bc :
  wfImage img -> Forall (fun p => 0 <= p < pixelCount img) ordered ->
  is_Some (colourDeviation ordered (Z.of_nat (length ordered)) img lc ac bc).
Proof.
  intros Hwf Hall. unfold colourDeviation.
  destruct (stdDevDivisor (Z.of_nat (length ordered))) as [d|]; [|done].
  destruct (for_upto_inv (fun _ _ => True) 0 (Z.of_nat (length ordered))
              (devBody ordered img lc ac bc) (0, 0, 0, 0)%float)
    as ([[[dl da] db] dev] & -> & _); [lia|done| |done].
  intros j [[[dl da] db] dev] Hj _.
  destruct (lookup_lt_is_Some_2 ordered (Z.to_nat j) ltac:(lia)) as [p Hp].
  assert (Hpr : 0 <= p < pixelCount img).
  { eapply (proj1 (Forall_lookup _ _) Hall); eauto. }
  destruct (wfImage_reads img p Hwf Hpr)
    as (_ & _ & _ & [l El] & [a Ea] & [b Eb]).
  unfold devBody, rd. zbool. rewrite Hp. simpl.
  unfold rd in El, Ea, Eb. rewrite El, Ea, Eb. simpl. eauto.
Qed.

(** The constructor succeeds on a list of valid pixels, and its pixel
    array holds the boundary pixels followed by the interior pixels. *)
Lemma Superpixel_ctor_spec l pxs labels img :
  wfImage img -> Z.of_nat (length labels) = pixelCount img ->
  Forall (fun p => 0 <= p < pixelCount img) pxs ->
  exists sp,
    Superpixel_ctor l pxs (Z.of_nat (length pxs)) labels img = Some sp
    /\ id sp = l
    /\ nPixels sp = Z.of_nat (length pxs)
    /\ allPx sp = boundaryPart labels img pxs ++ interiorPart labels img pxs
    /\ nBoundaryPixels sp = Z.of_nat (length (boundaryPart labels img pxs))
    /\ nInteriorPixels sp = Z.of_nat (length (interiorPart labels img pxs))
    /\ (stdDevDivisor (Z.of_nat (length pxs)) = None ->
        stdDevColor sp = 0%float /\ stdDevColorChannels sp = V3zero).
Proof.
  intros Hwf Hlab Hpxs. unfold Superpixel_ctor.
  destruct (sums_loop labels img pxs
              {| xc := 0; yc := 0; lc := 0; ac := 0; bc := 0;
                 redC := 0; greenC := 0; blueC := 0;
                 isBoundary := new_array (Z.of_nat (length pxs)) false;
                 nBoundary := 0 |}) as (s & -> & Hfl & HnB); try done.
  { simpl. unfold new_array. by rewrite Nat2Z.id. }
  simpl. rewrite Hfl, HnB.
  destruct (arrange_loop labels img pxs) as (ordered & bp & ip & -> & Hord).
  simpl.
  pose proof (parts_length labels img pxs) as Hparts.
  edestruct (colourDeviation_runs ordered img) as [[dev devC] Hdev];
    [exact Hwf| |].
  { subst ordered. by apply parts_valid. }
  replace (Z.of_nat (length ordered)) with (Z.of_nat (length pxs)) in Hdev
    by (subst ordered; rewrite length_app; lia).
  rewrite Hdev. simpl. eexists. split; [reflexivity|]. simpl.
  repeat apply conj; try done; try lia.
  intros Hnone. unfold colourDeviation in Hdev. rewrite Hnone in Hdev.
  split; congruence.
Qed.




(** C10. A superpixel built from exactly one pixel has a zero aggregate
    colour standard deviation and zero per-channel standard deviations:
    the constructor succeeds, the standard deviation block is skipped by
    its guard [nPixels > 1] (so for one pixel there is no divisor), and
    whenever the block runs its divisor [nPixels - 1] is positive. *)
Theorem single_pixel_deviation_zero l p labels img :
  wfImage img -> Z.of_nat (length labels) = pixelCount img ->
  0 <= p < pixelCount img ->
  (exists sp,
      Superpixel_ctor l [p] 1 labels img = Some sp
      /\ nPixels sp = 1
      /\ allPixels sp = [p]
      /\ standardColorDeviation sp = 0%float
      /\ standardColorDeviationChannels sp = V3zero
      /\ v3x (standardColorDeviationChannels sp) = 0%float
      /\ v3y (standardColorDeviationChannels sp) = 0%float
      /\ v3z (standardColorDeviationChannels sp) = 0%float)
  /\ stdDevDivisor 1 = None
  /\ (forall n d, stdDevDivisor n = Some d -> 1 < n /\ 0 < d).
Proof.
  intros Hwf Hlab Hp. split; [|split; [done|]].
  - destruct (Superpixel_ctor_spec l [p] labels img Hwf Hlab)
      as (sp & Hsp & _ & Hn & Hall & _ & _ & Hdev).
    { by constructor. }
    simpl in Hsp, Hn, Hdev. destruct (Hdev eq_refl) as [Hd Hc].
    exists sp. unfold standardColorDeviation, standardColorDeviationChannels.
    rewrite Hc. repeat split; try done.
    unfold allPixels. rewrite Hn, Hall.
    pose proof (parts_length labels img [p]) as Hlen.
    assert (Hone : boundaryPart labels img [p] ++ interiorPart labels img [p]
                   = [p]).
    { unfold boundaryPart, interiorPart.
      rewrite !filter_cons, !filter_nil.
      destruct (isBoundaryPixel labels img p); by repeat case_decide. }
    by rewrite Hone.
  - intros n d. unfold stdDevDivisor. destruct (Z.ltb_spec 1 n); [|done].
    intros [= <-]. lia.
Qed.

(** The one-pixel image, segmented into one superpixel. *)
Lemma single_pixel_deviation_zero_witness :
  (exists sp,
      Superpixel_ctor 0 [0] 1 [0] Examples.img11 = Some sp
      /\ nPixels sp = 1
      /\ allPixels sp = [0]
      /\ standardColorDeviation sp = 0%float
      /\ standardColorDeviationChannels sp = V3zero
      /\ v3x (standardColorDeviationChannels sp) = 0%float
      /\ v3y (standardColorDeviationChannels sp) = 0%float
      /\ v3z (standardColorDeviationChannels sp) = 0%float)
  /\ stdDevDivisor 1 = None
  /\ (forall n d, stdDevDivisor n = Some d -> 1 < n /\ 0 < d).
Proof.
  apply (single_pixel_deviation_zero 0 0 [0] Examples.img11).
  - repeat split; vm_compute; congruence.
  - reflexivity.
  - vm_compute. split; congruence.
Defined.

(** C9 (as the code has it). The shallow constructor hands the deleting
    duty to the new object and leaves the source non-owning: the source's
    destructor frees nothing and the new object's destructor frees what
    the source's would have freed. The source is not emptied: both objects
    keep the same three pointers and the same superpixel count. *)
Theorem shallow_transfer_aliases other :
  let new := fst (Superpixellation_shallow other) in
  let other' := snd (Superpixellation_shallow other) in
  Superpixellation_dtor other' = []
  /\ Superpixellation_dtor new = Superpixellation_dtor other
  /\ shareAll other' = true
  /\ superpixels new = superpixels other
  /\ Seg.img new = Seg.img other
  /\ superpixelLabels new = superpixelLabels other
  /\ superpixels other' = superpixels other
  /\ Seg.img other' = Seg.img other
  /\ superpixelLabels other' = superpixelLabels other
  /\ nSuperpixels other' = nSuperpixels other.
Proof. by repeat split. Qed.

(** After a shallow transfer from the one-superpixel segmentation, the
    source still holds its arrays: it is not an empty shell. *)
Lemma shallow_source_not_empty :
  ~ emptyShell (snd (Superpixellation_shallow Examples.seg11)).
Proof. intros (H & _). discriminate H. Qed.
End SegFacts.

(** ** The sticky failure flag and the gate of [output] *)

Module StickyFacts.
Import Qt Img Seg Alg Slic.

Lemma output_succeeds_iff a :
  fst (fst (fst (output a))) = true
  <-> finished a = true /\ failed a = false /\ outputIsEnabled a = true.
Proof.
  unfold output.
  destruct (finished a), (failed a), (outputIsEnabled a); simpl;
    intuition congruence.
Qed.

Lemma output_fails a :
  fst (fst (fst (output a))) = false -> output a = (false, None, None, a).
Proof.
  unfold output.
  destruct (negb (finished a) || failed a || negb (outputIsEnabled a));
    [done|discriminate].
Qed.

Lemma increment_refused s :
  failed (alg s) = true \/ finished (alg s) = true ->
  exists f status, increment s = Some (false, f, status, s).
Proof.
  unfold increment. intros [H|H].
  - rewrite H. eauto.
  - rewrite H. destruct (failed (alg s)); eauto.
Qed.

Lemma run_refused s n :
  failed (alg s) = true \/ finished (alg s) = true ->
  exists f status, run n s = Some (replicate n (false, f, status), s).
Proof.
  intros H. destruct (increment_refused s H) as (f & status & Hinc).
  exists f, status. induction n as [|n IH]; [done|].
  simpl. rewrite Hinc. simpl. by rewrite IH.
Qed.

(** C5 (as the code has it). After an [increment] that returned failure,
    every further [increment] fails and leaves the object as it is. If the
    failure left the failed flag set, [output] fails, returns no image and
    no vector data and changes nothing. The one failure that does not set
    the flag is the refusal to increment a finished object, which is left
    unchanged and whose output is available as for any finished object:
    [output] succeeds exactly when the object is finished, has not failed
    and has its output enabled, and otherwise returns no image and no
    vector data. *)
Theorem failure_sticky s f status s' :
  increment s = Some (false, f, status, s') ->
  (forall n, exists f' status',
      run n s' = Some (replicate n (false, f', status'), s'))
  /\ (failed (alg s') = true -> output (alg s') = (false, None, None, alg s'))
  /\ (failed (alg s') = false ->
      s' = s /\ finished (alg s) = true /\ f = Some true)
  /\ (forall a,
        (fst (fst (fst (output a))) = true
         <-> finished a = true /\ failed a = false
             /\ outputIsEnabled a = true)
        /\ (fst (fst (fst (output a))) = false ->
            output a = (false, None, None, a))).
Proof.
  intros Hinc.
  assert (Hcases : failed (alg s') = true
                   \/ (s' = s /\ finished (alg s) = true /\ f = Some true
                       /\ failed (alg s) = false)).
  { unfold increment in Hinc.
    destruct (failed (alg s)) eqn:Hf.
    { left. injection Hinc as _ _ <-. done. }
    destruct (finished (alg s)) eqn:Hfin.
    { right. injection Hinc as <- _ <-. done. }
    destruct (updateKAndProgress _ _ _) as [[incEnd st']|]; [|done].
    simpl in Hinc. destruct (runStage _ _) as [[status' s'']|]; [|done].
    simpl in Hinc. injection Hinc as Hr _ _ <-.
    left. by destruct (failed (alg s'')). }
  repeat apply conj.
  - intros n. apply run_refused.
    destruct Hcases as [H|(-> & H & _)]; auto.
  - intros Hf. apply output_fails. unfold output. rewrite Hf.
    by rewrite orb_true_r.
  - intros Hf. destruct Hcases as [H|(-> & H & Hf' & _)]; [congruence|done].
  - intros a. split; [apply output_succeeds_iff|apply output_fails].
Qed.

(** The finished generator refuses a further increment. *)
Lemma failure_sticky_witness :
  (forall n, exists f' status',
      run n Examples.done44
      = Some (replicate n (false, f', status'), Examples.done44))
  /\ (failed (alg Examples.done44) = true ->
      output (alg Examples.done44)
      = (false, None, None, alg Examples.done44))
  /\ (failed (alg Examples.done44) = false ->
      Examples.done44 = Examples.done44
      /\ finished (alg Examples.done44) = true /\ Some true = Some true)
  /\ (forall a,
        (fst (fst (fst (output a))) = true
         <-> finished a = true /\ failed a = false
             /\ outputIsEnabled a = true)
        /\ (fst (fst (fst (output a))) = false ->
            output a = (false, None, None, a))).
Proof.
  apply (failure_sticky Examples.done44 (Some true) CannotIncrementFinished
           Examples.done44).
  vm_compute. reflexivity.
Defined.

(** The generator that ran to the end on the 4 by 4 image is finished and
    has not failed: a further [increment] returns failure, and [output]
    then succeeds. *)
Lemma finished_refusal_does_not_gate_output :
  (exists log, run 56 Examples.init44 = Some (log, Examples.done44))
  /\ ~ Claimed.failureGatesOutput Examples.done44.
Proof.
  split.
  - eexists. vm_compute. reflexivity.
  - intros H.
    specialize (H (Some true) CannotIncrementFinished Examples.done44).
    assert (Hinc : increment Examples.done44
                   = Some (false, Some true, CannotIncrementFinished,
                           Examples.done44)) by (vm_compute; reflexivity).
    specialize (H Hinc). vm_compute in H. discriminate H.
Qed.

End StickyFacts.

(** ** The classification stage of the local-data filter *)

Module FilterFacts.
Import Qt Img Seg Alg Ldf Classification.

(** The constructor fixes the direction of the comparison by the basis. *)
Lemma ctor_selectBelowThreshold g b :
  selectBelowThreshold (ld (LocalDataFilter_ctor g b))
  = match basis (ld (LocalDataFilter_ctor g b)) with
    | SIZE => false
    | _ => true
    end.
Proof. done. Qed.

(** The inner loop writes the choice at every listed pixel and nowhere
    else. *)
Lemma foldM_markPixel choice l : forall flags,
  Forall (fun p => 0 <= p < Z.of_nat (length flags)) l ->
  exists flags',
    foldM (markPixel choice) l flags = Some flags'
    /\ length flags' = length flags
    /\ (forall q, q ∈ l -> rd flags' q = Some choice)
    /\ (forall q, q ∉ l -> rd flags' q = rd flags q).
Proof.
  induction l as [|p l IH]; intros flags Hall; simpl.
  - exists flags. repeat split; try done. intros q Hq. by inversion Hq.
  - inversion Hall as [|? ? Hp Hl]; subst.
    unfold markPixel in *. rewrite (wr_in_range flags p choice Hp). simpl.
    set (flags1 := <[Z.to_nat p := choice]> flags).
    assert (Hw : wr flags p choice = Some flags1) by by apply wr_in_range.
    destruct (IH flags1) as (flags' & Hrun & Hlen & Hin & Hout).
    { unfold flags1. by rewrite length_insert. }
    exists flags'. rewrite Hrun. split; [done|]. split.
    { rewrite Hlen. unfold flags1. apply length_insert. }
    split.
    + intros q Hq. destruct (decide (q ∈ l)) as [Hql|Hql]; [by apply Hin|].
      rewrite (Hout q Hql). apply elem_of_cons in Hq as [->|Hq]; [|done].
      by eapply rd_wr_eq.
    + intros q Hq. apply not_elem_of_cons in Hq as [Hne Hql].
      rewrite (Hout q Hql). eapply rd_wr_ne; eauto.
Qed.

Lemma filterBody_step f seg sps labels scores i f' :
  Seg.superpixels seg = Some sps ->
  superpixelScores (ld f) = Some scores ->
  length scores = length sps ->
  pixelListsMatchLabels sps labels ->
  0 <= i < Z.of_nat (length sps) ->
  classifiedUpTo f seg sps labels scores i f' ->
  exists f'', filterBody i f' = Some f''
              /\ classifiedUpTo f seg sps labels scores (i + 1) f''.
Proof.
  intros Hsps Hscores Hlen Hmatch Hi
    (Halg & Hld & Hseg & a & b & Ha & Hb & Hla & Hlb & Hsel & Hpx).
  destruct (Hmatch i Hi) as (sp & Hsp & Hlist).
  destruct (rd_in_range scores i ltac:(lia)) as [score Hscore].
  unfold filterBody, rdp, wrp.
  rewrite Hld, Hscores. simpl. rewrite Hscore. simpl.
  set (choice := choose _ score _).
  rewrite Ha. simpl. rewrite (wr_in_range a i choice ltac:(lia)). simpl.
  rewrite Hseg. simpl. rewrite Hsps. simpl. rewrite Hsp. simpl.
  rewrite Hb. simpl.
  assert (Hw : wr a i choice = Some (<[Z.to_nat i := choice]> a))
    by (apply wr_in_range; lia).
  destruct (foldM_markPixel choice (allPixels sp) b)
    as (b' & -> & Hlb' & Hin & Hout).
  { apply Forall_forall. intros p Hp. apply Hlist in Hp.
    apply rd_range in Hp. lia. }
  simpl. eexists. split; [reflexivity|].
  unfold classifiedUpTo. simpl.
  repeat apply conj; try done.
  exists (<[Z.to_nat i := choice]> a), b'. repeat apply conj; try done.
  - by rewrite length_insert.
  - lia.
  - intros j sc Hj Hsc. destruct (decide (j = i)) as [->|Hne].
    + rewrite (rd_wr_eq _ _ _ _ Hw). unfold choice. congruence.
    + rewrite (rd_wr_ne _ _ _ _ _ Hw) by done. apply Hsel; [lia|done].
  - intros p j Hp Hj. destruct (decide (j = i)) as [->|Hne].
    + rewrite (rd_wr_eq _ _ _ _ Hw). apply Hin. by apply Hlist.
    + rewrite (rd_wr_ne _ _ _ _ _ Hw) by done.
      rewrite Hout; [apply Hpx; [done|lia]|].
      intros Hp'. apply Hlist in Hp'. congruence.
Qed.

(** C6 (as the code has it). The classification stage, run over all the
    superpixels of a segmentation whose pixel lists agree with its label
    array, succeeds and leaves: for every superpixel [j], the flag
    [selectedSuperpixels[j]] set exactly when the score is strictly below
    the threshold on the standard deviation and external bases, and exactly
    when the score is at or above the threshold on the size basis; and for
    every pixel [p], [selectedPixels[p]] equal to the flag of the
    superpixel [labels[p]]. *)
Theorem filter_classification f seg sps labels scores selSp selPx :
  superpixellation (sf f) = Some seg ->
  Seg.superpixels seg = Some sps ->
  nSuperpixels seg = Z.of_nat (length sps) ->
  superpixelLabels seg = Some labels ->
  pixelListsMatchLabels sps labels ->
  superpixelScores (ld f) = Some scores -> length scores = length sps ->
  selectedSuperpixels (sf f) = Some selSp -> length selSp = length sps ->
  selectedPixels (sf f) = Some selPx -> length selPx = length labels ->
  selectBelowThreshold (ld f)
  = match basis (ld f) with SIZE => false | _ => true end ->
  k (ld f) = 0 ->
  exists f' selSp' selPx',
    filterSuperpixels (nSuperpixels seg) f = Some f'
    /\ k (ld f') = nSuperpixels seg
    /\ selectedSuperpixels (sf f') = Some selSp'
    /\ selectedPixels (sf f') = Some selPx'
    /\ (forall j score, rd scores j = Some score ->
          rd selSp' j
          = Some match basis (ld f) with
                 | SIZE => PrimFloat.leb (otsuThreshold (ld f)) score
                 | _ => PrimFloat.ltb score (otsuThreshold (ld f))
                 end)
    /\ (forall p j, rd labels p = Some j -> 0 <= j < nSuperpixels seg ->
          is_Some (rd selPx' p) /\ rd selPx' p = rd selSp' j).
Proof.
  intros Hseg Hsps Hn Hlab Hmatch Hscores Hls Ha Hla Hb Hlb Hbasis Hk.
  unfold filterSuperpixels. rewrite Hk, Hn.
  destruct (for_upto_inv (classifiedUpTo f seg sps labels scores)
              0 (Z.of_nat (length sps)) filterBody f)
    as (f' & -> & Halg & Hld & Hseg' & a & b & Ha' & Hb' & Hla' & Hlb'
        & Hsel & Hpx).
  - lia.
  - repeat apply conj; try done. exists selSp, selPx.
    repeat apply conj; try done; intros; lia.
  - intros j t Hj Ht. eapply filterBody_step; eauto.
  - simpl. eexists _, a, b. split; [reflexivity|]. simpl.
    repeat apply conj; try done.
    + unfold constant. lia.
    + intros j score Hscore. pose proof (rd_range _ _ _ Hscore) as Hj.
      rewrite (Hsel j score ltac:(lia) Hscore). f_equal.
      unfold choose. rewrite Hbasis. by destruct (basis (ld f)).
    + intros p j Hp Hj. split; [|apply Hpx; [done|lia]].
      apply rd_in_range. apply rd_range in Hp. lia.
Qed.

(** The two-pixel segmentation lists each pixel under its label. *)
Lemma seg21_lists_match :
  pixelListsMatchLabels
    [Superpixel_ctor 0 [0] 1 Examples.labels21 Examples.img21;
     Superpixel_ctor 1 [1] 1 Examples.labels21 Examples.img21]
    Examples.labels21.
Proof.
  assert (H0 : allPixels <$> Superpixel_ctor 0 [0] 1 Examples.labels21
                               Examples.img21 = Some [0])
    by (vm_compute; reflexivity).
  assert (H1 : allPixels <$> Superpixel_ctor 1 [1] 1 Examples.labels21
                               Examples.img21 = Some [1])
    by (vm_compute; reflexivity).
  destruct (Superpixel_ctor 0 [0] 1 _ _) as [sp0|]; [|done].
  destruct (Superpixel_ctor 1 [1] 1 _ _) as [sp1|]; [|done].
  injection H0 as H0. injection H1 as H1.
  intros j Hj. simpl in Hj.
  assert (Hcases : j = 0 \/ j = 1) by lia.
  destruct Hcases as [-> | ->]; eexists; (split; [reflexivity|]);
    intros p; rewrite ?H0, ?H1, list_elem_of_singleton;
    (split; [by intros ->|]); intros Hp;
    pose proof (rd_range _ _ _ Hp) as Hr; simpl in Hr;
    assert (Hp' : p = 0 \/ p = 1) by lia;
    destruct Hp' as [-> | ->]; done.
Qed.

(** The two-pixel filter on the standard deviation basis. *)
Lemma filter_classification_witness :
  exists f' selSp' selPx',
    filterSuperpixels (nSuperpixels Examples.seg21)
      (Examples.filter21 STDDEV_LSTAR) = Some f'
    /\ k (ld f') = nSuperpixels Examples.seg21
    /\ selectedSuperpixels (sf f') = Some selSp'
    /\ selectedPixels (sf f') = Some selPx'
    /\ (forall j score, rd [0.25; 0.75]%float j = Some score ->
          rd selSp' j
          = Some match basis (ld (Examples.filter21 STDDEV_LSTAR)) with
                 | SIZE =>
                     PrimFloat.leb
                       (otsuThreshold (ld (Examples.filter21 STDDEV_LSTAR)))
                       score
                 | _ =>
                     PrimFloat.ltb score
                       (otsuThreshold (ld (Examples.filter21 STDDEV_LSTAR)))
                 end)
    /\ (forall p j, rd Examples.labels21 p = Some j ->
          0 <= j < nSuperpixels Examples.seg21 ->
          is_Some (rd selPx' p) /\ rd selPx' p = rd selSp' j).
Proof.
  apply (filter_classification (Examples.filter21 STDDEV_LSTAR)
           Examples.seg21
           [Superpixel_ctor 0 [0] 1 Examples.labels21 Examples.img21;
            Superpixel_ctor 1 [1] 1 Examples.labels21 Examples.img21]
           Examples.labels21 [0.25; 0.75]%float
           [false; false] [false; false]);
    try reflexivity.
  exact seg21_lists_match.
Defined.

(** On the size basis the superpixel whose score equals the threshold is
    selected. *)
Lemma size_basis_selects_at_threshold :
  exists f',
    filterSuperpixels 2 (Examples.filter21 SIZE) = Some f'
    /\ ~ Claimed.sizeSelectsAbove (Examples.filter21 SIZE) f'.
Proof.
  eexists. split; [vm_compute; reflexivity|].
  intros H. specialize (H 1 0.75%float eq_refl).
  vm_compute in H. discriminate H.
Qed.

End FilterFacts.

(** ** Initialization of the local-data filter on the external basis *)

Module InitFacts.
Import Qt Img Seg Alg Ldf.

(** The generator accepts any image. *)
Lemma Slic_initialize_succeeds g i :
  exists g' freed,
    Slic.initialize g (Some i) = Some (true, g', freed)
    /\ failed (Slic.alg g') = false
    /\ input (Slic.alg g') = Some i.
Proof. unfold Slic.initialize. simpl. eauto. Qed.

(** C7. [LocalDataFilter::initialize] on the external basis, given a
    primary image and a selection map.  When the dimensions differ the call
    returns failure, deletes both images once each and changes nothing in
    the object but the failed flag, which it sets.  When the dimensions
    agree the call succeeds on an object whose failed flag is clear, and
    keeps the two images as input and selection map.  On an object whose
    failed flag is set (for instance by an earlier call with images of
    different sizes) the call fails whatever the images: the flag is tested
    before anything resets it, both images are deleted and the object is
    left as it was. *)
Theorem external_initialize f first second :
  basis (ld f) = EXTERNAL ->
  (((width first =? width second) && (height first =? height second)) = false ->
   initialize_images f [Some first; Some second]
   = Some (false, f {{ alg := (alg f) {{ failed := true }} }},
           [FreeImage first; FreeImage second]))
  /\ (failed (alg f) = true ->
      initialize_images f [Some first; Some second]
      = Some (false, f, [FreeImage first; FreeImage second]))
  /\ (failed (alg f) = false ->
      ((width first =? width second) && (height first =? height second)) = true ->
      is_Some (superpixelGenerator (sf f)) ->
      exists f' freed,
        initialize_images f [Some first; Some second] = Some (true, f', freed)
        /\ failed (alg f') = false
        /\ input (alg f') = Some first
        /\ selectionMap (ld f') = Some second).
Proof.
  intros Hb. unfold initialize_images. rewrite Hb. simpl.
  repeat apply conj.
  - intros Hsize.
    destruct (width first =? width second), (height first =? height second);
      try discriminate Hsize; reflexivity.
  - intros Hf.
    assert (Hsame : f {{ alg := (alg f) {{ failed := true }} }} = f).
    { destruct f as [a s l]. destruct a. simpl in *. by subst. }
    destruct (negb (width first =? width second)
              || negb (height first =? height second)); simpl.
    + do 3 f_equal. exact Hsame.
    + rewrite Hf. simpl. rewrite Hf. reflexivity.
  - intros Hf Hsize [g Hg].
    apply andb_prop in Hsize as [-> ->]. simpl. rewrite Hf. simpl.
    unfold SuperpixelFilter_initialize_images. simpl. rewrite Hg. simpl.
    eexists _, _. split; [reflexivity|]. simpl.
    by repeat apply conj.
Qed.

(** The filter that a call with a 2 by 1 image and a 1 by 1 map has left
    failed, called again with two 2 by 1 images. *)
Lemma external_initialize_witness :
  (((width Examples.img21 =? width Examples.img21)
    && (height Examples.img21 =? height Examples.img21)) = false ->
   initialize_images Examples.ldfAfterMismatch
     [Some Examples.img21; Some Examples.img21]
   = Some (false,
           Examples.ldfAfterMismatch
             {{ alg := (alg Examples.ldfAfterMismatch) {{ failed := true }} }},
           [FreeImage Examples.img21; FreeImage Examples.img21]))
  /\ (failed (alg Examples.ldfAfterMismatch) = true ->
      initialize_images Examples.ldfAfterMismatch
        [Some Examples.img21; Some Examples.img21]
      = Some (false, Examples.ldfAfterMismatch,
              [FreeImage Examples.img21; FreeImage Examples.img21]))
  /\ (failed (alg Examples.ldfAfterMismatch) = false ->
      ((width Examples.img21 =? width Examples.img21)
       && (height Examples.img21 =? height Examples.img21)) = true ->
      is_Some (superpixelGenerator (sf Examples.ldfAfterMismatch)) ->
      exists f' freed,
        initialize_images Examples.ldfAfterMismatch
          [Some Examples.img21; Some Examples.img21] = Some (true, f', freed)
        /\ failed (alg f') = false
        /\ input (alg f') = Some Examples.img21
        /\ selectionMap (ld f') = Some Examples.img21).
Proof.
  apply (external_initialize Examples.ldfAfterMismatch Examples.img21
           Examples.img21).
  reflexivity.
Defined.

(** A fresh filter accepts two 2 by 1 images; after a call with images of
    different sizes, the same filter refuses them and deletes them. *)
Lemma reinitialize_after_mismatch_fails :
  (exists f' freed,
      initialize_images Examples.ldfExternal
        [Some Examples.img21; Some Examples.img21] = Some (true, f', freed))
  /\ initialize_images Examples.ldfExternal
       [Some Examples.img21; Some Examples.img11]
     = Some (false, Examples.ldfAfterMismatch,
             [FreeImage Examples.img21; FreeImage Examples.img11])
  /\ initialize_images Examples.ldfAfterMismatch
       [Some Examples.img21; Some Examples.img21]
     = Some (false, Examples.ldfAfterMismatch,
             [FreeImage Examples.img21; FreeImage Examples.img21]).
Proof.
  split; [|split].
  - eexists _, _. vm_compute. reflexivity.
  - vm_compute. reflexivity.
  - vm_compute. reflexivity.
Qed.

End InitFacts.

(** ** Otsu's method *)

Module OtsuFacts.
Import Qt Img Seg Alg Ldf Histogram.















(** The loop on the two example histograms. *)
Lemma otsuBin_examples :
  otsuBin Examples.hist4 4 6 = Some 1
  /\ otsuBin Examples.histSingle 4 6 = Some 0.
Proof. split; vm_compute; reflexivity. Qed.

End OtsuFacts.

(** ** The counting sort of pixels into superpixels *)

Module SortFacts.
Import Qt Img Seg Sorting.

Lemma zseq_length lo n : length (zseq lo n) = n.
Proof. unfold zseq. by rewrite length_map, length_seq. Qed.

Lemma zseq_lookup lo n (i : nat) :
  (i < n)%nat -> zseq lo n !! i = Some (lo + Z.of_nat i).
Proof.
  intros Hi. unfold zseq. rewrite list_lookup_fmap.
  rewrite lookup_seq_lt by done. done.
Qed.

Lemma zseq_cons lo n : zseq lo (S n) = lo :: zseq (lo + 1) n.
Proof.
  unfold zseq. simpl. f_equal; [lia|].
  rewrite <- seq_shift, map_map. apply map_ext. intros a. lia.
Qed.

Lemma zseq_app lo n m :
  zseq lo (n + m) = zseq lo n ++ zseq (lo + Z.of_nat n) m.
Proof.
  revert lo. induction n as [|n IH]; intros lo.
  - simpl. f_equal. lia.
  - change (S n + m)%nat with (S (n + m)). rewrite !zseq_cons, IH.
    by replace (lo + 1 + Z.of_nat n) with (lo + Z.of_nat (S n)) by lia.
Qed.

Lemma zseq_S lo n : zseq lo (S n) = zseq lo n ++ [lo + Z.of_nat n].
Proof.
  replace (S n) with (n + 1)%nat by lia. rewrite zseq_app. simpl.
  unfold zseq. simpl. do 2 f_equal. lia.
Qed.

Lemma zseq_elem lo n p : p ∈ zseq lo n <-> lo <= p < lo + Z.of_nat n.
Proof.
  unfold zseq. rewrite list_elem_of_fmap. split.
  - intros (i & -> & Hi). apply elem_of_seq in Hi. lia.
  - intros Hp. exists (Z.to_nat (p - lo)). split; [lia|].
    apply elem_of_seq. lia.
Qed.

Lemma zseq_NoDup lo n : NoDup (zseq lo n).
Proof.
  unfold zseq. apply NoDup_fmap_2; [|apply NoDup_seq].
  intros a b. lia.
Qed.

Section Buckets.
Variable labels : list pxind.

Lemma pending_hit c i :
  0 <= i -> rd labels i = Some (Z.of_nat c) ->
  pending labels c i = S (pending labels c (i - 1)).
Proof.
  intros Hi Hl. unfold pending.
  replace (Z.to_nat (i + 1)) with (S (Z.to_nat i)) by lia.
  replace (Z.to_nat (i - 1 + 1)) with (Z.to_nat i) by lia.
  rewrite zseq_S, filter_app, length_app.
  replace (0 + Z.of_nat (Z.to_nat i)) with i by lia.
  rewrite filter_cons, filter_nil. case_decide; [simpl; lia|done].
Qed.

Lemma pending_miss c i :
  0 <= i -> rd labels i <> Some (Z.of_nat c) ->
  pending labels c i = pending labels c (i - 1).
Proof.
  intros Hi Hl. unfold pending.
  replace (Z.to_nat (i + 1)) with (S (Z.to_nat i)) by lia.
  replace (Z.to_nat (i - 1 + 1)) with (Z.to_nat i) by lia.
  rewrite zseq_S, filter_app, length_app.
  replace (0 + Z.of_nat (Z.to_nat i)) with i by lia.
  rewrite filter_cons, filter_nil. case_decide; [done|simpl; lia].
Qed.

Lemma pending_none c : pending labels c (-1) = 0%nat.
Proof. done. Qed.

Lemma pending_all c :
  pending labels c (Z.of_nat (length labels) - 1) = countOf labels c.
Proof.
  unfold pending, countOf, naiveBucket. do 3 f_equal. lia.
Qed.

Lemma pending_le c i :
  i < Z.of_nat (length labels) ->
  (pending labels c i <= countOf labels c)%nat.
Proof.
  intros Hi. unfold pending, countOf, naiveBucket.
  assert (E : zseq 0 (length labels)
              = zseq 0 (Z.to_nat (i + 1))
                ++ zseq (0 + Z.of_nat (Z.to_nat (i + 1)))
                     (length labels - Z.to_nat (i + 1)))
    by (rewrite <- zseq_app; f_equal; lia).
  rewrite E, filter_app, length_app. lia.
Qed.

(** The pixel that the scan places at [i] is the next of its bucket. *)
Lemma bucket_at c i :
  0 <= i -> rd labels i = Some (Z.of_nat c) ->
  naiveBucket labels (Z.of_nat c) !! pending labels c (i - 1) = Some i.
Proof.
  intros Hi Hl. pose proof (rd_range _ _ _ Hl) as Hr.
  unfold naiveBucket, pending.
  replace (Z.to_nat (i - 1 + 1)) with (Z.to_nat i) by lia.
  assert (E : zseq 0 (length labels)
              = zseq 0 (Z.to_nat i)
                ++ zseq i (S (length labels - Z.to_nat i - 1))).
  { replace i with (0 + Z.of_nat (Z.to_nat i)) at 2 by lia.
    rewrite <- zseq_app. f_equal. lia. }
  rewrite E, filter_app, zseq_cons, filter_cons.
  case_decide; [|done].
  rewrite lookup_app_r by lia. by rewrite Nat.sub_diag.
Qed.

Lemma startOf_S c :
  startOf labels (S c) = (startOf labels c + countOf labels c)%nat.
Proof.
  unfold startOf, bucketsUpTo, countOf.
  rewrite seq_S, map_app, concat_app, length_app. simpl.
  rewrite app_nil_r. done.
Qed.

Lemma startOf_mono c c' :
  (c <= c')%nat -> (startOf labels c <= startOf labels c')%nat.
Proof.
  induction 1 as [|c' Hle IH]; [done|]. rewrite startOf_S. lia.
Qed.

Lemma bucketsUpTo_S c :
  bucketsUpTo labels (S c)
  = bucketsUpTo labels c ++ naiveBucket labels (Z.of_nat c).
Proof.
  unfold bucketsUpTo. rewrite seq_S, map_app, concat_app. simpl.
  by rewrite app_nil_r.
Qed.

Lemma labelledBelow_S c p :
  labelledBelow labels (S c) p
  = labelledBelow labels c p
    || bool_decide (rd labels p = Some (Z.of_nat c)).
Proof.
  unfold labelledBelow. destruct (rd labels p) as [l|]; [|done].
  case_bool_decide as E.
  - injection E as ->. rewrite orb_true_r.
    apply andb_true_intro. split; [apply Z.leb_le|apply Z.ltb_lt]; lia.
  - rewrite orb_false_r. f_equal.
    destruct (Z.ltb_spec l (Z.of_nat (S c))), (Z.ltb_spec l (Z.of_nat c));
      try lia; try done.
    exfalso. apply E. f_equal. lia.
Qed.

Lemma buckets_filter_perm c (l : list pxind) :
  concat (map (fun j => filter (fun p => rd labels p = Some (Z.of_nat j)) l)
              (seq 0 c))
  ≡ₚ filter (fun p => Is_true (labelledBelow labels c p)) l.
Proof.
  induction c as [|c IH].
  - simpl. induction l as [|x l IHl]; [done|].
    rewrite filter_cons. case_decide as E; [|done].
    unfold labelledBelow in E. destruct (rd labels x) as [y|]; [|done].
    apply Is_true_true in E. apply andb_prop in E as [E1 E2].
    apply Z.leb_le in E1. apply Z.ltb_lt in E2. lia.
  - rewrite seq_S, map_app, concat_app, IH. simpl. rewrite app_nil_r.
    clear IH. induction l as [|x l IHl]; [done|].
    rewrite !filter_cons, labelledBelow_S.
    destruct (labelledBelow labels c x) eqn:Eb.
    + assert (Hne : rd labels x <> Some (Z.of_nat c)).
      { unfold labelledBelow in Eb. intros E. rewrite E in Eb.
        apply andb_prop in Eb as [_ Eb]. apply Z.ltb_lt in Eb. lia. }
      repeat case_decide; try done; simpl; by rewrite ?IHl.
    + simpl. case_bool_decide as E; repeat case_decide; try done.
      rewrite <- IHl. by rewrite Permutation_middle.
Qed.

(** The buckets, concatenated in label order, hold every pixel once. *)
Lemma buckets_perm K :
  validLabels labels K ->
  bucketsUpTo labels K ≡ₚ zseq 0 (length labels).
Proof.
  intros Hvalid. unfold bucketsUpTo, naiveBucket.
  rewrite buckets_filter_perm.
  assert (Hall : forall l : list pxind,
             Forall (fun p => 0 <= p < Z.of_nat (length labels)) l ->
             filter (fun p => Is_true (labelledBelow labels K p)) l = l).
  { induction l as [|x l IHl]; [done|]. intros Hl.
    inversion Hl as [|? ? Hx Hl']; subst.
    rewrite filter_cons, (IHl Hl'). case_decide as E; [done|].
    exfalso. apply E. unfold labelledBelow.
    destruct (rd_in_range labels x Hx) as [y Hy]. rewrite Hy.
    assert (Hy' : 0 <= y < Z.of_nat K).
    { apply rd_Some in Hy as [_ Hy].
      eapply (proj1 (Forall_lookup _ _) Hvalid); eauto. }
    apply Is_true_true, andb_true_intro.
    split; [apply Z.leb_le|apply Z.ltb_lt]; lia. }
  rewrite Hall; [done|].
  apply Forall_forall. intros p Hp. apply zseq_elem in Hp. lia.
Qed.

Lemma startOf_total K :
  validLabels labels K -> startOf labels K = length labels.
Proof.
  intros Hvalid. unfold startOf.
  by rewrite (buckets_perm K Hvalid), zseq_length.
Qed.

(** A bucket lists its pixels in ascending order. *)
Lemma bucket_ascending c :
  StronglySorted Z.lt (naiveBucket labels c).
Proof.
  unfold naiveBucket. generalize (length labels) as n. generalize 0 as lo.
  intros lo n. revert lo. induction n as [|n IH]; intros lo.
  - constructor.
  - rewrite zseq_cons, filter_cons.
    case_decide; [|apply IH]. constructor; [apply IH|].
    apply Forall_forall. intros p Hp.
    apply list_elem_of_filter in Hp as [_ Hp]. apply zseq_elem in Hp. lia.
Qed.

End Buckets.

Import Slic.

(** The prefix sums: every offset is set to the end of its bucket. *)
Lemma prefixOffsets_spec s labels counts offs0 K :
  (1 <= K)%nat -> kParam s = Z.of_nat K ->
  nPixelsPerCluster s = Some counts -> countsMatch labels counts K ->
  pixelSortingOffsets s = Some offs0 -> length offs0 = K ->
  exists offs,
    prefixOffsets s = Some (s {{ pixelSortingOffsets := Some offs }})
    /\ length offs = K
    /\ forall c, (c < K)%nat ->
         offs !! c = Some (Z.of_nat (startOf labels (Datatypes.S c))).
Proof.
  intros HK Hk Hcounts [Hlc Hmatch] Hoffs Hlo.
  unfold prefixOffsets. rewrite Hcounts, Hoffs, Hk. simpl.
  pose proof (rd_nat counts 0) as Hc0.
  rewrite (Hmatch 0%nat) in Hc0 by lia.
  change (Z.of_nat 0) with 0 in Hc0. rewrite Hc0. simpl.
  rewrite wr_in_range by lia. simpl.
  destruct (for_upto_inv
    (fun i (acc : list pxind * list pxind) =>
       fst acc = counts /\ length (snd acc) = K
       /\ forall c, (Z.of_nat c < i) ->
            snd acc !! c = Some (Z.of_nat (startOf labels (Datatypes.S c))))
    1 (Z.of_nat K) offsetsBody
    (counts, <[Z.to_nat 0 := Z.of_nat (countOf labels 0)]> offs0))
    as ([counts' offs] & -> & Hc' & Hlen & Hall).
  - lia.
  - simpl. split; [done|]. split; [by rewrite length_insert|].
    intros c Hc. assert (c = 0%nat) as -> by lia.
    rewrite list_lookup_insert_eq by lia. by rewrite startOf_S.
  - intros i [cs os] Hi (Hcs & Hlos & Hprev). simpl in *. subst cs.
    unfold offsetsBody.
    rewrite (rd_to_nat counts i), (Hmatch (Z.to_nat i)) by lia. simpl.
    rewrite (rd_to_nat os (i - 1)), (Hprev (Z.to_nat (i - 1))) by lia. simpl.
    rewrite wr_in_range by lia. simpl.
    eexists. split; [reflexivity|]. simpl.
    split; [done|]. split; [by rewrite length_insert|].
    intros c Hc. destruct (decide (c = Z.to_nat i)) as [->|Hne].
    + rewrite list_lookup_insert_eq by lia. f_equal.
      rewrite (startOf_S _ (Z.to_nat i)).
      replace (Datatypes.S (Z.to_nat (i - 1))) with (Z.to_nat i) by lia. lia.
    + rewrite list_lookup_insert_ne by done. apply Hprev. lia.
  - simpl in *. exists offs. split; [done|]. split; [done|].
    intros c Hc. apply Hall. lia.
Qed.

(** One step of the descending scan. *)
Lemma sortBody_step s labels K i s' :
  clusterLabels s = Some labels -> validLabels labels K ->
  0 <= i < Z.of_nat (length labels) ->
  scanned s labels K i s' ->
  exists s'', sortBody i s' = Some s'' /\ scanned s labels K (i - 1) s''.
Proof.
  intros Hlabels Hvalid Hi (offs & sorted & Hs' & Hlo & Hls & Hoffs & Hsorted).
  assert (Hf1 : clusterLabels s' = Some labels) by (by subst s').
  assert (Hf2 : pixelSortingOffsets s' = Some offs) by (by subst s').
  assert (Hf3 : sortedPixels s' = Some sorted) by (by subst s').
  destruct (rd_in_range labels i Hi) as [l Hl].
  assert (Hlr : 0 <= l < Z.of_nat K).
  { apply rd_Some in Hl as [_ Hl].
    eapply (proj1 (Forall_lookup _ _) Hvalid); eauto. }
  set (c := Z.to_nat l).
  assert (Hlc : l = Z.of_nat c) by lia. rewrite Hlc in Hl.
  assert (HcK : (c < K)%nat) by lia.
  pose proof (pending_hit labels c i ltac:(lia) Hl) as Hhit.
  pose proof (pending_le labels c i ltac:(lia)) as Hple.
  pose proof (startOf_S labels c) as HS.
  pose proof (startOf_mono labels (Datatypes.S c) K ltac:(lia)) as Hmono.
  pose proof (startOf_total labels K Hvalid) as Htotal.
  set (idx := (startOf labels c + pending labels c (i - 1))%nat).
  unfold sortBody, rdp, wrp. rewrite Hf1, Hf2, Hf3. simpl.
  rewrite Hl. simpl.
  replace (Z.of_nat c =? SUPERPIXELLATION_NONE_LABEL) with false
    by (symmetry; apply Z.eqb_neq; unfold SUPERPIXELLATION_NONE_LABEL; lia).
  rewrite (rd_nat offs c), (Hoffs c HcK). simpl.
  rewrite wr_in_range by lia. simpl.
  rewrite wr_in_range by lia. simpl.
  eexists. split; [reflexivity|].
  exists (<[c := Z.of_nat idx]> offs), (<[idx := i]> sorted).
  split.
  { rewrite Nat2Z.id.
    replace (Z.of_nat (startOf labels c + pending labels c i) - 1)
      with (Z.of_nat idx) by (unfold idx; lia).
    rewrite Nat2Z.id. by subst s'. }
  split; [by rewrite length_insert|]. split; [by rewrite length_insert|].
  split.
  - intros c' Hc'. destruct (decide (c' = c)) as [->|Hne].
    + rewrite list_lookup_insert_eq by lia. done.
    + rewrite list_lookup_insert_ne by done. rewrite (Hoffs c' Hc').
      rewrite (pending_miss labels c' i) by (try lia; rewrite Hl; intros [=]; lia).
      done.
  - intros c' j Hc' Hj. destruct (decide (c' = c)) as [->|Hne].
    + destruct (decide (j = pending labels c (i - 1))) as [->|Hnj].
      * fold idx. rewrite list_lookup_insert_eq by lia.
        symmetry. by apply bucket_at; [lia|].
      * rewrite list_lookup_insert_ne by (unfold idx; lia).
        apply Hsorted; [done|lia].
    + pose proof (pending_miss labels c' i ltac:(lia)
                    ltac:(rewrite Hl; intros [=]; lia)) as Hmiss.
      pose proof (startOf_S labels c') as HS'.
      rewrite list_lookup_insert_ne; [apply Hsorted; [done|lia]|].
      unfold idx. destruct (decide (c < c')%nat).
      * pose proof (startOf_mono labels (Datatypes.S c) c' ltac:(lia)). lia.
      * pose proof (startOf_mono labels (Datatypes.S c') c ltac:(lia)). lia.
Qed.

(** A chunk of the scan, from the current [k] down to [e]. *)
Lemma sort_chunk s labels K e s' :
  clusterLabels s = Some labels -> validLabels labels K ->
  0 <= e <= k s' + 1 -> k s' < Z.of_nat (length labels) ->
  scanned s labels K (k s') s' ->
  exists s'',
    sortPixelsIntoSuperpixels e s' = Some s''
    /\ k s'' = e - 1
    /\ scanned (s {{ k := e - 1 }}) labels K (e - 1) s''.
Proof.
  intros Hlabels Hvalid He Hk Hscan. unfold sortPixelsIntoSuperpixels.
  destruct (for_down_inv (scanned s labels K)
              (Z.to_nat (k s' - e + 1)) (k s') sortBody s' Hscan)
    as (s2 & -> & Hs2).
  { intros j t Hj Ht. eapply sortBody_step; eauto. lia. }
  simpl. eexists. split; [reflexivity|].
  replace (k s' - Z.of_nat (Z.to_nat (k s' - e + 1))) with (e - 1)
    in Hs2 by lia.
  split; [simpl; unfold constant; lia|].
  destruct Hs2 as (offs & sorted & -> & Hrest).
  exists offs, sorted. split; [|done].
  simpl. unfold constant.
  replace (Z.min (k s') (e - 1)) with (e - 1) by lia. done.
Qed.

(** When the scan has passed pixel 0 the sorted array is the concatenation
    of the buckets and every offset is the start of its bucket. *)
Lemma scanned_all s labels K s' :
  validLabels labels K -> scanned s labels K (-1) s' ->
  s' = s {{ pixelSortingOffsets :=
              Some (map (fun c => Z.of_nat (startOf labels c)) (seq 0 K));
            sortedPixels := Some (bucketsUpTo labels K) }}.
Proof.
  intros Hvalid (offs & sorted & -> & Hlo & Hls & Hoffs & Hsorted).
  assert (Ho : offs = map (fun c => Z.of_nat (startOf labels c)) (seq 0 K)).
  { apply list_eq. intros c. destruct (decide (c < K)%nat) as [Hc|Hc].
    - rewrite (Hoffs c Hc), pending_none, list_lookup_fmap.
      rewrite lookup_seq_lt by done. simpl. do 2 f_equal. lia.
    - rewrite !lookup_ge_None_2; [done| |lia].
      rewrite length_map, length_seq. lia. }
  assert (Hs : sorted = bucketsUpTo labels K).
  { assert (Hpre : forall c, (c <= K)%nat ->
               take (startOf labels c) sorted = bucketsUpTo labels c).
    { induction c as [|c IH]; intros Hc; [done|].
      rewrite startOf_S, bucketsUpTo_S, <- take_take_drop, IH by lia.
      f_equal. apply list_eq. intros j.
      destruct (decide (j < countOf labels c)%nat) as [Hj|Hj].
      - rewrite lookup_take_lt, lookup_drop by done.
        apply Hsorted; [lia|]. rewrite pending_none. lia.
      - rewrite lookup_take_ge by lia.
        symmetry. apply lookup_ge_None_2. unfold countOf in Hj. lia. }
    rewrite <- (Hpre K) by done.
    rewrite (startOf_total labels K Hvalid), <- Hls. symmetry.
    apply firstn_all. }
  by rewrite Ho, Hs.
Qed.

Lemma bucketsUpTo_take labels c K :
  (c <= K)%nat ->
  take (startOf labels c) (bucketsUpTo labels K) = bucketsUpTo labels c.
Proof.
  induction 1 as [|K Hle IH].
  - unfold startOf. apply firstn_all.
  - rewrite bucketsUpTo_S, take_app_le; [done|].
    apply (startOf_mono labels c K). lia.
Qed.

Lemma bucketsUpTo_slice labels c K :
  (c < K)%nat ->
  slice (bucketsUpTo labels K) (Z.of_nat (startOf labels c))
        (Z.of_nat (countOf labels c))
  = naiveBucket labels (Z.of_nat c).
Proof.
  intros Hc. unfold slice. rewrite !Nat2Z.id, take_drop_commute.
  rewrite <- startOf_S, (bucketsUpTo_take labels (Datatypes.S c) K) by lia.
  rewrite bucketsUpTo_S. unfold startOf. apply drop_app_length.
Qed.

(** C3. The counting sort.  From a label array whose labels name one of
    [K >= 1] clusters and cluster sizes that are the per-label pixel
    counts, the prefix sums followed by the descending scan, run in one
    piece or cut at any pixel [e] into two increments, succeed and leave:
    [sortedPixels] equal to the buckets of a pixel-by-pixel scan
    concatenated in label order, [pixelSortingOffsets[c]] at the start of
    bucket [c], so that the slice of cluster [c] is its bucket; every pixel
    index exactly once in the sorted array; and every bucket in ascending
    pixel order. *)
Theorem counting_sort s labels counts offs0 sorted0 K e :
  (1 <= K)%nat -> kParam s = Z.of_nat K ->
  clusterLabels s = Some labels -> validLabels labels K ->
  nPixelsPerCluster s = Some counts -> countsMatch labels counts K ->
  pixelSortingOffsets s = Some offs0 -> length offs0 = K ->
  sortedPixels s = Some sorted0 -> length sorted0 = length labels ->
  k s = Z.of_nat (length labels) - 1 ->
  0 <= e <= Z.of_nat (length labels) ->
  let sorted := bucketsUpTo labels K in
  let offs := map (fun c => Z.of_nat (startOf labels c)) (seq 0 K) in
  let final := s {{ pixelSortingOffsets := Some offs;
                    sortedPixels := Some sorted; k := -1 }} in
  (s1 ← prefixOffsets s; sortPixelsIntoSuperpixels 0 s1) = Some final
  /\ (s1 ← prefixOffsets s; s2 ← sortPixelsIntoSuperpixels e s1;
      sortPixelsIntoSuperpixels 0 s2) = Some final
  /\ (forall c, (c < K)%nat ->
        slice sorted (Z.of_nat (startOf labels c))
              (Z.of_nat (countOf labels c))
        = naiveBucket labels (Z.of_nat c))
  /\ sorted ≡ₚ zseq 0 (length labels)
  /\ NoDup sorted
  /\ (forall c, StronglySorted Z.lt (naiveBucket labels c)).
Proof.
  intros HK Hk Hlabels Hvalid Hcounts Hmatch Hoffs Hlo Hsorted Hls Hks He.
  intros sorted offs final.
  destruct (prefixOffsets_spec s labels counts offs0 K HK Hk Hcounts Hmatch
              Hoffs Hlo) as (offs1 & Hprefix & Hlo1 & Hends).
  set (s1 := s {{ pixelSortingOffsets := Some offs1 }}) in *.
  assert (Hscan : scanned s labels K (k s1) s1).
  { exists offs1, sorted0. split.
    { unfold s1. destruct s. simpl in *. by subst. }
    split; [done|]. split; [done|]. split.
    - intros c Hc. rewrite (Hends c Hc), startOf_S. do 3 f_equal.
      change (k s1) with (k s). rewrite Hks. symmetry. apply pending_all.
    - intros c j Hc Hj. change (k s1) with (k s) in Hj.
      rewrite Hks, pending_all in Hj. lia. }
  assert (Hfinal : forall s3 i,
             scanned (s {{ k := i }}) labels K (-1) s3 ->
             k s3 = -1 -> s3 = final).
  { intros s3 i Hs3 Hk3.
    rewrite (scanned_all _ labels K s3 Hvalid Hs3) in *.
    simpl in Hk3. unfold constant in Hk3. subst i. done. }
  rewrite Hprefix. cbn [mbind option_bind].
  split; [|split].
  - destruct (sort_chunk s labels K 0 s1 Hlabels Hvalid)
      as (s3 & -> & Hk3 & Hs3); [change (k s1) with (k s); lia..|done|].
    f_equal. by eapply Hfinal.
  - destruct (sort_chunk s labels K e s1 Hlabels Hvalid)
      as (s2 & -> & Hk2 & Hs2); [change (k s1) with (k s); lia..|done|].
    cbn [mbind option_bind].
    assert (Hs2' : scanned (s {{ k := e - 1 }}) labels K (k s2) s2)
      by (rewrite Hk2; exact Hs2).
    pose (sk := s {{ k := e - 1 }}).
    destruct (sort_chunk sk labels K 0 s2 Hlabels Hvalid)
      as (s3 & -> & Hk3 & Hs3); [lia..|exact Hs2'|].
    f_equal. by eapply Hfinal.
  - split; [|split; [|split]].
    + intros c Hc. by apply bucketsUpTo_slice.
    + by apply buckets_perm.
    + unfold sorted. rewrite (buckets_perm labels K Hvalid).
      apply zseq_NoDup.
    + intros c. apply bucket_ascending.
Qed.

(** The sorting stage of the run on the 4 by 4 image, cut at pixel 8. *)
Lemma counting_sort_witness :
  let sorted := bucketsUpTo Examples.labels44 4 in
  let offs :=
    map (fun c => Z.of_nat (startOf Examples.labels44 c)) (seq 0 4) in
  let final :=
    Examples.beforeSort44 {{ pixelSortingOffsets := Some offs;
                             sortedPixels := Some sorted; k := -1 }} in
  (s1 ← prefixOffsets Examples.beforeSort44;
   sortPixelsIntoSuperpixels 0 s1) = Some final
  /\ (s1 ← prefixOffsets Examples.beforeSort44;
      s2 ← sortPixelsIntoSuperpixels 8 s1;
      sortPixelsIntoSuperpixels 0 s2) = Some final
  /\ (forall c, (c < 4)%nat ->
        slice sorted (Z.of_nat (startOf Examples.labels44 c))
              (Z.of_nat (countOf Examples.labels44 c))
        = naiveBucket Examples.labels44 (Z.of_nat c))
  /\ sorted ≡ₚ zseq 0 (length Examples.labels44)
  /\ NoDup sorted
  /\ (forall c, StronglySorted Z.lt (naiveBucket Examples.labels44 c)).
Proof.
  apply (counting_sort Examples.beforeSort44 Examples.labels44 [9; 3; 3; 1]
           [0; 0; 0; 0] (replicate 16 0) 4 8).
  - lia.
  - vm_compute. reflexivity.
  - vm_compute. reflexivity.
  - apply (bool_decide_unpack _). vm_compute. exact I.
  - vm_compute. reflexivity.
  - split; [reflexivity|].
    intros [|[|[|[|c]]]] Hc; try (vm_compute; reflexivity). lia.
  - vm_compute. reflexivity.
  - reflexivity.
  - vm_compute. reflexivity.
  - reflexivity.
  - vm_compute. reflexivity.
  - simpl. lia.
Defined.

End SortFacts.

(** ** The superpixels of a finished run *)

Module PartitionFacts.
Import Qt Img Seg Sorting Finalization SegFacts SortFacts.






Import Slic.






End PartitionFacts.

(** ** What the stage bodies leave alone *)

Module StageFacts.
Import Qt Img Seg Alg Slic Control.

(** One layer of a computation in the option monad that has succeeded. *)
Ltac unbind H :=
  match type of H with
  | Some _ = Some _ => injection H as H
  | (match ?x with _ => _ end) = Some _ =>
      let E := fresh "E" in destruct x eqn:E; try discriminate H
  | (if ?x then _ else _) = Some _ =>
      let E := fresh "E" in destruct x eqn:E; try discriminate H
  | (mbind _ ?x) = Some _ =>
      let E := fresh "E" in
      destruct x eqn:E; cbn [mbind option_bind] in H; try discriminate H
  end.

Ltac unbinds H := cbn [mbind option_bind] in H; repeat unbind H.

Lemma stageLoop_frame endK body s s' :
  (forall j t t', body j t = Some t' -> control t' = control t) ->
  stageLoop endK body s = Some s' ->
  control s' = control s /\ k s' = Z.max (k s) endK.
Proof.
  intros Hbody H. unfold stageLoop in H. unbinds H. subst s'.
  split; [|done].
  change (control s0 = control s).
  eapply (for_loop_preserves (fun t => control t = control s)); eauto.
  intros j t t' Ht Hc. rewrite <- Hc. eauto.
Qed.

Lemma labelPixel_frame img c i ki s s' :
  labelPixel img c i ki s = Some s' -> control s' = control s.
Proof. intros H. unfold labelPixel in H. unbinds H; by subst. Qed.

Lemma labelBody_frame img i s s' :
  labelBody img i s = Some s' -> control s' = control s.
Proof.
  intros H. unfold labelBody in H. unbinds H.
  eapply (foldM_preserves (fun t => control t = control s)); eauto.
  intros x t t' Ht Hc. rewrite <- Hc. by eapply labelPixel_frame.
Qed.

Lemma updateBody_frame img i s s' :
  updateBody img i s = Some s' -> control s' = control s.
Proof. intros H. unfold updateBody in H. unbinds H; by subst. Qed.

Lemma residualBody_frame first i s s' :
  residualBody first i s = Some s' -> control s' = control s.
Proof. intros H. unfold residualBody in H. unbinds H; by subst. Qed.

Lemma seedBody_frame img g i s s' :
  seedBody img g i s = Some s' -> control s' = control s.
Proof. intros H. unfold seedBody in H. unbinds H; by subst. Qed.

Lemma allocateSearchWindow_frame g s :
  control (allocateSearchWindow g s) = control s
  /\ k (allocateSearchWindow g s) = k s.
Proof. unfold allocateSearchWindow. by destruct (clusterSearchWindow s). Qed.

Lemma visitNeighbour_frame l nb c s c' s' :
  visitNeighbour l nb (c, s) = Some (c', s') -> control s' = control s.
Proof. intros H. unfold visitNeighbour in H. unbinds H; by subst. Qed.

Lemma componentBody_frame img i loc s loc' s' :
  componentBody img i (loc, s) = Some (loc', s') -> control s' = control s.
Proof.
  intros H. unfold componentBody in H. unbinds H; subst.
  assert (H0 : control s0 = control s).
  { destruct b; unbinds E4; by simplify_eq. }
  assert (H1 : control s1 = control s0).
  { refine (foldM_preserves
              (fun a : pxind * SlicState => control (snd a) = control s0)
              _ _ _ _ _ E9 eq_refl).
    intros x [c0 t] [c1 t'] Ht Hc. simpl in *. rewrite <- Hc.
    by eapply visitNeighbour_frame. }
  by transitivity (control s1); [|transitivity (control s0)].
Qed.

Lemma pair_loop_frame {L : Type} (body : pxind -> L * SlicState -> option (L * SlicState))
  n i loc s loc' s' :
  (forall j l t l' t', body j (l, t) = Some (l', t') -> control t' = control t) ->
  for_loop n i body (loc, s) = Some (loc', s') -> control s' = control s.
Proof.
  intros Hbody H.
  refine (for_loop_preserves
            (fun a : L * SlicState => control (snd a) = control s)
            _ _ _ _ _ _ H eq_refl).
  intros j [l t] [l' t'] Ht Hc. simpl in *. rewrite <- Hc. by eapply Hbody.
Qed.

Lemma labelConnectedComponents_frame img e s s' :
  labelConnectedComponents img e s = Some s' -> control s' = control s.
Proof.
  intros H. unfold labelConnectedComponents in H. unbinds H. subst.
  match goal with
  | E : for_upto _ _ _ (_, _) = Some (_, ?t) |- _ =>
      change (control t = control s); eapply pair_loop_frame; [|exact E]
  end.
  intros j ? t ? t'. apply componentBody_frame.
Qed.

Lemma classifyBody_frame i item s item' s' :
  classifyBody i (item, s) = Some (item', s') -> control s' = control s.
Proof. intros H. unfold classifyBody in H. unbinds H; by simplify_eq. Qed.

Lemma classifyConnectedComponents_frame e s s' :
  classifyConnectedComponents e s = Some s' -> control s' = control s.
Proof.
  intros H. unfold classifyConnectedComponents in H. unbinds H. subst.
  match goal with
  | E : for_upto _ _ _ (_, _) = Some (_, ?t) |- _ =>
      change (control t = control s); eapply pair_loop_frame; [|exact E]
  end.
  intros j ? t ? t'. apply classifyBody_frame.
Qed.

(** Chains of frame equations. *)
Ltac chain :=
  repeat match goal with
  | H : Some _ = Some _ |- _ => injection H as H
  | H : (_, _) = (_, _) |- _ => injection H as ? H
  end;
  subst;
  solve [ repeat first [ reflexivity | (etransitivity; [eassumption|]) ] ].

Lemma searchNeighbours_frame i nbs : forall s d s',
  searchNeighbours i nbs s = Some (d, s') -> control s' = control s.
Proof.
  induction nbs as [|nb rest IH]; intros s d s' H; simpl in H.
  - by simplify_eq.
  - unbinds H; try (by simplify_eq); apply IH in H; chain.
Qed.

Lemma searchLoop_frame img i fuel : forall loc s loc' s',
  searchLoop fuel img i loc s = Some (loc', s') -> control s' = control s.
Proof.
  induction fuel as [|fuel IH]; intros loc s loc' s' H; simpl in H; [done|].
  unbinds H; try apply IH in H;
    repeat match goal with
    | E : searchNeighbours _ _ _ = Some _ |- _ =>
        apply searchNeighbours_frame in E
    end; chain.
Qed.

Lemma unvisit_frame fuel : forall n s n' s',
  unvisit fuel n s = Some (n', s') -> control s' = control s.
Proof.
  induction fuel as [|fuel IH]; intros n s n' s' H; simpl in H.
  - by simplify_eq.
  - unbinds H; try apply IH in H; chain.
Qed.

Lemma reassignBody_frame img i loc s loc' s' :
  reassignBody img i (loc, s) = Some (loc', s') -> control s' = control s.
Proof.
  intros H. unfold reassignBody in H. unbinds H;
    repeat match goal with
    | E : searchLoop _ _ _ _ _ = Some _ |- _ => apply searchLoop_frame in E
    | E : unvisit _ _ _ = Some _ |- _ => apply unvisit_frame in E
    end; chain.
Qed.

Lemma reassignConnectedComponents_frame img e s s' :
  reassignConnectedComponents img e s = Some s' -> control s' = control s.
Proof.
  intros H. unfold reassignConnectedComponents in H. unbinds H. subst.
  match goal with
  | E : for_upto _ _ _ (_, _) = Some (_, ?t) |- _ =>
      change (control t = control s); eapply pair_loop_frame; [|exact E]
  end.
  intros j ? t ? t'. apply reassignBody_frame.
Qed.

Lemma prefixOffsets_frame s s' :
  prefixOffsets s = Some s' -> control s' = control s /\ k s' = k s.
Proof. intros H. unfold prefixOffsets in H. unbinds H. by subst. Qed.

Lemma sortBody_frame i s s' :
  sortBody i s = Some s' -> control s' = control s.
Proof. intros H. unfold sortBody in H. unbinds H; by subst. Qed.

Lemma sortPixelsIntoSuperpixels_frame e s s' :
  sortPixelsIntoSuperpixels e s = Some s' -> control s' = control s.
Proof.
  intros H. unfold sortPixelsIntoSuperpixels in H. unbinds H. subst.
  change (control s0 = control s).
  eapply (for_down_preserves (fun t => control t = control s)); eauto.
  intros j t t' Ht Hc. rewrite <- Hc. by eapply sortBody_frame.
Qed.

Lemma createBody_frame img i s s' :
  createBody img i s = Some s' -> control s' = control s.
Proof. intros H. unfold createBody in H. unbinds H; by subst. Qed.

Ltac use_frames :=
  repeat match goal with
  | E : context [fill_array] |- _ => clear E
  | E : stageLoop _ (labelBody _) _ = Some _ |- _ =>
      apply (stageLoop_frame _ _ _ _ (labelBody_frame _)) in E;
      destruct E as [? ?]
  | E : stageLoop _ (updateBody _) _ = Some _ |- _ =>
      apply (stageLoop_frame _ _ _ _ (updateBody_frame _)) in E;
      destruct E as [? ?]
  | E : stageLoop _ (residualBody _) _ = Some _ |- _ =>
      apply (stageLoop_frame _ _ _ _ (residualBody_frame _)) in E;
      destruct E as [? ?]
  | E : stageLoop _ (seedBody _ _) _ = Some _ |- _ =>
      apply (stageLoop_frame _ _ _ _ (seedBody_frame _ _)) in E;
      destruct E as [? ?]
  | E : stageLoop _ (createBody _) _ = Some _ |- _ =>
      apply (stageLoop_frame _ _ _ _ (createBody_frame _)) in E;
      destruct E as [? ?]
  | E : labelConnectedComponents _ _ _ = Some _ |- _ =>
      apply labelConnectedComponents_frame in E
  | E : classifyConnectedComponents _ _ = Some _ |- _ =>
      apply classifyConnectedComponents_frame in E
  | E : reassignConnectedComponents _ _ _ = Some _ |- _ =>
      apply reassignConnectedComponents_frame in E
  | E : sortPixelsIntoSuperpixels _ _ = Some _ |- _ =>
      apply sortPixelsIntoSuperpixels_frame in E
  | E : prefixOffsets _ = Some _ |- _ =>
      apply prefixOffsets_frame in E; destruct E as [? ?]
  end.

(** No stage of the generator writes the stage, the number of clusters or
    the iteration counter. *)
Lemma ownStage_frame input e s status s' :
  ownStage input e s = Some (status, s') -> control s' = control s.
Proof.
  intros H. unfold ownStage in H.
  destruct (progress s) eqn:Hp; try discriminate H;
    unfold kmeansLabelPixels, kmeansUpdateCenters, kmeansResidualError,
      initializeCenters, createSuperpixels in H;
    unbinds H;
    repeat match goal with
    | E : (if ?b then _ else _) = Some _ |- _ =>
        destruct b; cbn [mbind option_bind] in E; repeat unbind E
    end;
    use_frames;
    repeat match goal with
    | H : context [allocateSearchWindow ?g ?s] |- _ =>
        lazymatch goal with
        | _ : control (allocateSearchWindow g s) = control s |- _ => fail
        | _ => pose proof (proj1 (allocateSearchWindow_frame g s))
        end
    end;
    repeat match goal with
    | H : context [if ?b then _ else _] |- _ => destruct b
    end;
    chain.
Qed.

End StageFacts.

(** ** K-means iteration: the stopping test and termination *)

Module KmeansFacts.
Import Qt Img Seg Alg Slic Control StageFacts.

(** The stopping test, spelled out. *)
Lemma kmeansStops_iff s :
  kmeansStops s = true
  <-> iterationCount s = SLIC_MAX_KMEANS_ITERATIONS - 1
      \/ (1 < iterationCount s
          /\ PrimFloat.leb
               (PrimFloat.abs
                  ((PrimFloat.sqrt (residualError s)
                    - PrimFloat.sqrt (previousResidualError s))
                   / PrimFloat.sqrt (previousResidualError s))%float)
               SLIC_ERROR_THRESHOLD = true).
Proof.
  unfold kmeansStops, errorChange.
  rewrite orb_true_iff, andb_true_iff, Z.eqb_eq, Z.ltb_lt. tauto.
Qed.

(** What [updateKAndProgress] does in the K-means phase. *)
Lemma updateKAndProgress_kmeans img en s e s' :
  isKmeans (progress s) = true ->
  0 <= pixelCount img -> 0 <= kParam s ->
  0 <= k s <= limitOf (pixelCount img) s ->
  updateKAndProgress (Some img) en s = Some (e, s') ->
  (progress s' = FIND_CONNECTED_COMPONENTS
   /\ progress s = K_MEANS_ASSESS_ITERATION /\ k s = kParam s
   /\ kmeansStops s = true)
  \/ (isKmeans (progress s') = true /\ kParam s' = kParam s
      /\ 0 <= k s' <= e /\ e <= limitOf (pixelCount img) s'
      /\ ((k s = limitOf (pixelCount img) s /\ k s' = 0
           /\ ((iterationCount s' = iterationCount s
                /\ rank (progress s') < rank (progress s))
               \/ (iterationCount s' = iterationCount s + 1
                   /\ progress s = K_MEANS_ASSESS_ITERATION
                   /\ kmeansStops s = false)))
          \/ (k s < limitOf (pixelCount img) s /\ s' = s /\ k s < e))).
Proof.
  intros Hkm HN HK Hk H.
  unfold updateKAndProgress, getLoopLimit, limitOf in *.
  remember (kmeansStops s) as stops eqn:Hstops.
  assert (Hstops' : kmeansStops (s {{ k := 0 }}) = stops) by (by subst).
  unfold SLIC_MAX_KMEANS_ITERATIONS in *.
  destruct s.
  cbn -[Z.add Z.sub Z.mul Z.ltb Z.eqb kmeansStops copyCenters] in *.
  destruct progress0; try discriminate Hkm;
    cbn -[Z.add Z.sub Z.mul Z.ltb Z.eqb kmeansStops copyCenters] in H.
  all: match type of H with
       | context [?a =? ?l] => destruct (Z.eqb_spec a l) as [Heq|Hne]
       end;
    cbn -[Z.add Z.sub Z.mul Z.ltb Z.eqb kmeansStops copyCenters] in H.
  all: try (rewrite Hstops' in H; destruct stops;
            cbn -[Z.add Z.sub Z.mul Z.ltb Z.eqb kmeansStops copyCenters] in H).
  all: try (destruct (copyCenters _); [|discriminate H];
            cbn -[Z.add Z.sub Z.mul Z.ltb Z.eqb kmeansStops copyCenters] in H).
  all: unfold SLIC_CLUSTER_GRANULARITY, SLIC_PIXEL_GRANULARITY in H;
    repeat match type of H with
    | context [?a <? ?b] => destruct (Z.ltb_spec a b)
    end;
    cbn -[Z.add Z.sub Z.mul Z.ltb Z.eqb kmeansStops copyCenters] in H;
    injection H as <- <-;
    cbn -[Z.add Z.sub Z.mul Z.ltb Z.eqb kmeansStops copyCenters];
    unfold constant.
  all: try (left; repeat split; (done || lia)).
  all: right; repeat split; try done; try lia.
  all: first
    [ solve [right; repeat split; (done || lia)]
    | solve [left; split; [lia|]; split; [lia|];
             first [ left; split; [done|lia]
                   | right; repeat split; (done || lia) ]] ].
Qed.

(** A K-means stage moves the cursor to the end of its increment. *)
Lemma ownStage_kmeans input e s status s' :
  isKmeans (progress s) = true ->
  ownStage input e s = Some (status, s') ->
  control s' = control s /\ k s' = Z.max (k s) e.
Proof.
  intros Hkm H. split; [by eapply ownStage_frame|].
  unfold ownStage in H.
  destruct (progress s) eqn:Hp; try discriminate Hkm;
    unfold kmeansLabelPixels, kmeansUpdateCenters, kmeansResidualError in H;
    unbinds H;
    repeat match goal with
    | E : (if ?b then _ else _) = Some _ |- _ =>
        destruct b; cbn [mbind option_bind] in E; repeat unbind E
    end;
    use_frames; subst; simpl in *; congruence.
Qed.

(** [runStage] on a stage of the generator proper. *)
Lemma runStage_own e a st1 :
  isOwnStage (progress st1) = true ->
  runStage e {| alg := a; st := st1 |}
  = '(status, st') ← ownStage (input a) e st1;
    Some (status, {| alg := a; st := st' |}).
Proof.
  intros H. unfold runStage, ownStage. destruct st1. cbn in H |- *.
  destruct progress0; try discriminate H; reflexivity.
Qed.

Lemma isKmeans_own p : isKmeans p = true -> isOwnStage p = true.
Proof. by destruct p. Qed.

(** One increment in the K-means phase either enters the search for
    connected components or stays in the phase with a smaller measure. *)
Lemma increment_kmeans img s r f status s' :
  inKmeans img s ->
  increment s = Some (r, f, status, s') ->
  progress (st s') = FIND_CONNECTED_COMPONENTS
  \/ (inKmeans img s'
      /\ 0 <= kmeansMeasure (pixelCount img) (st s')
         < kmeansMeasure (pixelCount img) (st s)).
Proof.
  intros (Hfail & Hfin & Hin & HN & Hkm & HK & Hic & Hk) H.
  unfold increment in H. rewrite Hfail, Hfin, Hin in H.
  destruct (updateKAndProgress (Some img) (outputIsEnabled (alg s)) (st s))
    as [[e st1]|] eqn:Hup; [|discriminate H].
  cbn [mbind option_bind] in H.
  change (s {{ st := st1 }}) with {| alg := alg s; st := st1 |} in H.
  pose proof (updateKAndProgress_kmeans img _ (st s) e st1 Hkm HN HK Hk Hup)
    as Hcases.
  assert (Hown1 : isOwnStage (progress st1) = true).
  { destruct Hcases as [(-> & _)|(Hkm1 & _)]; [done|by apply isKmeans_own]. }
  rewrite (runStage_own e (alg s) st1 Hown1), Hin in H.
  destruct (ownStage (Some img) e st1) as [[status2 st2]|] eqn:Hown;
    [|discriminate H].
  cbn in H. injection H as _ _ _ <-. cbn [st alg].
  destruct Hcases as [(Hfind & _)|(Hkm1 & HK1 & Hk1 & He & Hcases)].
  - left. apply ownStage_frame in Hown. unfold control in Hown. congruence.
  - right. apply ownStage_kmeans in Hown; [|done].
    destruct Hown as [Hc Hk2]. unfold control in Hc.
    injection Hc as Hp2 HK2 Hic2.
    unfold inKmeans, kmeansMeasure, limitOf, SLIC_MAX_KMEANS_ITERATIONS in *.
    cbn [st alg]. rewrite Hp2, HK2, Hic2, Hk2.
    destruct Hcases
      as [(Hkl & Hk0 & [(Hic1 & Hrank)|(Hic1 & Hp & Hstop)])
         |(Hlt & -> & Hke)].
    2: { assert (Hne : iterationCount (st s) <> 14).
         { unfold kmeansStops, SLIC_MAX_KMEANS_ITERATIONS in Hstop.
           apply orb_false_iff in Hstop as [Hstop _].
           apply Z.eqb_neq in Hstop. lia. }
         rewrite Hp in *.
         destruct (progress st1); try discriminate Hkm1; cbn [rank] in *;
           (split; [repeat split; (done || lia)|]); nia. }
    + destruct (progress st1), (progress (st s));
        try discriminate Hkm1; try discriminate Hkm; cbn [rank] in *;
        try lia;
        (split; [repeat split; (done || lia)|]); nia.
    + destruct (progress (st s)); try discriminate Hkm; cbn [rank] in *;
        (split; [repeat split; (done || lia)|]); nia.
Qed.

Lemma kmeansMeasure_nonneg img s :
  inKmeans img s -> 0 <= kmeansMeasure (pixelCount img) (st s).
Proof.
  intros (_ & _ & _ & HN & Hkm & HK & Hic & Hk).
  unfold kmeansMeasure, limitOf, SLIC_MAX_KMEANS_ITERATIONS in *.
  destruct (progress (st s)); try discriminate Hkm; cbn [rank]; nia.
Qed.

(** K-means iteration ends within a bounded number of increments. *)
Lemma kmeans_terminates img (M : nat) : forall s,
  inKmeans img s ->
  kmeansMeasure (pixelCount img) (st s) < Z.of_nat M ->
  exists n,
    run n s = None
    \/ exists log s',
         run n s = Some (log, s')
         /\ progress (st s') = FIND_CONNECTED_COMPONENTS.
Proof.
  induction M as [|M IH]; intros s Hinv HM.
  { pose proof (kmeansMeasure_nonneg img s Hinv). lia. }
  destruct (increment s) as [[[[r f] status] s1]|] eqn:Hinc.
  - destruct (increment_kmeans img s r f status s1 Hinv Hinc)
      as [Hfind|[Hinv1 Hdec]].
    + exists 1%nat. right. exists [(r, f, status)], s1.
      split; [|done]. simpl. by rewrite Hinc.
    + destruct (IH s1 Hinv1 ltac:(lia)) as [n [Hnone|(log & s' & Hrun & Hp)]].
      * exists (Datatypes.S n). left. simpl. rewrite Hinc. simpl.
        by rewrite Hnone.
      * exists (Datatypes.S n). right. exists ((r, f, status) :: log), s'.
        split; [|done]. simpl. rewrite Hinc. simpl. by rewrite Hrun.
  - exists 1%nat. left. simpl. by rewrite Hinc.
Qed.

(** The residual depends on the positions of the centers only. *)
Lemma lookup_same_fmap {A B} (f : A -> B) (l1 l2 : list A) i a :
  f <$> l1 = f <$> l2 -> l1 !! i = Some a ->
  exists b, l2 !! i = Some b /\ f b = f a.
Proof.
  intros Hmap Ha.
  assert (Hfa : (f <$> l1) !! i = Some (f a))
    by (by rewrite list_lookup_fmap, Ha).
  rewrite Hmap, list_lookup_fmap in Hfa.
  destruct (l2 !! i) as [b|]; [|done]. exists b. split; [done|].
  by injection Hfa.
Qed.

Lemma residualBody_positions first i s t s' :
  samePositions s t -> residualBody first i s = Some s' ->
  exists t', residualBody first i t = Some t' /\ samePositions s' t'.
Proof.
  intros (Hcur & Hprev & Hcount & Hres & Hk) H.
  unfold residualBody, rdp, wrp in *.
  destruct (currentCenters s) as [cs|] eqn:Ecs; [|discriminate H].
  destruct (currentCenters t) as [ct|] eqn:Ect; [|discriminate Hcur].
  injection Hcur as Hcur. cbn [mbind option_bind] in H |- *.
  destruct (rd cs i) as [c|] eqn:Ec; [|discriminate H].
  apply rd_Some in Ec as [Hi Ec].
  destruct (lookup_same_fmap position cs ct _ c Hcur Ec) as (c2 & Ec2 & Hpos).
  rewrite (proj2 (rd_Some ct i c2) (conj Hi Ec2)).
  cbn [mbind option_bind] in H |- *.
  rewrite <- Hcount.
  destruct (nPixelsPerCluster s) as [counts|] eqn:Ecn; [|discriminate H].
  cbn [mbind option_bind] in H |- *.
  destruct (rd counts i) as [count|]; [|discriminate H].
  cbn [mbind option_bind] in H |- *.
  assert (Hlen : length ct = length cs).
  { pose proof (f_equal length Hcur) as Hl. by rewrite !length_fmap in Hl. }
  destruct (wr cs i _) as [cs'|] eqn:Ew; [|discriminate H].
  apply wr_Some in Ew as [Hr ->].
  rewrite wr_in_range by lia.
  cbn [mbind option_bind position] in H |- *.
  destruct first.
  - injection H as <-. eexists. split; [reflexivity|].
    unfold samePositions. cbn. unfold constant.
    rewrite !list_fmap_insert. cbn. rewrite Hpos, Hcur.
    repeat split; try done; congruence.
  - pose proof Hprev as Hprev0.
    destruct (previousCenters s) as [ps|] eqn:Eps; [|discriminate H].
    destruct (previousCenters t) as [pt|] eqn:Ept; [|discriminate Hprev].
    injection Hprev as Hprev. cbn [mbind option_bind] in H |- *.
    destruct (rd ps i) as [p|] eqn:Ep; [|discriminate H].
    apply rd_Some in Ep as [_ Ep].
    destruct (lookup_same_fmap position ps pt _ p Hprev Ep)
      as (p2 & Ep2 & Hpos2).
    rewrite (proj2 (rd_Some pt i p2) (conj Hi Ep2)).
    cbn [mbind option_bind] in H |- *.
    injection H as <-. eexists. split; [reflexivity|].
    unfold samePositions. cbn. unfold constant.
    rewrite !list_fmap_insert. cbn. rewrite Hpos, Hpos2, Hcur, Hres.
    split; [done|]. split.
    { transitivity ((fun l : list Center2 => position <$> l) <$> Some ps);
        [f_equal; exact Eps|].
      transitivity ((fun l : list Center2 => position <$> l) <$> Some pt);
        [exact Hprev0|f_equal; symmetry; exact Ept]. }
    split; [by transitivity (Some counts)|]. split; [done|exact Hk].
Qed.

Lemma for_loop_rel {A B : Type} (R : A -> B -> Prop)
  (bodyA : pxind -> A -> option A) (bodyB : pxind -> B -> option B) n :
  (forall j a b a', R a b -> bodyA j a = Some a' ->
                    exists b', bodyB j b = Some b' /\ R a' b') ->
  forall i a b a',
    R a b -> for_loop n i bodyA a = Some a' ->
    exists b', for_loop n i bodyB b = Some b' /\ R a' b'.
Proof.
  intros Hbody. induction n as [|n IH]; intros i a b a' HR H; simpl in *.
  - injection H as <-. eauto.
  - destruct (bodyA i a) as [a1|] eqn:Ea; [|discriminate H]. simpl in H.
    destruct (Hbody i a b a1 HR Ea) as (b1 & -> & HR1). simpl. eauto.
Qed.

Lemma kmeansResidualError_positions e first s t s' :
  samePositions s t -> kmeansResidualError e first s = Some s' ->
  exists t', kmeansResidualError e first t = Some t' /\ samePositions s' t'.
Proof.
  intros HR H. unfold kmeansResidualError, stageLoop in *.
  destruct (for_upto (k s) e (residualBody first) s) as [s1|] eqn:Es;
    [|discriminate H].
  simpl in H. injection H as <-.
  pose proof HR as (_ & _ & _ & _ & Hk).
  unfold for_upto in *. rewrite <- Hk.
  destruct (for_loop_rel samePositions (residualBody first)
              (residualBody first) _
              (fun j a b a' => residualBody_positions first j a b a')
              _ s t s1 HR Es) as (t1 & -> & (H1 & H2 & H3 & H4 & H5)).
  simpl. eexists. split; [reflexivity|].
  unfold samePositions. cbn. unfold constant. by rewrite Hk.
Qed.

(** C4 (as the code has it). In the K-means phase: the phase ends within
    a bounded number of increments; it is left exactly at the end of an
    assessment whose stopping test holds, every other update staying in
    the phase; the test holds exactly when the iteration counter has
    reached its maximum, or when more than two iterations are complete
    (the counter exceeds 1) and the relative change of the square root of
    the summed squared displacement of the centers is at most the
    threshold; and the residual computed by an assessment depends on the
    positions of the centers only, not on their colours. *)
Theorem kmeans_stopping img s :
  inKmeans img s ->
  (exists n,
      run n s = None
      \/ exists log s',
           run n s = Some (log, s')
           /\ progress (st s') = FIND_CONNECTED_COMPONENTS)
  /\ (forall e st',
        updateKAndProgress (Some img) (outputIsEnabled (alg s)) (st s)
        = Some (e, st') ->
        (progress st' = FIND_CONNECTED_COMPONENTS
         <-> progress (st s) = K_MEANS_ASSESS_ITERATION
             /\ k (st s) = kParam (st s) /\ kmeansStops (st s) = true)
        /\ (progress st' = FIND_CONNECTED_COMPONENTS
            \/ isKmeans (progress st') = true))
  /\ (kmeansStops (st s) = true
      <-> iterationCount (st s) = SLIC_MAX_KMEANS_ITERATIONS - 1
          \/ (1 < iterationCount (st s)
              /\ PrimFloat.leb
                   (PrimFloat.abs
                      ((PrimFloat.sqrt (residualError (st s))
                        - PrimFloat.sqrt (previousResidualError (st s)))
                       / PrimFloat.sqrt (previousResidualError (st s)))%float)
                   SLIC_ERROR_THRESHOLD = true))
  /\ (forall t e first s',
        samePositions (st s) t ->
        kmeansResidualError e first (st s) = Some s' ->
        exists t', kmeansResidualError e first t = Some t'
                   /\ residualError t' = residualError s').
Proof.
  intros Hinv. split; [|split; [|split]].
  - apply (kmeans_terminates img
             (Datatypes.S (Z.to_nat (kmeansMeasure (pixelCount img) (st s)))));
      [done|lia].
  - intros e st' Hup.
    destruct Hinv as (_ & _ & _ & HN & Hkm & HK & _ & Hk).
    destruct (updateKAndProgress_kmeans img _ (st s) e st' Hkm HN HK Hk Hup)
      as [(Hfind & Hp & Hkk & Hstop)|(Hkm1 & _ & _ & _ & Hcases)].
    + split; [|by left]. by split.
    + split; [|by right]. split.
      * intros Hfind. rewrite Hfind in Hkm1. discriminate Hkm1.
      * intros (Hp & Hkk & Hstop). exfalso.
        unfold limitOf in Hcases. rewrite Hp in Hcases. cbn [rank] in Hcases.
        destruct Hcases as [(_ & _ & [(_ & Hrank)|(_ & _ & Hstop')])|(Hlt & _)];
          [|congruence|lia].
        destruct (progress st'); cbn [rank] in Hrank; lia.
  - apply kmeansStops_iff.
  - intros t e first s' HR H.
    destruct (kmeansResidualError_positions e first (st s) t s' HR H)
      as (t' & Ht' & (_ & _ & _ & Hres & _)).
    eauto.
Qed.

(** The run on the 4 by 4 image, when its first labelling is done. *)
Lemma kmeans_stopping_witness :
  (exists n,
      run n Examples.labelled44 = None
      \/ exists log s',
           run n Examples.labelled44 = Some (log, s')
           /\ progress (st s') = FIND_CONNECTED_COMPONENTS)
  /\ (forall e st',
        updateKAndProgress (Some Examples.img44)
          (outputIsEnabled (alg Examples.labelled44))
          (st Examples.labelled44)
        = Some (e, st') ->
        (progress st' = FIND_CONNECTED_COMPONENTS
         <-> progress (st Examples.labelled44) = K_MEANS_ASSESS_ITERATION
             /\ k (st Examples.labelled44) = kParam (st Examples.labelled44)
             /\ kmeansStops (st Examples.labelled44) = true)
        /\ (progress st' = FIND_CONNECTED_COMPONENTS
            \/ isKmeans (progress st') = true))
  /\ (kmeansStops (st Examples.labelled44) = true
      <-> iterationCount (st Examples.labelled44)
          = SLIC_MAX_KMEANS_ITERATIONS - 1
          \/ (1 < iterationCount (st Examples.labelled44)
              /\ PrimFloat.leb
                   (PrimFloat.abs
                      ((PrimFloat.sqrt
                          (residualError (st Examples.labelled44))
                        - PrimFloat.sqrt
                            (previousResidualError (st Examples.labelled44)))
                       / PrimFloat.sqrt
                           (previousResidualError
                              (st Examples.labelled44)))%float)
                   SLIC_ERROR_THRESHOLD = true))
  /\ (forall t e first s',
        samePositions (st Examples.labelled44) t ->
        kmeansResidualError e first (st Examples.labelled44) = Some s' ->
        exists t', kmeansResidualError e first t = Some t'
                   /\ residualError t' = residualError s').
Proof.
  apply (kmeans_stopping Examples.img44 Examples.labelled44).
  unfold inKmeans. repeat apply conj; vm_compute; congruence.
Defined.

(** From there the run of the example reaches the search for connected
    components after 45 more increments, all of them successful. *)
Lemma kmeans_example_run :
  exists log s',
    run 45 Examples.labelled44 = Some (log, s')
    /\ Forall (fun r => fst (fst r) = true) log
    /\ progress (st s') = FIND_CONNECTED_COMPONENTS
    /\ iterationCount (st s') = SLIC_MAX_KMEANS_ITERATIONS - 1.
Proof.
  eexists _, _. split; [vm_compute; reflexivity|].
  split; [|split; vm_compute; reflexivity].
  apply (bool_decide_unpack _). vm_compute. exact I.
Qed.

(** With a summed squared displacement of 10816 after one of 10000 in the
    third assessment, the code leaves the K-means phase (the roots differ
    by 4 percent), whereas the relative change of the sums is above the
    threshold. *)
Lemma stop_compares_roots :
  (progress <$> (snd <$> updateKAndProgress (Some Examples.img44) true
                           Examples.assess3))
  = Some FIND_CONNECTED_COMPONENTS
  /\ Claimed.claimedStop Examples.assess3 = false.
Proof. split; vm_compute; reflexivity. Qed.

End KmeansFacts.

(** ** Re-initialization of the generator *)

Module ReinitFacts.
Import Qt Img Seg Alg Slic Control Reinit StageFacts KmeansFacts.





Lemma runStage_at e a st1 p :
  progress st1 = p ->
  isOwnStage p = false ->
  runStage e {| alg := a; st := st1 |}
  = match p with
    | INITIALIZE_OUTPUT =>
        '(ok, s) ← initializeOutput {| alg := a; st := st1 |};
        let s := s {{ alg := (alg s) {{ failed := negb ok }} }} in
        Some (if failed (alg s) then OutputInitializationFailed
              else OutputInitialized, s)
    | FILL_OUTPUT =>
        s ← fillOutputImage e {| alg := a; st := st1 |};
        Some (FillingOutput (k (st s)) (kParam (st s)), s)
    | FINALIZE_OUTPUT =>
        Some (OutputFinalized, finalizeOutput {| alg := a; st := st1 |})
    | END => Some (Finished, {| alg := a {{ finished := true }}; st := st1 |})
    | _ => None
    end.
Proof.
  intros <- H. unfold runStage. destruct st1. cbn in H |- *.
  destruct progress0; try discriminate H; reflexivity.
Qed.


Lemma isOwnStage_isPre p : isOwnStage p = true -> isPre p = true.
Proof. by destruct p. Qed.




(** The generator never writes the vector output. *)
Lemma increment_keeps_svg s r s' :
  increment s = Some (r, s') -> outputSVG (alg s') = outputSVG (alg s).
Proof.
  unfold increment. intros H. destruct s as [a sa].
  cbn in H.
  destruct (failed a); [by injection H as _ <-|].
  destruct (finished a); [by injection H as _ <-|].
  destruct (updateKAndProgress _ _ _) as [[e st1]|]; [|discriminate H].
  cbn in H. unfold constant in H.
  destruct (isOwnStage (progress st1)) eqn:Hown.
  - rewrite runStage_own in H by done.
    destruct (ownStage _ _ _) as [[status st2]|]; [|discriminate H].
    by injection H as _ <-.
  - rewrite (runStage_at _ _ _ (progress st1) eq_refl Hown) in H.
    unfold initializeOutput, Alg.initializeOutput, fillOutputImage in H.
    destruct (progress st1); cbn in H; try discriminate H.
    + destruct (outputIsEnabled a); cbn in H;
        [destruct (input a); [cbn in H|discriminate H]|];
        by injection H as _ <-.
    + destruct (input a); [cbn in H|discriminate H].
      destruct (outputImage a); [cbn in H|discriminate H].
      destruct (for_upto _ _ _ _); [cbn in H|discriminate H].
      by injection H as _ <-.
    + by injection H as _ <-.
    + by injection H as _ <-.
Qed.

(** The first increment of the example leaves the vector output null. *)
Lemma increment_keeps_svg_witness :
  exists r s',
    increment Examples.init44 = Some (r, s')
    /\ outputSVG (alg s') = outputSVG (alg Examples.init44).
Proof.
  eexists _, _. split; [vm_compute; reflexivity|].
  eapply increment_keeps_svg. vm_compute; reflexivity.
Defined.



End ReinitFacts.
